(** * diffx: a shallow embedding of the diff engine and its specification

    The Go package [diffx] computes an edit script between two sequences of
    elements.  This development embeds the engine in Rocq, function by
    function, and states the properties of its specification over the
    embedding.

    Conventions of the embedding.
    - Go's [int] is modelled as [Z].  Every integer the engine computes is
      bounded by a small multiple of the lengths of the two slices, so 64-bit
      wrap-around does not occur; [/] and [%] are Go's truncating operators
      ([Z.quot], [Z.rem]).
    - Go's [uint64] is a [Z] in [0, 2^64), the wrap-around written out.
    - Go's [float64] is the primitive IEEE 754 binary64 type [float].
    - A slice is a [list]; an index expression that Go would abort with
      "index out of range" yields [Panic].
    - Go maps used as dictionaries are [gmap]s; the engine never iterates
      over a map.
    - A run-time panic, and a recursion that was given too little fuel, are
      results of their own: see [result]. *)

From Stdlib Require Import ZArith List String Ascii Bool Lia.
From Stdlib Require Import Floats.
From stdpp Require Import gmap.

Import ListNotations.
Local Open Scope Z_scope.
Local Open Scope list_scope.

Set Implicit Arguments.

(* ===================================================================== *)
(** ** Results: values, panics and exhausted fuel                         *)
(* ===================================================================== *)

Inductive result (A : Type) : Type :=
| Ok (a : A)
| Panic
| OutOfFuel.

Arguments Ok {A} a.
Arguments Panic {A}.
Arguments OutOfFuel {A}.

Definition bind {A B : Type} (r : result A) (k : A -> result B) : result B :=
  match r with
  | Ok a => k a
  | Panic => Panic
  | OutOfFuel => OutOfFuel
  end.

Notation "'let*' x ':=' e 'in' k" := (bind e (fun x => k))
  (at level 10, x pattern, e at level 100, k at level 200).

(** [a[i]] on a slice. *)
Definition idx {A : Type} (l : list A) (i : Z) : result A :=
  if (i <? 0) || (Z.of_nat (List.length l) <=? i) then Panic
  else match nth_error l (Z.to_nat i) with
       | Some a => Ok a
       | None => Panic
       end.

Fixpoint set_nth {A : Type} (l : list A) (n : nat) (v : A) : list A :=
  match l, n with
  | [], _ => []
  | _ :: t, O => v :: t
  | h :: t, S n' => h :: set_nth t n' v
  end.

(** [a[i] = v] on a slice. *)
Definition upd {A : Type} (l : list A) (i : Z) (v : A) : result (list A) :=
  if (i <? 0) || (Z.of_nat (List.length l) <=? i) then Panic
  else Ok (set_nth l (Z.to_nat i) v).

Definition len {A : Type} (l : list A) : Z := Z.of_nat (List.length l).

(** [a[lo:hi]] on a slice whose capacity equals its length. *)
Definition slice {A : Type} (l : list A) (lo hi : Z) : result (list A) :=
  if (lo <? 0) || (hi <? lo) || (len l <? hi) then Panic
  else Ok (firstn (Z.to_nat (hi - lo)) (skipn (Z.to_nat lo) l)).

(* ===================================================================== *)
(** ** element.go                                                         *)
(* ===================================================================== *)

(** The [Element] interface is open in Go.  The embedding closes it over the
    two implementations the repository contains: the package's own
    [StringElement] and the [CustomElement] of its example tests. *)
Inductive Element : Type :=
| StringElement (s : string)
| CustomElement (ID : Z) (Name : string).

Definition two64 : Z := 2 ^ 64.

(** hash/fnv, 64-bit FNV-1a. *)
Definition fnv_offset64 : Z := 14695981039346656037.
Definition fnv_prime64 : Z := 1099511628211.

Fixpoint fnv1a (h : Z) (s : string) : Z :=
  match s with
  | EmptyString => h
  | String c s' =>
      fnv1a ((Z.lxor h (Z.of_nat (nat_of_ascii c)) * fnv_prime64) mod two64) s'
  end.

Definition StringElement_Equal (s : string) (other : Element) : bool :=
  match other with
  | StringElement o => String.eqb s o
  | _ => false
  end.

Definition StringElement_Hash (s : string) : Z := fnv1a fnv_offset64 s.

Definition CustomElement_Equal (id : Z) (other : Element) : bool :=
  match other with
  | CustomElement o _ => Z.eqb id o
  | _ => false
  end.

Definition CustomElement_Hash (id : Z) : Z := id mod two64.

(** Dynamic dispatch of the interface methods. *)
Definition Equal (e other : Element) : bool :=
  match e with
  | StringElement s => StringElement_Equal s other
  | CustomElement id _ => CustomElement_Equal id other
  end.

Definition Hash (e : Element) : Z :=
  match e with
  | StringElement s => StringElement_Hash s
  | CustomElement id _ => CustomElement_Hash id
  end.

Definition toElements (strs : list string) : list Element :=
  List.map StringElement strs.



(* ===================================================================== *)
(** ** diffx.go: operations and options                                   *)
(* ===================================================================== *)

Inductive OpType : Type := OpEqual | OpInsert | OpDelete.

Definition OpType_eqb (a b : OpType) : bool :=
  match a, b with
  | OpEqual, OpEqual | OpInsert, OpInsert | OpDelete, OpDelete => true
  | _, _ => false
  end.

Record DiffOp : Type := mkOp {
  Type_ : OpType;
  AStart : Z;
  AEnd : Z;
  BStart : Z;
  BEnd : Z
}.

(** The [anchorElimination] field is set by [WithAnchorElimination] and read
    by the histogram driver; its default is the documented one. *)
Record options : Type := mkOptions {
  useHeuristic : bool;
  forceMinimal : bool;
  costLimit : Z;
  preprocessing : bool;
  postprocessing : bool;
  anchorElimination : bool
}.

Definition defaultOptions : options :=
  {| useHeuristic := true;
     forceMinimal := false;
     costLimit := 0;
     preprocessing := true;
     postprocessing := true;
     anchorElimination := true |}.

(** Functional options, as values. *)
Inductive Option_ : Type :=
| WithHeuristic (enabled : bool)
| WithMinimal (minimal : bool)
| WithCostLimit (n : Z)
| WithPreprocessing (enabled : bool)
| WithPostprocessing (enabled : bool)
| WithAnchorElimination (enabled : bool).

Definition applyOption (opt : Option_) (o : options) : options :=
  match opt with
  | WithHeuristic e =>
      mkOptions e (forceMinimal o) (costLimit o) (preprocessing o)
                (postprocessing o) (anchorElimination o)
  | WithMinimal mi =>
      mkOptions (if mi then false else useHeuristic o) mi (costLimit o)
                (preprocessing o) (postprocessing o) (anchorElimination o)
  | WithCostLimit n =>
      mkOptions (useHeuristic o) (forceMinimal o) n (preprocessing o)
                (postprocessing o) (anchorElimination o)
  | WithPreprocessing e =>
      mkOptions (useHeuristic o) (forceMinimal o) (costLimit o) e
                (postprocessing o) (anchorElimination o)
  | WithPostprocessing e =>
      mkOptions (useHeuristic o) (forceMinimal o) (costLimit o)
                (preprocessing o) e (anchorElimination o)
  | WithAnchorElimination e =>
      mkOptions (useHeuristic o) (forceMinimal o) (costLimit o)
                (preprocessing o) (postprocessing o) e
  end.

(** [o := defaultOptions(); for _, opt := range opts { opt(o) }] *)
Definition applyOptions (opts : list Option_) : options :=
  fold_left (fun o opt => applyOption opt o) opts defaultOptions.

(* ===================================================================== *)
(** ** Loops                                                              *)
(* ===================================================================== *)

(** A loop body either goes on with a new state or leaves the enclosing
    function with a value. *)
Inductive loop (S R : Type) : Type :=
| Continue (s : S)
| Return (r : R).

Arguments Continue {S R} s.
Arguments Return {S R} r.

(** [for k := k0; k <= kMax; k += step { body }], run for at most [cnt]
    rounds.  Callers pass a [cnt] that the loop cannot outlast. *)
Fixpoint forLoop {S R : Type} (body : Z -> S -> result (loop S R))
         (step : Z) (cnt : nat) (k kMax : Z) (st : S) : result (loop S R) :=
  match cnt with
  | O => Ok (Continue st)
  | Datatypes.S c =>
      if k <=? kMax then
        let* r := body k st in
        match r with
        | Continue st' => forLoop body step c (k + step) kMax st'
        | Return p => Ok (Return p)
        end
      else Ok (Continue st)
  end.

(* ===================================================================== *)
(** ** context.go                                                         *)
(* ===================================================================== *)

Record partition : Type := mkPartition {
  xmid : Z;
  ymid : Z;
  loMinimal : bool;
  hiMinimal : bool
}.

Record diffContext : Type := mkCtx {
  xvec : list Element;
  yvec : list Element;
  fdiag : list Z;
  bdiag : list Z;
  xchanges : list bool;
  ychanges : list bool;
  ctxUseHeuristic : bool;
  ctxCostLimit : Z
}.

(** [float64(n)] for a non-negative [int]. *)
Definition float64_of_int (n : Z) : float := PrimFloat.of_uint63 (Uint63.of_Z n).

(** [int(f)] for a finite [float64]: truncation toward zero. *)
Definition int_of_float64 (f : float) : Z :=
  match Prim2SF f with
  | S754_finite s m e =>
      let v := if 0 <=? e then Z.pos m * 2 ^ e else Z.pos m / 2 ^ (- e) in
      if s then - v else v
  | _ => 0
  end.

Definition autoCostLimit (n m : Z) : Z :=
  let c := int_of_float64
             (PrimFloat.div
                (PrimFloat.mul (PrimFloat.sqrt (float64_of_int n))
                               (PrimFloat.sqrt (float64_of_int m)))
                (float64_of_int 4)) in
  if c <? 256 then 256 else c.

Definition newDiffContext (a b : list Element) (opts : options) : diffContext :=
  let n := len a in
  let m := len b in
  let diagSize := n + m + 3 in
  {| xvec := a;
     yvec := b;
     fdiag := repeat 0 (Z.to_nat diagSize);
     bdiag := repeat 0 (Z.to_nat diagSize);
     xchanges := repeat false (Z.to_nat n);
     ychanges := repeat false (Z.to_nat m);
     ctxUseHeuristic := useHeuristic opts;
     ctxCostLimit :=
       if (costLimit opts =? 0) && useHeuristic opts
       then autoCostLimit n m else costLimit opts |}.

Definition diagOffset (ctx : diffContext) : Z := len (yvec ctx) + 1.

Definition setXchanges (ctx : diffContext) (xc : list bool) : diffContext :=
  mkCtx (xvec ctx) (yvec ctx) (fdiag ctx) (bdiag ctx) xc (ychanges ctx)
        (ctxUseHeuristic ctx) (ctxCostLimit ctx).

Definition setYchanges (ctx : diffContext) (yc : list bool) : diffContext :=
  mkCtx (xvec ctx) (yvec ctx) (fdiag ctx) (bdiag ctx) (xchanges ctx) yc
        (ctxUseHeuristic ctx) (ctxCostLimit ctx).

Definition setDiags (ctx : diffContext) (fd bd : list Z) : diffContext :=
  mkCtx (xvec ctx) (yvec ctx) fd bd (xchanges ctx) (ychanges ctx)
        (ctxUseHeuristic ctx) (ctxCostLimit ctx).

(** [for i := lo; i < hi; i++ { marks[i] = true }] *)
Fixpoint markRange (cnt : nat) (marks : list bool) (i hi : Z) : result (list bool) :=
  match cnt with
  | O => Ok marks
  | Datatypes.S c =>
      if i <? hi then
        let* marks' := upd marks i true in
        markRange c marks' (i + 1) hi
      else Ok marks
  end.

Definition markDeleted (ctx : diffContext) (xoff xlim : Z) : result diffContext :=
  let* xc := markRange (Z.to_nat (xlim - xoff)) (xchanges ctx) xoff xlim in
  Ok (setXchanges ctx xc).

Definition markInserted (ctx : diffContext) (yoff ylim : Z) : result diffContext :=
  let* yc := markRange (Z.to_nat (ylim - yoff)) (ychanges ctx) yoff ylim in
  Ok (setYchanges ctx yc).

(** [ctx.equal(i, j)] *)
Definition ctxEqual (ctx : diffContext) (i j : Z) : result bool :=
  let* x := idx (xvec ctx) i in
  let* y := idx (yvec ctx) j in
  Ok (Equal x y).

(* ===================================================================== *)
(** ** heuristics.go and myers.go                                         *)
(* ===================================================================== *)

Definition significantMatchLen : Z := 16.

Record snakeInfo : Type := mkSnake {
  snakeX : Z;
  snakeY : Z;
  snakeLen : Z;
  snakeForward : bool
}.

(** Newton iteration of [isqrt]: [for y < x { x = y; y = (x + n/x) / 2 }]. *)
Fixpoint isqrtLoop (cnt : nat) (n x y : Z) : Z :=
  match cnt with
  | O => x
  | Datatypes.S c =>
      if y <? x then isqrtLoop c n y (Z.quot (y + Z.quot n y) 2) else x
  end.

Definition isqrt (n : Z) : Z :=
  if n <=? 0 then 0
  else if n =? 1 then 1
  else isqrtLoop (Z.to_nat n) n n (Z.quot (n + 1) 2).

Definition abs (x : Z) : Z := if x <? 0 then - x else x.

Definition snakeToPartition (snake : snakeInfo) (xoff yoff n m : Z) : partition :=
  if snakeForward snake
  then mkPartition (xoff + snakeX snake) (yoff + snakeY snake) true false
  else mkPartition (xoff + snakeX snake) (yoff + snakeY snake) false true.

(** [for x < n && y < m && ctx.equal(xoff+x, yoff+y) { x++; y++ }] *)
Fixpoint followForward (ctx : diffContext) (xoff yoff n m : Z)
         (cnt : nat) (x y : Z) : result (Z * Z) :=
  match cnt with
  | O => Ok (x, y)
  | Datatypes.S c =>
      if (x <? n) && (y <? m) then
        let* e := ctxEqual ctx (xoff + x) (yoff + y) in
        if e then followForward ctx xoff yoff n m c (x + 1) (y + 1)
        else Ok (x, y)
      else Ok (x, y)
  end.

(** [for x > 0 && y > 0 && ctx.equal(xoff+x-1, yoff+y-1) { x--; y-- }] *)
Fixpoint followBackward (ctx : diffContext) (xoff yoff : Z)
         (cnt : nat) (x y : Z) : result (Z * Z) :=
  match cnt with
  | O => Ok (x, y)
  | Datatypes.S c =>
      if (0 <? x) && (0 <? y) then
        let* e := ctxEqual ctx (xoff + x - 1) (yoff + y - 1) in
        if e then followBackward ctx xoff yoff c (x - 1) (y - 1)
        else Ok (x, y)
      else Ok (x, y)
  end.

Definition greedyFallback (ctx : diffContext) (xoff xlim yoff ylim : Z)
  : result partition :=
  let n := xlim - xoff in
  let m := ylim - yoff in
  let* (x, y) := followForward ctx xoff yoff n m (Z.to_nat n) 0 0 in
  if 0 <? x then Ok (mkPartition (xoff + x) (yoff + y) false false)
  else if 0 <? n then Ok (mkPartition (xoff + 1) yoff false false)
  else Ok (mkPartition xoff (yoff + 1) false false).

(** The local variables of [findMiddleSnake] that its loops update. *)
Record searchState : Type := mkSearch {
  stF : list Z;
  stB : list Z;
  bestSnake : snakeInfo;
  bestSnakeScore : Z
}.

Section MiddleSnake.

Variable ctx : diffContext.
Variables xoff yoff n m : Z.
Variable findMinimal : bool.

Let delta : Z := n - m.
Let deltaOdd : bool := negb (Z.land delta 1 =? 0).
Let offset : Z := m + 1.

(** The score bookkeeping shared by both directions. *)
Definition trackSnake (st : searchState) (fd bd : list Z)
           (x y sl : Z) (fwd : bool) : searchState :=
  if ctxUseHeuristic ctx && (significantMatchLen <=? sl) then
    let midDist := abs (Z.quot (x + y) 2 - Z.quot (n + m) 4) in
    let score := sl * 2 - midDist in
    if bestSnakeScore st <? score
    then mkSearch fd bd (mkSnake x y sl fwd) score
    else mkSearch fd bd (bestSnake st) (bestSnakeScore st)
  else mkSearch fd bd (bestSnake st) (bestSnakeScore st).

(** Body of the forward [k] loop at edit distance [d].  A [return] carries
    the diagonal arrays along: they are updated in place. *)
Definition forwardStep (d k : Z) (st : searchState)
  : result (loop searchState (partition * searchState)) :=
  let fd := stF st in
  let kIdx := offset + k in
  if (kIdx - 1 <? 0) || (len fd <=? kIdx + 1) then Ok (Continue st)
  else
    let* down :=
      if k =? - d then Ok true
      else if negb (k =? d) then
             let* l := idx fd (kIdx - 1) in
             let* r := idx fd (kIdx + 1) in
             Ok (l <? r)
           else Ok false in
    let* x :=
      if down then idx fd (kIdx + 1)
      else let* l := idx fd (kIdx - 1) in Ok (l + 1) in
    let y := x - k in
    if (y <? 0) || (m <? y) || (x <? 0) || (n <? x) then
      let* fd' := upd fd kIdx x in
      Ok (Continue (mkSearch fd' (stB st) (bestSnake st) (bestSnakeScore st)))
    else
      let snakeStartX := x in
      let* (x, y) := followForward ctx xoff yoff n m (Z.to_nat (n - x)) x y in
      let sl := x - snakeStartX in
      let* fd' := upd fd kIdx x in
      let st' := trackSnake st fd' (stB st) x y sl true in
      if deltaOdd && (delta - (d - 1) <=? k) && (k <=? delta + (d - 1)) then
        let bIdx := offset + k - delta in
        if (0 <=? bIdx) && (bIdx <? len (stB st')) then
          let* f := idx fd' kIdx in
          let* b := idx (stB st') bIdx in
          if b <=? f
          then Ok (Return (mkPartition (xoff + x) (yoff + y) true true, st'))
          else Ok (Continue st')
        else Ok (Continue st')
      else Ok (Continue st').

(** Body of the backward [k] loop at edit distance [d]. *)
Definition backwardStep (d k : Z) (st : searchState)
  : result (loop searchState (partition * searchState)) :=
  let bd := stB st in
  let kIdx := offset + k in
  if (kIdx - 1 <? 0) || (len bd <=? kIdx + 1) then Ok (Continue st)
  else
    let* fromLeft :=
      if k =? d then Ok true
      else if negb (k =? - d) then
             let* l := idx bd (kIdx - 1) in
             let* r := idx bd (kIdx + 1) in
             Ok (l <? r)
           else Ok false in
    let* x :=
      if fromLeft then idx bd (kIdx - 1)
      else let* r := idx bd (kIdx + 1) in Ok (r - 1) in
    let y := x - k - delta in
    if (y <? 0) || (m <? y) || (x <? 0) || (n <? x) then
      let* bd' := upd bd kIdx x in
      Ok (Continue (mkSearch (stF st) bd' (bestSnake st) (bestSnakeScore st)))
    else
      let snakeStartX := x in
      let* (x, y) := followBackward ctx xoff yoff (Z.to_nat x) x y in
      let sl := snakeStartX - x in
      let* bd' := upd bd kIdx x in
      let st' := trackSnake st (stF st) bd' x y sl false in
      if negb deltaOdd && (- d <=? k + delta) && (k + delta <=? d) then
        let fIdx := offset + k + delta in
        if (0 <=? fIdx) && (fIdx <? len (stF st')) then
          let* f := idx (stF st') fIdx in
          let* b := idx bd' kIdx in
          if b <=? f
          then
            let fx := f in
            let fy := fx - (k + delta) in
            Ok (Return (mkPartition (xoff + fx) (yoff + fy) true true, st'))
          else Ok (Continue st')
        else Ok (Continue st')
      else Ok (Continue st').

(** The clamped diagonal range of one round, parity adjusted. *)
Definition kRange (d : Z) : Z * Z :=
  let kMin := if - d <? - m then - m else - d in
  let kMax := if n <? d then n else d in
  let kMin := if negb (Z.rem (kMin + d) 2 =? 0) then kMin + 1 else kMin in
  (kMin, kMax).

Variables costLimit' tooExpensive : Z.

(** Body of the [d] loop. *)
Definition dStep (d : Z) (st : searchState)
  : result (loop searchState (partition * searchState)) :=
  if ctxUseHeuristic ctx && negb findMinimal && (tooExpensive <? d)
     && (0 <? bestSnakeScore st)
  then Ok (Return (snakeToPartition (bestSnake st) xoff yoff n m, st))
  else
    let '(kMin, kMax) := kRange d in
    let* r := forLoop (forwardStep d) 2 (Z.to_nat (kMax - kMin + 1)) kMin kMax st in
    match r with
    | Return p => Ok (Return p)
    | Continue st1 =>
        let '(bkMin, bkMax) := kRange d in
        let* r := forLoop (backwardStep d) 2 (Z.to_nat (bkMax - bkMin + 1))
                          bkMin bkMax st1 in
        match r with
        | Return p => Ok (Return p)
        | Continue st2 =>
            if (costLimit' <=? d) && (0 <? bestSnakeScore st2)
            then Ok (Return (snakeToPartition (bestSnake st2) xoff yoff n m, st2))
            else Ok (Continue st2)
        end
    end.

End MiddleSnake.

(** What [findMiddleSnake] does once its [d] loop is over.  The diagonal
    arrays live in the context, so the search leaves them updated. *)
Inductive searchExit : Type :=
| ExitLoop (p : partition)            (* a [return] inside the loop *)
| ExitBestSnake (p : partition)       (* loop exhausted, best snake used *)
| ExitGreedy (p : partition).         (* loop exhausted, greedy fallback *)

Definition exitPartition (e : searchExit) : partition :=
  match e with
  | ExitLoop p | ExitBestSnake p | ExitGreedy p => p
  end.

(** [maxD := (n + m + 1) / 2] *)
Definition maxDistance (n m : Z) : Z := Z.quot (n + m + 1) 2.

(** The local [costLimit] of [findMiddleSnake]. *)
Definition effectiveCostLimit (ctx : diffContext) (n m : Z) (findMinimal : bool) : Z :=
  let maxD := maxDistance n m in
  if (0 <? ctxCostLimit ctx) && negb findMinimal
  then (if maxD <? ctxCostLimit ctx then maxD else ctxCostLimit ctx)
  else maxD.

(** The local [tooExpensive] of [findMiddleSnake]. *)
Definition tooExpensiveBound (ctx : diffContext) (n m : Z) (findMinimal : bool) : Z :=
  let costLimit' := effectiveCostLimit ctx n m findMinimal in
  if ctxUseHeuristic ctx && negb findMinimal
  then (let expensive := isqrt n + isqrt m in
        if expensive <? costLimit' then expensive else costLimit')
  else costLimit'.

(** [for d := 0; d <= maxD; d++ { ... }] on freshly initialised locals. *)
Definition searchLoop (ctx : diffContext) (xoff yoff n m : Z) (findMinimal : bool)
           (fd bd : list Z) : result (loop searchState (partition * searchState)) :=
  let maxD := maxDistance n m in
  forLoop (dStep ctx xoff yoff n m findMinimal
                 (effectiveCostLimit ctx n m findMinimal)
                 (tooExpensiveBound ctx n m findMinimal))
          1 (Z.to_nat (maxD + 1)) 0 maxD
          (mkSearch fd bd (mkSnake 0 0 0 false) 0).

Definition findMiddleSnakeExit (ctx : diffContext) (xoff xlim yoff ylim : Z)
           (findMinimal : bool) : result (searchExit * diffContext) :=
  let n := xlim - xoff in
  let m := ylim - yoff in
  if n =? 0 then Ok (ExitLoop (mkPartition xoff ylim true true), ctx)
  else if m =? 0 then Ok (ExitLoop (mkPartition xlim yoff true true), ctx)
  else
    let delta := n - m in
    let offset := m + 1 in
    let* fd := upd (fdiag ctx) (offset + 1) 0 in
    let* bd := upd (bdiag ctx) (offset + delta - 1) n in
    let* r := searchLoop ctx xoff yoff n m findMinimal fd bd in
    match r with
    | Return (p, st) => Ok (ExitLoop p, setDiags ctx (stF st) (stB st))
    | Continue st =>
        let ctx' := setDiags ctx (stF st) (stB st) in
        if 0 <? bestSnakeScore st
        then Ok (ExitBestSnake (snakeToPartition (bestSnake st) xoff yoff n m), ctx')
        else
          let* p := greedyFallback ctx' xoff xlim yoff ylim in
          Ok (ExitGreedy p, ctx')
    end.

Definition findMiddleSnake (ctx : diffContext) (xoff xlim yoff ylim : Z)
           (findMinimal : bool) : result (partition * diffContext) :=
  let* (e, ctx') := findMiddleSnakeExit ctx xoff xlim yoff ylim findMinimal in
  Ok (exitPartition e, ctx').

(* ===================================================================== *)
(** ** compare.go                                                         *)
(* ===================================================================== *)

(** [for xoff < xlim && yoff < ylim && ctx.equal(xoff, yoff) { xoff++; yoff++ }] *)
Fixpoint trimPrefix (ctx : diffContext) (cnt : nat) (xoff xlim yoff ylim : Z)
  : result (Z * Z) :=
  match cnt with
  | O => Ok (xoff, yoff)
  | Datatypes.S c =>
      if (xoff <? xlim) && (yoff <? ylim) then
        let* e := ctxEqual ctx xoff yoff in
        if e then trimPrefix ctx c (xoff + 1) xlim (yoff + 1) ylim
        else Ok (xoff, yoff)
      else Ok (xoff, yoff)
  end.

(** [for xoff < xlim && yoff < ylim && ctx.equal(xlim-1, ylim-1) { xlim--; ylim-- }] *)
Fixpoint trimSuffix (ctx : diffContext) (cnt : nat) (xoff xlim yoff ylim : Z)
  : result (Z * Z) :=
  match cnt with
  | O => Ok (xlim, ylim)
  | Datatypes.S c =>
      if (xoff <? xlim) && (yoff <? ylim) then
        let* e := ctxEqual ctx (xlim - 1) (ylim - 1) in
        if e then trimSuffix ctx c xoff (xlim - 1) yoff (ylim - 1)
        else Ok (xlim, ylim)
      else Ok (xlim, ylim)
  end.

(** The recursion of [compareSeq] is bounded by [fuel]; its loops are
    bounded by the frame. *)
Fixpoint compareSeq (fuel : nat) (ctx : diffContext)
         (xoff xlim yoff ylim : Z) (findMinimal : bool) : result diffContext :=
  match fuel with
  | O => OutOfFuel
  | Datatypes.S f =>
      let* (xoff, yoff) := trimPrefix ctx (Z.to_nat (xlim - xoff)) xoff xlim yoff ylim in
      let* (xlim, ylim) := trimSuffix ctx (Z.to_nat (xlim - xoff)) xoff xlim yoff ylim in
      if xoff =? xlim then markInserted ctx yoff ylim
      else if yoff =? ylim then markDeleted ctx xoff xlim
      else
        let* (part, ctx1) := findMiddleSnake ctx xoff xlim yoff ylim findMinimal in
        let* ctx2 := compareSeq f ctx1 xoff (xmid part) yoff (ymid part) (loMinimal part) in
        compareSeq f ctx2 (xmid part) xlim (ymid part) ylim (hiMinimal part)
  end.

(** [for i < n && j < m && !xchanges[i] && !ychanges[j] { i++; j++ }] *)
Fixpoint equalRun (xc yc : list bool) (cnt : nat) (n m i j : Z) : result (Z * Z) :=
  match cnt with
  | O => Ok (i, j)
  | Datatypes.S c =>
      if (i <? n) && (j <? m) then
        let* x := idx xc i in
        if negb x then
          let* y := idx yc j in
          if negb y then equalRun xc yc c n m (i + 1) (j + 1) else Ok (i, j)
        else Ok (i, j)
      else Ok (i, j)
  end.

(** [for i < n && changes[i] { i++ }] *)
Fixpoint changeRun (ch : list bool) (cnt : nat) (n i : Z) : result Z :=
  match cnt with
  | O => Ok i
  | Datatypes.S c =>
      if i <? n then
        let* x := idx ch i in
        if x then changeRun ch c n (i + 1) else Ok i
      else Ok i
  end.

(** One round of the outer loop of [buildOps]: the ops it appends and the
    positions it reaches. *)
Definition buildOpsRound (xc yc : list bool) (n m i j : Z)
  : result (list DiffOp * Z * Z) :=
  let eqStart := i in
  let eqJStart := j in
  let* (i, j) := equalRun xc yc (Z.to_nat (n - i)) n m i j in
  let ops1 := if eqStart <? i then [mkOp OpEqual eqStart i eqJStart j] else [] in
  let delStart := i in
  let* i := changeRun xc (Z.to_nat (n - i)) n i in
  let ops2 := if delStart <? i then [mkOp OpDelete delStart i j j] else [] in
  let insStart := j in
  let* j := changeRun yc (Z.to_nat (m - j)) m j in
  let ops3 := if insStart <? j then [mkOp OpInsert i i insStart j] else [] in
  Ok (ops1 ++ ops2 ++ ops3, i, j).

(** [for i < n || j < m { ... }].  A round that moves neither position
    repeats forever; [OutOfFuel] stands for that. *)
Fixpoint buildOpsLoop (xc yc : list bool) (cnt : nat) (n m i j : Z)
  : result (list DiffOp) :=
  if (i <? n) || (j <? m) then
    match cnt with
    | O => OutOfFuel
    | Datatypes.S c =>
        let* (ops, i', j') := buildOpsRound xc yc n m i j in
        let* rest := buildOpsLoop xc yc c n m i' j' in
        Ok (ops ++ rest)
    end
  else Ok [].

Definition buildOps (ctx : diffContext) : result (list DiffOp) :=
  let n := len (xvec ctx) in
  let m := len (yvec ctx) in
  buildOpsLoop (xchanges ctx) (ychanges ctx) (Z.to_nat (n + m + 1)) n m 0 0.

(* ===================================================================== *)
(** ** postprocess.go: merging                                            *)
(* ===================================================================== *)

Definition canMerge (current op : DiffOp) : bool :=
  OpType_eqb (Type_ current) (Type_ op)
  && (AEnd current =? AStart op)
  && (BEnd current =? BStart op).

(** [current.AEnd = op.AEnd; current.BEnd = op.BEnd] *)
Definition extendOp (current op : DiffOp) : DiffOp :=
  mkOp (Type_ current) (AStart current) (AEnd op) (BStart current) (BEnd op).

(** The loop of [mergeAdjacentOps], with [current] as its accumulator. *)
Fixpoint mergeFrom (current : DiffOp) (ops : list DiffOp) : list DiffOp :=
  match ops with
  | [] => [current]
  | op :: rest =>
      if canMerge current op then mergeFrom (extendOp current op) rest
      else current :: mergeFrom op rest
  end.

Definition mergeAdjacentOps (ops : list DiffOp) : list DiffOp :=
  match ops with
  | [] => []
  | current :: rest => mergeFrom current rest
  end.

(* ===================================================================== *)
(** ** filter.go                                                          *)
(* ===================================================================== *)

Record indexMapping : Type := mkMapping {
  aToOrig : list Z;
  bToOrig : list Z;
  origN : Z;
  origM : Z
}.

(** [mergeOps] of filter.go: the same loop as [mergeAdjacentOps]. *)
Fixpoint mergeOpsFrom (current : DiffOp) (ops : list DiffOp) : list DiffOp :=
  match ops with
  | [] => [current]
  | op :: rest =>
      if OpType_eqb (Type_ current) (Type_ op)
         && (AEnd current =? AStart op) && (BEnd current =? BStart op)
      then mergeOpsFrom (mkOp (Type_ current) (AStart current) (AEnd op)
                              (BStart current) (BEnd op)) rest
      else current :: mergeOpsFrom op rest
  end.

Definition mergeOps (ops : list DiffOp) : list DiffOp :=
  match ops with
  | [] => []
  | current :: rest => mergeOpsFrom current rest
  end.

(** The [Equal] branch of [mapOps]: [for i := op.AStart; i < op.AEnd; i++]. *)
Fixpoint mapEqualRun (mp : indexMapping) (cnt : nat) (op : DiffOp)
         (i aPos bPos : Z) : result (list DiffOp * Z * Z) :=
  match cnt with
  | O => Ok ([], aPos, bPos)
  | Datatypes.S c =>
      if i <? AEnd op then
        let j := BStart op + (i - AStart op) in
        let* origAIdx := idx (aToOrig mp) i in
        let* origBIdx := idx (bToOrig mp) j in
        let gapA := if aPos <? origAIdx
                    then [mkOp OpDelete aPos origAIdx bPos bPos] else [] in
        let aPos := if aPos <? origAIdx then origAIdx else aPos in
        let gapB := if bPos <? origBIdx
                    then [mkOp OpInsert aPos aPos bPos origBIdx] else [] in
        let eq := mkOp OpEqual origAIdx (origAIdx + 1) origBIdx (origBIdx + 1) in
        let* (rest, aPos', bPos') :=
          mapEqualRun mp c op (i + 1) (origAIdx + 1) (origBIdx + 1) in
        Ok (gapA ++ gapB ++ eq :: rest, aPos', bPos')
      else Ok ([], aPos, bPos)
  end.

(** The [Delete] branch: [for i := op.AStart; i < op.AEnd; i++]. *)
Fixpoint mapDeleteRun (mp : indexMapping) (cnt : nat) (op : DiffOp)
         (i aPos bPos : Z) : result (list DiffOp * Z * Z) :=
  match cnt with
  | O => Ok ([], aPos, bPos)
  | Datatypes.S c =>
      if i <? AEnd op then
        let* origAIdx := idx (aToOrig mp) i in
        let gapA := if aPos <? origAIdx
                    then [mkOp OpDelete aPos origAIdx bPos bPos] else [] in
        let del := mkOp OpDelete origAIdx (origAIdx + 1) bPos bPos in
        let* (rest, aPos', bPos') :=
          mapDeleteRun mp c op (i + 1) (origAIdx + 1) bPos in
        Ok (gapA ++ del :: rest, aPos', bPos')
      else Ok ([], aPos, bPos)
  end.

(** The [Insert] branch: [for i := op.BStart; i < op.BEnd; i++]. *)
Fixpoint mapInsertRun (mp : indexMapping) (cnt : nat) (op : DiffOp)
         (i aPos bPos : Z) : result (list DiffOp * Z * Z) :=
  match cnt with
  | O => Ok ([], aPos, bPos)
  | Datatypes.S c =>
      if i <? BEnd op then
        let* origBIdx := idx (bToOrig mp) i in
        let gapB := if bPos <? origBIdx
                    then [mkOp OpInsert aPos aPos bPos origBIdx] else [] in
        let ins := mkOp OpInsert aPos aPos origBIdx (origBIdx + 1) in
        let* (rest, aPos', bPos') :=
          mapInsertRun mp c op (i + 1) aPos (origBIdx + 1) in
        Ok (gapB ++ ins :: rest, aPos', bPos')
      else Ok ([], aPos, bPos)
  end.

(** [for _, op := range ops { ... }] of [mapOps]. *)
Fixpoint mapOpsLoop (mp : indexMapping) (ops : list DiffOp) (aPos bPos : Z)
  : result (list DiffOp * Z * Z) :=
  match ops with
  | [] => Ok ([], aPos, bPos)
  | op :: rest =>
      let* (out, aPos', bPos') :=
        match Type_ op with
        | OpEqual =>
            mapEqualRun mp (Z.to_nat (AEnd op - AStart op)) op (AStart op) aPos bPos
        | OpDelete =>
            mapDeleteRun mp (Z.to_nat (AEnd op - AStart op)) op (AStart op) aPos bPos
        | OpInsert =>
            mapInsertRun mp (Z.to_nat (BEnd op - BStart op)) op (BStart op) aPos bPos
        end in
      let* (out', aPos'', bPos'') := mapOpsLoop mp rest aPos' bPos' in
      Ok (out ++ out', aPos'', bPos'')
  end.

(** [mapOps] on a non-nil mapping: element-by-element expansion. *)
Definition mapOps (mp : indexMapping) (ops : list DiffOp) : result (list DiffOp) :=
  let* (out, aPos, bPos) := mapOpsLoop mp ops 0 0 in
  let tailA := if aPos <? origN mp
               then [mkOp OpDelete aPos (origN mp) bPos bPos] else [] in
  let tailB := if bPos <? origM mp
               then [mkOp OpInsert (origN mp) (origN mp) bPos (origM mp)] else [] in
  Ok (mergeOps (out ++ tailA ++ tailB)).

(** The second [mapOps] found in the sources (the file named filter.go):
    it maps the end points of every op and fills no gaps. *)
Definition mapStart (toOrig : list Z) (start : Z) : result Z :=
  if start <? len toOrig then idx toOrig start
  else if 0 <? len toOrig then
         let* l := idx toOrig (len toOrig - 1) in Ok (l + 1)
       else Ok 0.

Definition mapEnd (toOrig : list Z) (orig end_ mappedStart : Z) : result Z :=
  if (0 <? end_) && (end_ <=? len toOrig) then
    let* l := idx toOrig (end_ - 1) in Ok (l + 1)
  else if end_ =? 0 then Ok mappedStart
  else if 0 <? len toOrig then
         let* l := idx toOrig (len toOrig - 1) in Ok (l + 1)
       else Ok orig.

Fixpoint mapOpsRange (mp : indexMapping) (ops : list DiffOp) : result (list DiffOp) :=
  match ops with
  | [] => Ok []
  | op :: rest =>
      let* mas := mapStart (aToOrig mp) (AStart op) in
      let* mae := mapEnd (aToOrig mp) (origN mp) (AEnd op) mas in
      let* mbs := mapStart (bToOrig mp) (BStart op) in
      let* mbe := mapEnd (bToOrig mp) (origM mp) (BEnd op) mbs in
      let* rest' := mapOpsRange mp rest in
      Ok (mkOp (Type_ op) mas mae mbs mbe :: rest')
  end.

Inductive elementClass : Type := keep | discard | provisional.

Definition isKeep (c : elementClass) : bool :=
  match c with keep => true | _ => false end.

(** [freq[e.Hash()]++] over a slice. *)
Definition countHashes (elems : list Element) : gmap Z Z :=
  fold_left (fun (freq : gmap Z Z) e =>
               <[Hash e := default 0 (freq !! Hash e) + 1]> freq)
            elems (∅ : gmap Z Z).

(** Reading a Go map yields the zero value for an absent key. *)
Definition freqOf (freq : gmap Z Z) (h : Z) : Z := default 0 (freq !! h).

Definition classify (own other : gmap Z Z) (threshold : Z) (e : Element)
  : elementClass :=
  let h := Hash e in
  let inOther := 0 <? freqOf other h in
  (* both classification loops add the A count and the B count *)
  let freq := freqOf own h + freqOf other h in
  if negb inOther then discard
  else if threshold <? freq then provisional
  else keep.

(** [for i, class := range classes { ... }] of [filterSequence], from
    position [i] on. *)
Fixpoint filterSequenceFrom (elems : list Element) (classes rest : list elementClass)
         (i : Z) : result (list Element * list Z) :=
  match rest with
  | [] => Ok ([], [])
  | class :: rest' =>
      let* emit :=
        match class with
        | keep => Ok true
        | provisional =>
            let atStart := i =? 0 in
            let atEnd := i =? len classes - 1 in
            let* prevKeep :=
              if negb atStart
              then let* c := idx classes (i - 1) in Ok (isKeep c)
              else Ok false in
            let* nextKeep :=
              if negb atEnd
              then let* c := idx classes (i + 1) in Ok (isKeep c)
              else Ok false in
            Ok (prevKeep || nextKeep)
        | discard => Ok false
        end in
      let* here := if emit then let* e := idx elems i in Ok ([e], [i])
                   else Ok ([], []) in
      let* (r, t) := filterSequenceFrom elems classes rest' (i + 1) in
      Ok (fst here ++ r, snd here ++ t)
  end.

Definition filterSequence (elems : list Element) (classes : list elementClass)
  : result (list Element * list Z) :=
  filterSequenceFrom elems classes classes 0.

Definition countKeep (classes : list elementClass) : Z :=
  len (List.filter isKeep classes).

(** A nil mapping is [None]. *)
Definition filterConfusingElements (a b : list Element)
  : result (list Element * list Element * option indexMapping) :=
  if (len a =? 0) || (len b =? 0) then Ok (a, b, None)
  else
    let aFreq := countHashes a in
    let bFreq := countHashes b in
    let threshold := 5 + Z.quot (len a + len b) 64 in
    let threshold := if threshold <? 8 then 8 else threshold in
    let aClass := List.map (classify aFreq bFreq threshold) a in
    let bClass := List.map (classify bFreq aFreq threshold) b in
    let keepCount := countKeep aClass + countKeep bClass in
    if Z.quot ((len a + len b) * 3) 4 <? keepCount then Ok (a, b, None)
    else
      let* (filteredA, aTo) := filterSequence a aClass in
      let* (filteredB, bTo) := filterSequence b bClass in
      if (len filteredA =? 0) && (len filteredB =? 0) then Ok (a, b, None)
      else Ok (filteredA, filteredB, Some (mkMapping aTo bTo (len a) (len b))).

(* ===================================================================== *)
(** ** postprocess.go: boundary shifting                                  *)
(* ===================================================================== *)

Definition blankLineBonus : Z := 10.
Definition startOfLineBonus : Z := 3.
Definition endOfLineBonus : Z := 3.
Definition punctuationBonus : Z := 2.

(** The bytes of a Go string. *)
Definition bytesOf (s : string) : list nat :=
  List.map nat_of_ascii (list_ascii_of_string s).

(** UTF-8 encodings of the code points for which [unicode.IsSpace] holds:
    the six ASCII ones, U+0085, U+00A0, U+1680, U+2000..U+200A, U+2028,
    U+2029, U+202F, U+205F and U+3000. *)
Definition spaceEncodings : list (list nat) :=
  [ [9]; [10]; [11]; [12]; [13]; [32];
    [194; 133]; [194; 160];
    [225; 154; 128];
    [226; 128; 128]; [226; 128; 129]; [226; 128; 130]; [226; 128; 131];
    [226; 128; 132]; [226; 128; 133]; [226; 128; 134]; [226; 128; 135];
    [226; 128; 136]; [226; 128; 137]; [226; 128; 138];
    [226; 128; 168]; [226; 128; 169]; [226; 128; 175];
    [226; 129; 159];
    [227; 128; 128] ]%nat.

Fixpoint stripPrefix (p l : list nat) : option (list nat) :=
  match p, l with
  | [], _ => Some l
  | x :: p', y :: l' => if Nat.eqb x y then stripPrefix p' l' else None
  | _ :: _, [] => None
  end.

(** The rest of [l] after one leading white-space rune, if it has one. *)
Fixpoint dropSpace (encs : list (list nat)) (l : list nat) : option (list nat) :=
  match encs with
  | [] => None
  | p :: encs' =>
      match stripPrefix p l with
      | Some l' => Some l'
      | None => dropSpace encs' l
      end
  end.

Fixpoint trimLeft (encs : list (list nat)) (cnt : nat) (l : list nat) : list nat :=
  match cnt with
  | O => l
  | Datatypes.S c =>
      match dropSpace encs l with
      | Some l' => trimLeft encs c l'
      | None => l
      end
  end.

(** [strings.TrimSpace]: white-space runes are removed at both ends; the
    right end is handled on the reversed bytes. *)
Definition trimSpace (l : list nat) : list nat :=
  let l1 := trimLeft spaceEncodings (List.length l) l in
  let r := List.rev l1 in
  List.rev (trimLeft (List.map (@List.rev nat) spaceEncodings) (List.length r) r).

Definition isBlank (e : Element) : bool :=
  match e with
  | StringElement s =>
      match trimSpace (bytesOf s) with [] => true | _ => false end
  | _ => false
  end.

Definition endsWithPunctuation (e : Element) : bool :=
  match e with
  | StringElement s =>
      match List.rev (trimSpace (bytesOf s)) with
      | [] => false
      | last :: _ =>
          (* '.', '!', '?', ':', ';' *)
          Nat.eqb last 46 || Nat.eqb last 33 || Nat.eqb last 63
          || Nat.eqb last 58 || Nat.eqb last 59
      end
  | _ => false
  end.

Definition startsWithPunctuation (e : Element) : bool :=
  match e with
  | StringElement s =>
      match trimSpace (bytesOf s) with
      | [] => false
      | first :: _ =>
          (* '-', '*', '#', '>' *)
          Nat.eqb first 45 || Nat.eqb first 42 || Nat.eqb first 35
          || Nat.eqb first 62
      end
  | _ => false
  end.

(** [if cond && pred(elems[i]) { score += bonus }] *)
Definition bonusIf (cond : bool) (pred : Element -> bool) (elems : list Element)
           (i bonus : Z) : result Z :=
  if cond then
    let* e := idx elems i in Ok (if pred e then bonus else 0)
  else Ok 0.

Definition scoreBoundary (start end_ : Z) (elems : list Element) : result Z :=
  let* s1 := bonusIf (0 <? start) isBlank elems (start - 1) blankLineBonus in
  let* s2 := bonusIf (end_ <? len elems) isBlank elems end_ blankLineBonus in
  let s3 := if start =? 0 then startOfLineBonus else 0 in
  let s4 := if end_ =? len elems then endOfLineBonus else 0 in
  let* s5 := bonusIf (0 <? start) endsWithPunctuation elems (start - 1)
                     punctuationBonus in
  let* s6 := bonusIf (end_ <? len elems) startsWithPunctuation elems end_
                     punctuationBonus in
  Ok (s1 + s2 + s3 + s4 + s5 + s6).

(** [for i := 0; end+i < len(elems); i++ {
       if !elems[start+i].Equal(elems[end+i]) { break }
       maxShiftForward = i + 1 }] *)
Fixpoint shiftForwardLoop (elems : list Element) (start end_ : Z)
         (cnt : nat) (i maxShift : Z) : result Z :=
  match cnt with
  | O => Ok maxShift
  | Datatypes.S c =>
      if end_ + i <? len elems then
        let* x := idx elems (start + i) in
        let* y := idx elems (end_ + i) in
        if negb (Equal x y) then Ok maxShift
        else shiftForwardLoop elems start end_ c (i + 1) (i + 1)
      else Ok maxShift
  end.

(** [for i := 0; start-i-1 >= 0; i++ {
       if !elems[end-i-1].Equal(elems[start-i-1]) { break }
       maxShiftBackward = i + 1 }] *)
Fixpoint shiftBackwardLoop (elems : list Element) (start end_ : Z)
         (cnt : nat) (i maxShift : Z) : result Z :=
  match cnt with
  | O => Ok maxShift
  | Datatypes.S c =>
      if 0 <=? start - i - 1 then
        let* x := idx elems (end_ - i - 1) in
        let* y := idx elems (start - i - 1) in
        if negb (Equal x y) then Ok maxShift
        else shiftBackwardLoop elems start end_ c (i + 1) (i + 1)
      else Ok maxShift
  end.

(** [for shift := 1; shift <= max; shift++ {
       score := scoreBoundary(start + dir*shift, end + dir*shift, elems)
       if score > bestScore { bestScore = score; bestShift = dir*shift } }]
    with [dir] = 1 for the forward loop and -1 for the backward one. *)
Fixpoint tryShifts (elems : list Element) (start end_ dir : Z)
         (cnt : nat) (shift maxShift bestShift bestScore : Z) : result (Z * Z) :=
  match cnt with
  | O => Ok (bestShift, bestScore)
  | Datatypes.S c =>
      if shift <=? maxShift then
        let* score := scoreBoundary (start + dir * shift) (end_ + dir * shift) elems in
        if bestScore <? score
        then tryShifts elems start end_ dir c (shift + 1) maxShift (dir * shift) score
        else tryShifts elems start end_ dir c (shift + 1) maxShift bestShift bestScore
      else Ok (bestShift, bestScore)
  end.

Definition shiftDelete (op : DiffOp) (a b : list Element) : result DiffOp :=
  if AEnd op - AStart op =? 0 then Ok op
  else
    let* maxShiftForward :=
      shiftForwardLoop a (AStart op) (AEnd op) (Z.to_nat (len a - AEnd op)) 0 0 in
    let* maxShiftBackward :=
      shiftBackwardLoop a (AStart op) (AEnd op) (Z.to_nat (AStart op)) 0 0 in
    if (maxShiftForward =? 0) && (maxShiftBackward =? 0) then Ok op
    else
      let* bestScore := scoreBoundary (AStart op) (AEnd op) a in
      let* (bestShift, bestScore) :=
        tryShifts a (AStart op) (AEnd op) 1 (Z.to_nat maxShiftForward)
                  1 maxShiftForward 0 bestScore in
      let* (bestShift, bestScore) :=
        tryShifts a (AStart op) (AEnd op) (-1) (Z.to_nat maxShiftBackward)
                  1 maxShiftBackward bestShift bestScore in
      if bestShift =? 0 then Ok op
      else Ok (mkOp OpDelete (AStart op + bestShift) (AEnd op + bestShift)
                    (BStart op) (BEnd op)).

Definition shiftInsert (op : DiffOp) (a b : list Element) : result DiffOp :=
  if BEnd op - BStart op =? 0 then Ok op
  else
    let* maxShiftForward :=
      shiftForwardLoop b (BStart op) (BEnd op) (Z.to_nat (len b - BEnd op)) 0 0 in
    let* maxShiftBackward :=
      shiftBackwardLoop b (BStart op) (BEnd op) (Z.to_nat (BStart op)) 0 0 in
    if (maxShiftForward =? 0) && (maxShiftBackward =? 0) then Ok op
    else
      let* bestScore := scoreBoundary (BStart op) (BEnd op) b in
      let* (bestShift, bestScore) :=
        tryShifts b (BStart op) (BEnd op) 1 (Z.to_nat maxShiftForward)
                  1 maxShiftForward 0 bestScore in
      let* (bestShift, bestScore) :=
        tryShifts b (BStart op) (BEnd op) (-1) (Z.to_nat maxShiftBackward)
                  1 maxShiftBackward bestShift bestScore in
      if bestShift =? 0 then Ok op
      else Ok (mkOp OpInsert (AStart op) (AEnd op)
                    (BStart op + bestShift) (BEnd op + bestShift)).

Definition shiftOp (op : DiffOp) (a b : list Element) : result DiffOp :=
  match Type_ op with
  | OpDelete => shiftDelete op a b
  | OpInsert => shiftInsert op a b
  | OpEqual => Ok op
  end.

(** Both boundary tweaks return their arguments on every path. *)
Definition tryShiftEqualBoundary (eq change : DiffOp) (a b : list Element)
  : DiffOp * DiffOp :=
  if AEnd eq - AStart eq =? 0 then (eq, change)
  else
    let lastEqA := AEnd eq - 1 in
    if (lastEqA <? 0) || (len a <=? lastEqA) then (eq, change)
    else (eq, change).

Definition tryShiftChangeBoundary (change eq : DiffOp) (a b : list Element)
  : DiffOp * DiffOp :=
  if AEnd eq - AStart eq =? 0 then (change, eq) else (change, eq).

Definition isChange (t : OpType) : bool :=
  match t with OpDelete | OpInsert => true | OpEqual => false end.

(** [for i := 0; i < len(result)-1; i++ { ... }] of [optimizeBoundaries]. *)
Fixpoint optimizeLoop (a b : list Element) (cnt : nat) (i : Z)
         (res : list DiffOp) : result (list DiffOp) :=
  match cnt with
  | O => Ok res
  | Datatypes.S c =>
      if i <? len res - 1 then
        let* curr := idx res i in
        let* next := idx res (i + 1) in
        let* res1 :=
          if OpType_eqb (Type_ curr) OpEqual && isChange (Type_ next) then
            let '(p, q) := tryShiftEqualBoundary curr next a b in
            let* r := upd res i p in upd r (i + 1) q
          else Ok res in
        let* res2 :=
          if isChange (Type_ curr) && OpType_eqb (Type_ next) OpEqual then
            let '(p, q) := tryShiftChangeBoundary curr next a b in
            let* r := upd res1 i p in upd r (i + 1) q
          else Ok res1 in
        optimizeLoop a b c (i + 1) res2
      else Ok res
  end.

Definition optimizeBoundaries (ops : list DiffOp) (a b : list Element)
  : result (list DiffOp) :=
  if len ops <? 2 then Ok ops
  else optimizeLoop a b (List.length ops) 0 ops.

(** First pass of [shiftBoundaries]. *)
Fixpoint shiftEach (ops : list DiffOp) (a b : list Element) : result (list DiffOp) :=
  match ops with
  | [] => Ok []
  | op :: rest =>
      let* shifted :=
        match Type_ op with
        | OpEqual => Ok op
        | _ => shiftOp op a b
        end in
      let* rest' := shiftEach rest a b in
      Ok (shifted :: rest')
  end.

Definition shiftBoundaries (ops : list DiffOp) (a b : list Element)
  : result (list DiffOp) :=
  if len ops =? 0 then Ok ops
  else
    let* res := shiftEach ops a b in
    let res := mergeAdjacentOps res in
    optimizeBoundaries res a b.

(* ===================================================================== *)
(** ** diffx.go: the Myers driver                                         *)
(* ===================================================================== *)

(** [DiffElements], with the index remapping as a parameter: the sources
    hold two versions of [mapOps].  After preprocessing the names [a] and
    [b] denote the filtered slices, and these are what the postprocessing
    step receives. *)
Definition DiffElementsWith
           (mapper : indexMapping -> list DiffOp -> result (list DiffOp))
           (fuel : nat) (a b : list Element) (opts : list Option_)
  : result (list DiffOp) :=
  let o := applyOptions opts in
  if (len a =? 0) && (len b =? 0) then Ok []
  else if len a =? 0 then Ok [mkOp OpInsert 0 0 0 (len b)]
  else if len b =? 0 then Ok [mkOp OpDelete 0 (len a) 0 0]
  else
    let ctx := newDiffContext a b o in
    let* (a, b, mapping, ctx) :=
      if preprocessing o then
        let* (a', b', mapping) := filterConfusingElements a b in
        Ok (a', b', mapping,
            if (0 <? len a') || (0 <? len b') then newDiffContext a' b' o else ctx)
      else Ok (a, b, None, ctx) in
    let* ctx :=
      if (0 <? len a) || (0 <? len b)
      then compareSeq fuel ctx 0 (len a) 0 (len b) (forceMinimal o)
      else Ok ctx in
    let* ops := buildOps ctx in
    let* ops := match mapping with
                | Some mp => mapper mp ops
                | None => Ok ops
                end in
    if postprocessing o then shiftBoundaries ops a b else Ok ops.

(** The driver with the element-by-element [mapOps], the one the package's
    tests exercise. *)
Definition DiffElements := DiffElementsWith mapOps.

Definition Diff (fuel : nat) (a b : list string) (opts : list Option_)
  : result (list DiffOp) :=
  DiffElements fuel (toElements a) (toElements b) opts.

(** The driver with the range-based [mapOps] of the file named filter.go. *)
Definition DiffElementsRange := DiffElementsWith mapOpsRange.

(* ===================================================================== *)
(** ** anchor.go                                                          *)
(* ===================================================================== *)

Definition eliminateWeakAnchors (ops : list DiffOp) (a b : list Element)
  : list DiffOp :=
  if len ops <? 2 then ops else mergeAdjacentOps ops.

(* ===================================================================== *)
(** ** histogram.go                                                       *)
(* ===================================================================== *)

Record histogramOptions : Type := mkHistOptions {
  maxChainLength : Z;
  fallbackToMyers : bool;
  filterStopwords : bool
}.

Definition defaultHistogramOptions : histogramOptions :=
  {| maxChainLength := 64; fallbackToMyers := true; filterStopwords := true |}.

Definition stopwords : list string :=
  [ "a"; "an"; "the";
    "in"; "on"; "to"; "for"; "of"; "with";
    "and"; "or";
    "is"; "are"; "be" ]%string.

Definition isStopword (e : Element) : bool :=
  match e with
  | StringElement s => existsb (String.eqb s) stopwords
  | _ => false
  end.

(** [aIndices[h] = append(aIndices[h], i)] over [a], from position [i]. *)
Fixpoint indexHashes (elems : list Element) (i : Z) (acc : gmap Z (list Z))
  : gmap Z (list Z) :=
  match elems with
  | [] => acc
  | e :: rest =>
      indexHashes rest (i + 1)
                  (<[Hash e := default [] (acc !! Hash e) ++ [i]]> acc)
  end.

Definition fabs (x : float) : float :=
  if PrimFloat.ltb x 0%float then PrimFloat.opp x else x.

(** [for _, aIdx := range aIndices[h] { ... }] of the anchor search: the
    smallest position imbalance among the occurrences equal to [e]. *)
Fixpoint bestImbalance (a : list Element) (e : Element) (bRatio : float)
         (cands : list Z) (best : float) : result float :=
  match cands with
  | [] => Ok best
  | aIdx :: rest =>
      let* x := idx a aIdx in
      if negb (Equal x e) then bestImbalance a e bRatio rest best
      else
        let aRatio := PrimFloat.div (float64_of_int aIdx) (float64_of_int (len a)) in
        let imbalance := fabs (PrimFloat.sub aRatio bRatio) in
        if PrimFloat.ltb imbalance best
        then bestImbalance a e bRatio rest imbalance
        else bestImbalance a e bRatio rest best
  end.

(** The anchor search: [for i, e := range b { ... }], from position [i]. *)
Fixpoint findAnchor (opts : histogramOptions) (a b : list Element)
         (aFreq : gmap Z Z) (aIndices : gmap Z (list Z))
         (rest : list Element) (i : Z)
         (bestIdx : Z) (bestScore : float) (bestHash : Z)
  : result (Z * float * Z) :=
  match rest with
  | [] => Ok (bestIdx, bestScore, bestHash)
  | e :: rest' =>
      let skip := findAnchor opts a b aFreq aIndices rest' (i + 1)
                             bestIdx bestScore bestHash in
      if filterStopwords opts && isStopword e then skip
      else
        let h := Hash e in
        let freq := freqOf aFreq h in
        if (freq <=? 0) || (maxChainLength opts <? freq) then skip
        else
          let bRatio := PrimFloat.div (float64_of_int i) (float64_of_int (len b)) in
          let* bestPosImbalance :=
            bestImbalance a e bRatio (default [] (aIndices !! h)) 2%float in
          if PrimFloat.ltb 1.5%float bestPosImbalance then skip
          else
            let score :=
              PrimFloat.mul (float64_of_int freq)
                (PrimFloat.add 1%float (PrimFloat.mul bestPosImbalance 2%float)) in
            if PrimFloat.ltb score bestScore
            then findAnchor opts a b aFreq aIndices rest' (i + 1) i score h
            else skip
  end.

(** Choice of the occurrence in A: [for _, idx := range aIndices[bestHash]]. *)
Fixpoint findMatch (a : list Element) (e : Element) (bRatio : float)
         (cands : list Z) (aMatchIdx : Z) (bestRatioDiff : float) : result Z :=
  match cands with
  | [] => Ok aMatchIdx
  | i :: rest =>
      let* x := idx a i in
      if negb (Equal x e) then findMatch a e bRatio rest aMatchIdx bestRatioDiff
      else
        let aRatio := PrimFloat.div (float64_of_int i) (float64_of_int (len a)) in
        let ratioDiff := fabs (PrimFloat.sub aRatio bRatio) in
        if PrimFloat.ltb ratioDiff bestRatioDiff
        then findMatch a e bRatio rest i ratioDiff
        else findMatch a e bRatio rest aMatchIdx bestRatioDiff
  end.

(** [for s > 0 && t > 0 && a[s-1].Equal(b[t-1]) { s--; t-- }] *)
Fixpoint extendBackward (a b : list Element) (cnt : nat) (s t : Z) : result (Z * Z) :=
  match cnt with
  | O => Ok (s, t)
  | Datatypes.S c =>
      if (0 <? s) && (0 <? t) then
        let* x := idx a (s - 1) in
        let* y := idx b (t - 1) in
        if Equal x y then extendBackward a b c (s - 1) (t - 1) else Ok (s, t)
      else Ok (s, t)
  end.

(** [for s < len(a) && t < len(b) && a[s].Equal(b[t]) { s++; t++ }] *)
Fixpoint extendForward (a b : list Element) (cnt : nat) (s t : Z) : result (Z * Z) :=
  match cnt with
  | O => Ok (s, t)
  | Datatypes.S c =>
      if (s <? len a) && (t <? len b) then
        let* x := idx a s in
        let* y := idx b t in
        if Equal x y then extendForward a b c (s + 1) (t + 1) else Ok (s, t)
      else Ok (s, t)
  end.

Definition offsetOp (aOffset bOffset : Z) (op : DiffOp) : DiffOp :=
  mkOp (Type_ op) (AStart op + aOffset) (AEnd op + aOffset)
       (BStart op + bOffset) (BEnd op + bOffset).

(** The fallback builds its own default options; it takes nothing from
    the caller. *)
Definition myersFallback (fuel : nat) (a b : list Element) (aOffset bOffset : Z)
  : result (list DiffOp) :=
  let o := mkOptions (useHeuristic defaultOptions) (forceMinimal defaultOptions)
                     (costLimit defaultOptions) false false false in
  let ctx := newDiffContext a b o in
  let* ctx := compareSeq fuel ctx 0 (len a) 0 (len b) false in
  let* ops := buildOps ctx in
  Ok (List.map (offsetOp aOffset bOffset) ops).

Definition deleteThenInsert (a b : list Element) (aOffset bOffset : Z) : list DiffOp :=
  [ mkOp OpDelete aOffset (aOffset + len a) bOffset bOffset;
    mkOp OpInsert (aOffset + len a) (aOffset + len a) bOffset (bOffset + len b) ].

Fixpoint histogramDiffRecursive (fuel : nat) (a b : list Element)
         (aOffset bOffset : Z) (opts : histogramOptions) : result (list DiffOp) :=
  match fuel with
  | O => OutOfFuel
  | Datatypes.S f =>
      if (len a =? 0) && (len b =? 0) then Ok []
      else if len a =? 0
      then Ok [mkOp OpInsert aOffset aOffset bOffset (bOffset + len b)]
      else if len b =? 0
      then Ok [mkOp OpDelete aOffset (aOffset + len a) bOffset bOffset]
      else
        let aFreq := countHashes a in
        let aIndices := indexHashes a 0 (∅ : gmap Z (list Z)) in
        let* (bestIdx, bestScore, bestHash) :=
          findAnchor opts a b aFreq aIndices b 0 (-1)
            (PrimFloat.mul (float64_of_int (maxChainLength opts + 1)) 3%float) 0 in
        let fallback :=
          if fallbackToMyers opts then myersFallback f a b aOffset bOffset
          else Ok (deleteThenInsert a b aOffset bOffset) in
        if bestIdx =? -1 then fallback
        else
          let bRatio := PrimFloat.div (float64_of_int bestIdx)
                                      (float64_of_int (len b)) in
          let* e := idx b bestIdx in
          let* aMatchIdx :=
            findMatch a e bRatio (default [] (aIndices !! bestHash)) (-1) 2%float in
          if aMatchIdx =? -1 then fallback
          else
            let* (matchStartA, matchStartB) :=
              extendBackward a b (Z.to_nat aMatchIdx) aMatchIdx bestIdx in
            let* (matchEndA, matchEndB) :=
              extendForward a b (Z.to_nat (len a - (aMatchIdx + 1)))
                            (aMatchIdx + 1) (bestIdx + 1) in
            let* beforeOps :=
              if (0 <? matchStartA) || (0 <? matchStartB) then
                let* a1 := slice a 0 matchStartA in
                let* b1 := slice b 0 matchStartB in
                histogramDiffRecursive f a1 b1 aOffset bOffset opts
              else Ok [] in
            let eq := mkOp OpEqual (aOffset + matchStartA) (aOffset + matchEndA)
                           (bOffset + matchStartB) (bOffset + matchEndB) in
            let* afterOps :=
              if (matchEndA <? len a) || (matchEndB <? len b) then
                let* a2 := slice a matchEndA (len a) in
                let* b2 := slice b matchEndB (len b) in
                histogramDiffRecursive f a2 b2 (aOffset + matchEndA)
                                       (bOffset + matchEndB) opts
              else Ok [] in
            Ok (beforeOps ++ eq :: afterOps)
  end.

(** Common prefix of [histogramDiff]. *)
Fixpoint prefixLoop (a b : list Element) (cnt : nat) (p : Z) : result Z :=
  match cnt with
  | O => Ok p
  | Datatypes.S c =>
      if (p <? len a) && (p <? len b) then
        let* x := idx a p in
        let* y := idx b p in
        if Equal x y then prefixLoop a b c (p + 1) else Ok p
      else Ok p
  end.

(** Common suffix of [histogramDiff], after a prefix of length [p]. *)
Fixpoint suffixLoop (a b : list Element) (cnt : nat) (p s : Z) : result Z :=
  match cnt with
  | O => Ok s
  | Datatypes.S c =>
      if (s <? len a - p) && (s <? len b - p) then
        let* x := idx a (len a - 1 - s) in
        let* y := idx b (len b - 1 - s) in
        if Equal x y then suffixLoop a b c p (s + 1) else Ok s
      else Ok s
  end.

(** A nil [opts] is [None]. *)
Definition histogramDiff (fuel : nat) (a b : list Element)
           (opts : option histogramOptions) : result (list DiffOp) :=
  let opts := match opts with
              | Some o => o
              | None => defaultHistogramOptions
              end in
  if (len a =? 0) && (len b =? 0) then Ok []
  else if len a =? 0 then Ok [mkOp OpInsert 0 0 0 (len b)]
  else if len b =? 0 then Ok [mkOp OpDelete 0 (len a) 0 0]
  else
    let* prefixLen := prefixLoop a b (List.length a) 0 in
    let* suffixLen := suffixLoop a b (List.length a) prefixLen 0 in
    if (len a <=? prefixLen + suffixLen) && (len b <=? prefixLen + suffixLen)
    then Ok [mkOp OpEqual 0 (len a) 0 (len b)]
    else
      let aStart := prefixLen in
      let aEnd := len a - suffixLen in
      let bStart := prefixLen in
      let bEnd := len b - suffixLen in
      let pre := if 0 <? prefixLen
                 then [mkOp OpEqual 0 prefixLen 0 prefixLen] else [] in
      let* a' := slice a aStart aEnd in
      let* b' := slice b bStart bEnd in
      let* middleOps := histogramDiffRecursive fuel a' b' aStart bStart opts in
      let suf := if 0 <? suffixLen
                 then [mkOp OpEqual (len a - suffixLen) (len a)
                            (len b - suffixLen) (len b)] else [] in
      Ok (mergeAdjacentOps (pre ++ middleOps ++ suf)).

Definition DiffElementsHistogram (fuel : nat) (a b : list Element)
           (opts : list Option_) : result (list DiffOp) :=
  let o := applyOptions opts in
  let origA := a in
  let origB := b in
  let histOpts := defaultHistogramOptions in
  let* ops := histogramDiff fuel a b (Some histOpts) in
  let ops := if anchorElimination o
             then eliminateWeakAnchors ops origA origB else ops in
  if postprocessing o then shiftBoundaries ops origA origB else Ok ops.

Definition DiffHistogram (fuel : nat) (a b : list string) (opts : list Option_)
  : result (list DiffOp) :=
  DiffElementsHistogram fuel (toElements a) (toElements b) opts.

(* ===================================================================== *)
(** ** myers.go: isqrt on 64-bit integers                                *)
(* ===================================================================== *)

(** Go's [int] on a 64-bit platform: the value an arithmetic result wraps to. *)
Definition wrap64 (z : Z) : Z := (z + 2 ^ 63) mod 2 ^ 64 - 2 ^ 63.

(** The loop of [isqrt] with the wrap-around of its additions written out. *)
Fixpoint isqrtLoop64 (cnt : nat) (n x y : Z) : Z :=
  match cnt with
  | O => x
  | Datatypes.S c =>
      if y <? x
      then isqrtLoop64 c n y (Z.quot (wrap64 (y + Z.quot n y)) 2)
      else x
  end.

Definition isqrt64 (n : Z) : Z :=
  if n <=? 0 then 0
  else if n =? 1 then 1
  else isqrtLoop64 (Z.to_nat n) n n (Z.quot (wrap64 (n + 1)) 2).

(* ===================================================================== *)
(** ** anchor.go: the helpers of its second variant                      *)
(* ===================================================================== *)


Record anchorOptions : Type := mkAnchorOptions {
  maxWeakAnchorLen : Z;
  frequencyThreshold : Z;
  contextWindow : Z
}.

Definition defaultAnchorOptions : anchorOptions :=
  {| maxWeakAnchorLen := 3; frequencyThreshold := 5; contextWindow := 2 |}.

(** [for i := op.AStart; i < op.AEnd; i++ {
       if i >= len(a) { continue }
       if freq[a[i].Hash()] < opts.frequencyThreshold { return false } }
     return true] *)
Fixpoint isWeakLoop (a : list Element) (freq : gmap Z Z) (threshold : Z)
         (cnt : nat) (i hi : Z) : result bool :=
  match cnt with
  | O => Ok true
  | Datatypes.S c =>
      if i <? hi then
        if len a <=? i then isWeakLoop a freq threshold c (i + 1) hi
        else
          let* e := idx a i in
          if freqOf freq (Hash e) <? threshold then Ok false
          else isWeakLoop a freq threshold c (i + 1) hi
      else Ok true
  end.

Definition isWeakAnchor (op : DiffOp) (a b : list Element) (freq : gmap Z Z)
           (opts : anchorOptions) : result bool :=
  isWeakLoop a freq (frequencyThreshold opts) (Z.to_nat (AEnd op - AStart op))
             (AStart op) (AEnd op).

(** [for i := 1; i <= window; i++ { ... matchesBefore++ ... }] *)
Fixpoint matchesBeforeLoop (a b : list Element) (aPos bPos : Z)
         (cnt : nat) (i window matches : Z) : result Z :=
  match cnt with
  | O => Ok matches
  | Datatypes.S c =>
      if i <=? window then
        let aIdx := aPos - i in
        let bIdx := bPos - i in
        let* matches' :=
          if (0 <=? aIdx) && (0 <=? bIdx) && (aIdx <? len a) && (bIdx <? len b)
          then
            let* x := idx a aIdx in
            let* y := idx b bIdx in
            Ok (if Equal x y then matches + 1 else matches)
          else Ok matches in
        matchesBeforeLoop a b aPos bPos c (i + 1) window matches'
      else Ok matches
  end.

(** [for i := 0; i < window; i++ { ... matchesAfter++ ... }] *)
Fixpoint matchesAfterLoop (a b : list Element) (aEndPos bEndPos : Z)
         (cnt : nat) (i window matches : Z) : result Z :=
  match cnt with
  | O => Ok matches
  | Datatypes.S c =>
      if i <? window then
        let aIdx := aEndPos + i in
        let bIdx := bEndPos + i in
        let* matches' :=
          if (aIdx <? len a) && (bIdx <? len b)
          then
            let* x := idx a aIdx in
            let* y := idx b bIdx in
            Ok (if Equal x y then matches + 1 else matches)
          else Ok matches in
        matchesAfterLoop a b aEndPos bEndPos c (i + 1) window matches'
      else Ok matches
  end.

Definition hasMatchingContext (op : DiffOp) (ops : list DiffOp) (idx_ : Z)
           (a b : list Element) (window : Z) : result bool :=
  let* matchesBefore :=
    matchesBeforeLoop a b (AStart op) (BStart op) (Z.to_nat window) 1 window 0 in
  let* matchesAfter :=
    matchesAfterLoop a b (AEnd op) (BEnd op) (Z.to_nat window) 0 window 0 in
  Ok ((0 <? matchesBefore) && (0 <? matchesAfter)).


(** [for j := op.AStart; j < op.AEnd; j++ {
       if j < len(a) && isStopword(a[j]) { trimStart++ } else { break } }] *)
Fixpoint trimStartLoop (a : list Element) (cnt : nat) (j hi trimStart : Z) : result Z :=
  match cnt with
  | O => Ok trimStart
  | Datatypes.S c =>
      if j <? hi then
        if j <? len a then
          let* e := idx a j in
          if isStopword e then trimStartLoop a c (j + 1) hi (trimStart + 1)
          else Ok trimStart
        else Ok trimStart
      else Ok trimStart
  end.

(** [for j := op.AEnd - 1; j >= op.AStart+trimStart; j-- {
       if j < len(a) && isStopword(a[j]) { trimEnd++ } else { break } }] *)
Fixpoint trimEndLoop (a : list Element) (cnt : nat) (j lo trimEnd : Z) : result Z :=
  match cnt with
  | O => Ok trimEnd
  | Datatypes.S c =>
      if lo <=? j then
        if j <? len a then
          let* e := idx a j in
          if isStopword e then trimEndLoop a c (j - 1) lo (trimEnd + 1)
          else Ok trimEnd
        else Ok trimEnd
      else Ok trimEnd
  end.

Definition isChangeOp (o : option DiffOp) : bool :=
  match o with
  | Some q => negb (OpType_eqb (Type_ q) OpEqual)
  | None => false
  end.

(** One round of the loop of [trimStopwordBoundaries]: what it appends for
    [op], whose neighbours in the input are [prev] and [next]. *)
Definition trimOne (a : list Element) (prev : option DiffOp) (op : DiffOp)
           (next : option DiffOp) : result (list DiffOp) :=
  if negb (OpType_eqb (Type_ op) OpEqual) then Ok [op]
  else
    let prevIsChange := isChangeOp prev in
    let nextIsChange := isChangeOp next in
    if negb prevIsChange || negb nextIsChange then Ok [op]
    else
      let* trimStart :=
        if prevIsChange
        then trimStartLoop a (Z.to_nat (AEnd op - AStart op)) (AStart op) (AEnd op) 0
        else Ok 0 in
      let* trimEnd :=
        if nextIsChange
        then trimEndLoop a (Z.to_nat (AEnd op - (AStart op + trimStart)))
                         (AEnd op - 1) (AStart op + trimStart) 0
        else Ok 0 in
      let equalLen := AEnd op - AStart op in
      if equalLen <=? trimStart + trimEnd then
        Ok [ mkOp OpDelete (AStart op) (AEnd op) (BStart op) (BStart op);
             mkOp OpInsert (AEnd op) (AEnd op) (BStart op) (BEnd op) ]
      else
        let front :=
          if 0 <? trimStart
          then [ mkOp OpDelete (AStart op) (AStart op + trimStart)
                      (BStart op) (BStart op);
                 mkOp OpInsert (AStart op + trimStart) (AStart op + trimStart)
                      (BStart op) (BStart op + trimStart) ]
          else [] in
        let newAStart := AStart op + trimStart in
        let newAEnd := AEnd op - trimEnd in
        let newBStart := BStart op + trimStart in
        let newBEnd := BEnd op - trimEnd in
        let middle :=
          if newAStart <? newAEnd
          then [mkOp OpEqual newAStart newAEnd newBStart newBEnd] else [] in
        let back :=
          if 0 <? trimEnd
          then [ mkOp OpDelete (AEnd op - trimEnd) (AEnd op)
                      (BEnd op - trimEnd) (BEnd op - trimEnd);
                 mkOp OpInsert (AEnd op) (AEnd op) (BEnd op - trimEnd) (BEnd op) ]
          else [] in
        Ok (front ++ middle ++ back).

(** [for i, op := range ops { ... }], with [ops[i-1]] as [prev]. *)
Fixpoint trimLoop (a : list Element) (prev : option DiffOp) (ops : list DiffOp)
  : result (list DiffOp) :=
  match ops with
  | [] => Ok []
  | op :: rest =>
      let* here := trimOne a prev op (hd_error rest) in
      let* more := trimLoop a (Some op) rest in
      Ok (here ++ more)
  end.

Definition trimStopwordBoundaries (ops : list DiffOp) (a b : list Element)
  : result (list DiffOp) :=
  if len ops <? 2 then Ok ops else trimLoop a None ops.

(* ===================================================================== *)
(** ** cmd/compare/main.go: statistics                                   *)
(* ===================================================================== *)





(* ===================================================================== *)
(** * Properties                                                          *)
(* ===================================================================== *)

Unset Implicit Arguments.

(** ** Reasoning about results *)

Lemma bind_Ok {A B : Type} (r : result A) (k : A -> result B) (v : B) :
  bind r k = Ok v -> exists a, r = Ok a /\ k a = Ok v.
Proof.
  destruct r as [a| |]; simpl; intro H; try discriminate.
  exists a; split; [reflexivity | exact H].
Qed.

(** Splits a hypothesis [bind r k = Ok v] into its two halves. *)
Ltac bind_inv H :=
  let a := fresh "a" in
  let Ha := fresh "Ha" in
  apply bind_Ok in H; destruct H as (a & Ha & H).

Lemma idx_Ok {A : Type} (l : list A) (i : Z) (a : A) :
  idx l i = Ok a -> 0 <= i < len l /\ nth_error l (Z.to_nat i) = Some a.
Proof.
  unfold idx, len. intro H.
  destruct (i <? 0) eqn:E1; simpl in H; try discriminate.
  destruct (Z.of_nat (List.length l) <=? i) eqn:E2; simpl in H; try discriminate.
  destruct (nth_error l (Z.to_nat i)) eqn:E3; try discriminate.
  inversion H; subst. split; [lia | reflexivity].
Qed.

Lemma idx_in_range {A : Type} (l : list A) (i : Z) :
  0 <= i < len l -> exists a, idx l i = Ok a.
Proof.
  unfold idx, len. intros [H1 H2].
  destruct (i <? 0) eqn:E1; [lia|].
  destruct (Z.of_nat (List.length l) <=? i) eqn:E2; [lia|]. simpl.
  destruct (nth_error l (Z.to_nat i)) eqn:E3; [eauto|].
  apply nth_error_None in E3. lia.
Qed.

(* ===================================================================== *)
(** ** Elements of different concrete types                               *)
(* ===================================================================== *)



(* ===================================================================== *)
(** ** Options the histogram driver does not read                         *)
(* ===================================================================== *)

Definition ignoredByHistogram (opt : Option_) : bool :=
  match opt with
  | WithHeuristic _ | WithMinimal _ | WithCostLimit _ | WithPreprocessing _ => true
  | WithPostprocessing _ | WithAnchorElimination _ => false
  end.

(** The option set without the four ignored options. *)
Definition histogramRelevant (opts : list Option_) : list Option_ :=
  List.filter (fun o => negb (ignoredByHistogram o)) opts.

Lemma fold_options_relevant (opts : list Option_) :
  forall o o' : options,
    anchorElimination o = anchorElimination o' ->
    postprocessing o = postprocessing o' ->
    let r := fold_left (fun o opt => applyOption opt o) opts o in
    let r' := fold_left (fun o opt => applyOption opt o) (histogramRelevant opts) o' in
    anchorElimination r = anchorElimination r' /\ postprocessing r = postprocessing r'.
Proof.
  induction opts as [|opt opts IH]; intros o o' Ha Hp; simpl.
  - split; assumption.
  - destruct opt; simpl; apply IH; simpl; auto.
Qed.

Lemma applyOptions_relevant (opts : list Option_) :
  anchorElimination (applyOptions opts)
    = anchorElimination (applyOptions (histogramRelevant opts))
  /\ postprocessing (applyOptions opts)
    = postprocessing (applyOptions (histogramRelevant opts)).
Proof.
  unfold applyOptions. apply fold_options_relevant; reflexivity.
Qed.

(** C9.  The histogram driver's output does not depend on the useHeuristic,
    forceMinimal, costLimit and preprocessing options: two calls on the same
    sequences whose option sets agree once those four options are removed
    return the same result. *)
Theorem DiffElementsHistogram_ignores_myers_options :
  forall (fuel : nat) (a b : list Element) (opts1 opts2 : list Option_),
    histogramRelevant opts1 = histogramRelevant opts2 ->
    DiffElementsHistogram fuel a b opts1 = DiffElementsHistogram fuel a b opts2.
Proof.
  intros fuel a b opts1 opts2 H.
  unfold DiffElementsHistogram.
  destruct (applyOptions_relevant opts1) as [A1 P1].
  destruct (applyOptions_relevant opts2) as [A2 P2].
  rewrite A1, P1, A2, P2, H. reflexivity.
Qed.

Lemma DiffElementsHistogram_ignores_myers_options_witness :
  DiffElementsHistogram 8
    (toElements ["the"; "quick"; "brown"; "fox"]%string)
    (toElements ["the"; "slow"; "fox"; "jumps"]%string)
    [WithMinimal true; WithCostLimit 3; WithPostprocessing false]
  = DiffElementsHistogram 8
    (toElements ["the"; "quick"; "brown"; "fox"]%string)
    (toElements ["the"; "slow"; "fox"; "jumps"]%string)
    [WithPreprocessing false; WithPostprocessing false; WithHeuristic false].
Proof.
  apply DiffElementsHistogram_ignores_myers_options. reflexivity.
Defined.

(* ===================================================================== *)
(** ** Stopwords are never anchors                                        *)
(* ===================================================================== *)

(** An anchor position is either absent or points at a non-stopword. *)
Definition anchorOk (b : list Element) (i : Z) : Prop :=
  i = -1 \/ exists e, idx b i = Ok e /\ isStopword e = false.

Lemma findAnchor_anchorOk (opts : histogramOptions) (a b : list Element)
      (aFreq : gmap Z Z) (aIndices : gmap Z (list Z)) :
  filterStopwords opts = true ->
  forall (rest : list Element) (i bestIdx : Z) (bestScore : float) (bestHash : Z)
         (i' : Z) (s' : float) (h' : Z),
    0 <= i ->
    (forall (j : nat) (e : Element),
        nth_error rest j = Some e -> idx b (i + Z.of_nat j) = Ok e) ->
    anchorOk b bestIdx ->
    findAnchor opts a b aFreq aIndices rest i bestIdx bestScore bestHash
      = Ok (i', s', h') ->
    anchorOk b i'.
Proof.
  intros Hf rest.
  induction rest as [|e rest IH]; intros i bestIdx bestScore bestHash i' s' h' Hi Hb HA H.
  - simpl in H. inversion H; subst. exact HA.
  - assert (Hrest : forall (j : nat) (e0 : Element),
               nth_error rest j = Some e0 -> idx b (i + 1 + Z.of_nat j) = Ok e0).
    { intros j e0 Hj. specialize (Hb (Datatypes.S j) e0 Hj).
      rewrite <- Hb. f_equal. lia. }
    assert (He : idx b i = Ok e).
    { specialize (Hb O e eq_refl). rewrite <- Hb. f_equal. simpl. lia. }
    simpl in H. rewrite Hf in H. simpl in H.
    destruct (isStopword e) eqn:Es.
    + eapply IH; [ | exact Hrest | exact HA | exact H]. lia.
    + destruct ((freqOf aFreq (Hash e) <=? 0)
                || (maxChainLength opts <? freqOf aFreq (Hash e))).
      * eapply IH; [ | exact Hrest | exact HA | exact H]. lia.
      * bind_inv H.
        destruct (PrimFloat.ltb 1.5%float a0).
        -- eapply IH; [ | exact Hrest | exact HA | exact H]. lia.
        -- match type of H with
           | (if ?c then _ else _) = _ => destruct c
           end.
           ++ eapply IH; [ | exact Hrest | | exact H]; [lia|].
              right. exists e. split; assumption.
           ++ eapply IH; [ | exact Hrest | exact HA | exact H]. lia.
Qed.

(** With the default histogram options, the anchor search over a whole
    section never returns the position of a stopword. *)
Lemma findAnchor_never_stopword (a b : list Element) (i : Z) (s : float) (h : Z)
      (init : float) :
  findAnchor defaultHistogramOptions a b (countHashes a)
             (indexHashes a 0 (∅ : gmap Z (list Z))) b 0 (-1) init 0
    = Ok (i, s, h) ->
  anchorOk b i.
Proof.
  intro H.
  eapply findAnchor_anchorOk in H; [exact H | reflexivity | lia | | left; reflexivity].
  intros j e Hj. unfold idx, len.
  assert (Hlt : (j < List.length b)%nat) by (apply nth_error_Some; congruence).
  destruct (0 + Z.of_nat j <? 0) eqn:E1; [lia|].
  destruct (Z.of_nat (List.length b) <=? 0 + Z.of_nat j) eqn:E2; [lia|].
  simpl. replace (Z.to_nat (0 + Z.of_nat j)) with j by lia.
  rewrite Hj. reflexivity.
Qed.

Definition foxA : list string := ["the"; "quick"; "fox"]%string.
Definition foxB : list string := ["the"; "slow"; "fox"]%string.

(** The score no candidate can reach: [float64(maxChainLength+1) * 3]. *)
Definition initialAnchorScore (opts : histogramOptions) : float :=
  PrimFloat.mul (float64_of_int (maxChainLength opts + 1)) 3%float.

(** C7.  On A = [the, quick, fox] and B = [the, slow, fox] the histogram
    driver peels "the" and "fox" off as common prefix and suffix, finds no
    anchor in the remaining section (and "the", a stopword, is never an anchor
    of any section), and returns Equal [0,1)x[0,1), Delete [1,2)x[1,1),
    Insert [2,2)x[1,2), Equal [2,3)x[2,3); "fox" (index 2) lies inside the
    last Equal op. *)
Theorem histogram_stopword_example :
  forall fuel : nat,
    (3 <= fuel)%nat ->
    DiffHistogram fuel foxA foxB []
      = Ok [ mkOp OpEqual 0 1 0 1; mkOp OpDelete 1 2 1 1;
             mkOp OpInsert 2 2 1 2; mkOp OpEqual 2 3 2 3 ]
    /\ isStopword (StringElement "the") = true
    /\ prefixLoop (toElements foxA) (toElements foxB) 3 0 = Ok 1
    /\ suffixLoop (toElements foxA) (toElements foxB) 3 1 0 = Ok 1
    /\ findAnchor defaultHistogramOptions
         [StringElement "quick"] [StringElement "slow"]
         (countHashes [StringElement "quick"])
         (indexHashes [StringElement "quick"] 0 (∅ : gmap Z (list Z)))
         [StringElement "slow"] 0 (-1)
         (initialAnchorScore defaultHistogramOptions) 0
       = Ok (-1, initialAnchorScore defaultHistogramOptions, 0)
    /\ (forall (a b : list Element) (i : Z) (s : float) (h : Z),
           findAnchor defaultHistogramOptions a b (countHashes a)
                      (indexHashes a 0 (∅ : gmap Z (list Z))) b 0 (-1)
                      (initialAnchorScore defaultHistogramOptions) 0
             = Ok (i, s, h) ->
           forall e, idx b i = Ok e -> e <> StringElement "the")
    /\ nth_error foxA 2 = Some "fox"%string
    /\ (exists op,
           In op [ mkOp OpEqual 0 1 0 1; mkOp OpDelete 1 2 1 1;
                   mkOp OpInsert 2 2 1 2; mkOp OpEqual 2 3 2 3 ]
           /\ Type_ op = OpEqual /\ AStart op <= 2 < AEnd op).
Proof.
  intros fuel Hfuel.
  destruct fuel as [|[|[|f]]]; try lia.
  split; [vm_compute; reflexivity|].
  split; [reflexivity|].
  split; [vm_compute; reflexivity|].
  split; [vm_compute; reflexivity|].
  split; [vm_compute; reflexivity|].
  split.
  - intros a b i s h H e He Heq.
    apply findAnchor_never_stopword in H.
    destruct H as [H | (e' & He' & Hs)].
    + subst i. unfold idx in He. simpl in He. discriminate.
    + rewrite He in He'. inversion He'; subst. discriminate.
  - split; [reflexivity|].
    exists (mkOp OpEqual 2 3 2 3). simpl. repeat split; auto; lia.
Qed.

Lemma histogram_stopword_example_witness :
  DiffHistogram 3 foxA foxB []
    = Ok [ mkOp OpEqual 0 1 0 1; mkOp OpDelete 1 2 1 1;
           mkOp OpInsert 2 2 1 2; mkOp OpEqual 2 3 2 3 ].
Proof.
  apply (histogram_stopword_example 3%nat). lia.
Defined.

(* ===================================================================== *)
(** ** Canonical op lists and the merger                                  *)
(* ===================================================================== *)

(** No two neighbours can be merged. *)
Fixpoint canonical (ops : list DiffOp) : Prop :=
  match ops with
  | [] => True
  | c :: rest =>
      match rest with
      | [] => True
      | op :: _ => canMerge c op = false /\ canonical rest
      end
  end.

(** Neighbours have different types: stronger than [canonical]. *)
Fixpoint alternating (ops : list DiffOp) : Prop :=
  match ops with
  | [] => True
  | c :: rest =>
      match rest with
      | [] => True
      | op :: _ => OpType_eqb (Type_ c) (Type_ op) = false /\ alternating rest
      end
  end.

Lemma alternating_canonical (ops : list DiffOp) :
  alternating ops -> canonical ops.
Proof.
  induction ops as [|c rest IH]; simpl; [trivial|].
  destruct rest as [|op rest']; [trivial|].
  intros [Ht Hr]. split; [|apply IH; exact Hr].
  unfold canMerge. rewrite Ht. reflexivity.
Qed.

Lemma mergeFrom_head (current : DiffOp) (ops : list DiffOp) :
  exists h t, mergeFrom current ops = h :: t
              /\ Type_ h = Type_ current
              /\ AStart h = AStart current
              /\ BStart h = BStart current.
Proof.
  revert current. induction ops as [|op rest IH]; intro current; simpl.
  - exists current, []. auto.
  - destruct (canMerge current op).
    + destruct (IH (extendOp current op)) as (h & t & E & Ht & Ha & Hb).
      exists h, t. simpl in *. auto.
    + exists current, (mergeFrom op rest). auto.
Qed.

Lemma canMerge_head (c op h : DiffOp) :
  Type_ h = Type_ op -> AStart h = AStart op -> BStart h = BStart op ->
  canMerge c h = canMerge c op.
Proof.
  intros Ht Ha Hb. unfold canMerge. rewrite Ht, Ha, Hb. reflexivity.
Qed.

Lemma mergeFrom_canonical (ops : list DiffOp) :
  forall current, canonical (mergeFrom current ops).
Proof.
  induction ops as [|op rest IH]; intro current; simpl; [trivial|].
  destruct (canMerge current op) eqn:E; [apply IH|].
  destruct (mergeFrom_head op rest) as (h & t & Eh & Ht & Ha & Hb).
  specialize (IH op). rewrite Eh in *. simpl.
  split; [|exact IH].
  rewrite (canMerge_head current op h Ht Ha Hb). exact E.
Qed.

Lemma mergeAdjacentOps_canonical (ops : list DiffOp) :
  canonical (mergeAdjacentOps ops).
Proof.
  destruct ops as [|c rest]; simpl; [trivial | apply mergeFrom_canonical].
Qed.

Lemma mergeFrom_fixed (ops : list DiffOp) :
  forall current, canonical (current :: ops) -> mergeFrom current ops = current :: ops.
Proof.
  induction ops as [|op rest IH]; intros current H; simpl; [reflexivity|].
  simpl in H. destruct H as [Hc Hr]. rewrite Hc.
  f_equal. apply IH. exact Hr.
Qed.

Lemma canonical_fixed (ops : list DiffOp) :
  canonical ops -> mergeAdjacentOps ops = ops.
Proof.
  destruct ops as [|c rest]; [reflexivity|]. apply mergeFrom_fixed.
Qed.

Lemma fixed_canonical (ops : list DiffOp) :
  mergeAdjacentOps ops = ops -> canonical ops.
Proof.
  intro H. rewrite <- H. apply mergeAdjacentOps_canonical.
Qed.

(** The merger is idempotent. *)
Lemma mergeAdjacentOps_idempotent (ops : list DiffOp) :
  mergeAdjacentOps (mergeAdjacentOps ops) = mergeAdjacentOps ops.
Proof.
  apply canonical_fixed, mergeAdjacentOps_canonical.
Qed.

(** The two mergers of the package compute the same function. *)
Lemma mergeOpsFrom_mergeFrom (ops : list DiffOp) :
  forall current, mergeOpsFrom current ops = mergeFrom current ops.
Proof.
  induction ops as [|op rest IH]; intro current; simpl; [reflexivity|].
  unfold canMerge, extendOp.
  destruct (OpType_eqb (Type_ current) (Type_ op) && (AEnd current =? AStart op)
            && (BEnd current =? BStart op)); rewrite IH; reflexivity.
Qed.

Lemma mergeOps_mergeAdjacentOps (ops : list DiffOp) :
  mergeOps ops = mergeAdjacentOps ops.
Proof.
  destruct ops as [|c rest]; [reflexivity | apply mergeOpsFrom_mergeFrom].
Qed.

(** *** The boundary optimiser changes nothing *)

Lemma set_nth_same {A : Type} (l : list A) :
  forall (n : nat) (v : A), nth_error l n = Some v -> set_nth l n v = l.
Proof.
  induction l as [|h t IH]; intros [|n] v H; simpl in *; try discriminate.
  - inversion H; reflexivity.
  - f_equal. apply IH. exact H.
Qed.

Lemma upd_same {A : Type} (l : list A) (i : Z) (v : A) :
  idx l i = Ok v -> upd l i v = Ok l.
Proof.
  intro H. destruct (idx_Ok _ _ _ H) as [Hr Hn].
  unfold upd, len in *.
  destruct (i <? 0) eqn:E1; [lia|].
  destruct (Z.of_nat (List.length l) <=? i) eqn:E2; [lia|]. simpl.
  rewrite (set_nth_same l _ v Hn). reflexivity.
Qed.

Lemma optimizeLoop_identity (a b : list Element) (cnt : nat) :
  forall (i : Z) (res r : list DiffOp),
    optimizeLoop a b cnt i res = Ok r -> r = res.
Proof.
  induction cnt as [|c IH]; intros i res r H; simpl in H.
  - inversion H; reflexivity.
  - destruct (i <? len res - 1); [|inversion H; reflexivity].
    bind_inv H. rename a0 into curr, Ha into Hcurr.
    bind_inv H. rename a0 into next, Ha into Hnext.
    assert (Hboth : (let* r0 := upd res i curr in upd r0 (i + 1) next) = Ok res).
    { rewrite (upd_same _ _ _ Hcurr). simpl. apply upd_same. exact Hnext. }
    bind_inv H. rename a0 into res1, Ha into H1.
    assert (E1 : res1 = res).
    { destruct (OpType_eqb (Type_ curr) OpEqual && isChange (Type_ next)).
      - unfold tryShiftEqualBoundary in H1.
        destruct (AEnd curr - AStart curr =? 0);
          [|destruct ((AEnd curr - 1 <? 0) || (len a <=? AEnd curr - 1))];
          rewrite Hboth in H1; inversion H1; reflexivity.
      - inversion H1; reflexivity. }
    subst res1.
    bind_inv H. rename a0 into res2, Ha into H2.
    assert (E2 : res2 = res).
    { destruct (isChange (Type_ curr) && OpType_eqb (Type_ next) OpEqual).
      - unfold tryShiftChangeBoundary in H2.
        destruct (AEnd next - AStart next =? 0);
          rewrite Hboth in H2; inversion H2; reflexivity.
      - inversion H2; reflexivity. }
    subst res2. apply IH in H. exact H.
Qed.

Lemma optimizeBoundaries_identity (ops r : list DiffOp) (a b : list Element) :
  optimizeBoundaries ops a b = Ok r -> r = ops.
Proof.
  unfold optimizeBoundaries. destruct (len ops <? 2).
  - intro H; inversion H; reflexivity.
  - apply optimizeLoop_identity.
Qed.

Lemma shiftBoundaries_canonical (ops r : list DiffOp) (a b : list Element) :
  shiftBoundaries ops a b = Ok r -> canonical r.
Proof.
  unfold shiftBoundaries.
  destruct (len ops =? 0) eqn:E.
  - intro H; inversion H; subst.
    destruct r; [exact I | unfold len in E; simpl in E; lia].
  - intro H. bind_inv H.
    apply optimizeBoundaries_identity in H. subst r.
    apply mergeAdjacentOps_canonical.
Qed.

(** *** [buildOps] never emits two neighbours of the same type *)

Lemma changeRun_spec (ch : list bool) (cnt : nat) :
  forall n i i' : Z,
    (Z.to_nat (n - i) <= cnt)%nat ->
    changeRun ch cnt n i = Ok i' ->
    i <= i' /\ (n <= i' \/ idx ch i' = Ok false).
Proof.
  induction cnt as [|c IH]; intros n i i' Hc H; simpl in H.
  - inversion H; subst. split; [lia | left; lia].
  - destruct (i <? n) eqn:E.
    + bind_inv H. destruct a; simpl in H.
      * apply IH in H; [|lia]. destruct H as [H1 H2]. split; [lia | exact H2].
      * inversion H; subst. split; [lia | right; exact Ha].
    + inversion H; subst. split; [lia | left; lia].
Qed.

Lemma changeRun_stay (ch : list bool) (cnt : nat) (n i : Z) :
  n <= i \/ idx ch i = Ok false -> changeRun ch cnt n i = Ok i.
Proof.
  intro H. destruct cnt as [|c]; simpl; [reflexivity|].
  destruct (i <? n) eqn:E; [|reflexivity].
  destruct H as [H|H]; [lia|]. rewrite H. reflexivity.
Qed.

Lemma equalRun_spec (xc yc : list bool) (cnt : nat) :
  forall n m i j i' j' : Z,
    (Z.to_nat (n - i) <= cnt)%nat ->
    equalRun xc yc cnt n m i j = Ok (i', j') ->
    i <= i' /\ j' - j = i' - i
    /\ (n <= i' \/ m <= j' \/ idx xc i' = Ok true \/ idx yc j' = Ok true).
Proof.
  induction cnt as [|c IH]; intros n m i j i' j' Hc H; simpl in H.
  - inversion H; subst. split; [lia|]. split; [lia|]. left; lia.
  - destruct ((i <? n) && (j <? m)) eqn:E.
    + bind_inv H. destruct a; simpl in H.
      * inversion H; subst. split; [lia|]. split; [lia|].
        right; right; left; exact Ha.
      * bind_inv H. destruct a; simpl in H.
        -- inversion H; subst. split; [lia|]. split; [lia|].
           right; right; right; exact Ha0.
        -- apply IH in H; [|lia]. destruct H as (H1 & H2 & H3).
           split; [lia|]. split; [lia|]. exact H3.
    + inversion H; subst. split; [lia|]. split; [lia|].
      apply andb_false_iff in E. destruct E as [E|E]; [left | right; left]; lia.
Qed.

Lemma equalRun_stay (xc yc : list bool) (cnt : nat) (n m i j : Z) :
  n <= i \/ m <= j -> equalRun xc yc cnt n m i j = Ok (i, j).
Proof.
  intro H. destruct cnt as [|c]; simpl; [reflexivity|].
  destruct ((i <? n) && (j <? m)) eqn:E; [|reflexivity].
  apply andb_true_iff in E. lia.
Qed.

Lemma equalRun_advance (xc yc : list bool) (cnt : nat) (n m i j i' j' : Z) :
  (Z.to_nat (n - i) <= cnt)%nat ->
  i < n -> j < m -> idx xc i = Ok false -> idx yc j = Ok false ->
  equalRun xc yc cnt n m i j = Ok (i', j') -> i < i'.
Proof.
  intros Hc Hi Hj Hx Hy H.
  destruct cnt as [|c]; [lia|]. simpl in H.
  replace ((i <? n) && (j <? m)) with true in H
    by (symmetry; apply andb_true_iff; lia).
  rewrite Hx in H. simpl in H. rewrite Hy in H. simpl in H.
  apply equalRun_spec in H; [lia | lia].
Qed.

(** Both change runs have stopped at [(i, j)]. *)
Definition settled (xc yc : list bool) (n m i j : Z) : Prop :=
  (n <= i \/ idx xc i = Ok false) /\ (m <= j \/ idx yc j = Ok false).

Lemma buildOpsRound_spec (xc yc : list bool) (n m i j i' j' : Z) (ops : list DiffOp) :
  buildOpsRound xc yc n m i j = Ok (ops, i', j') ->
  exists i1 j1,
    equalRun xc yc (Z.to_nat (n - i)) n m i j = Ok (i1, j1)
    /\ changeRun xc (Z.to_nat (n - i1)) n i1 = Ok i'
    /\ changeRun yc (Z.to_nat (m - j1)) m j1 = Ok j'
    /\ ops = (if i <? i1 then [mkOp OpEqual i i1 j j1] else [])
             ++ (if i1 <? i' then [mkOp OpDelete i1 i' j1 j1] else [])
             ++ (if j1 <? j' then [mkOp OpInsert i' i' j1 j'] else []).
Proof.
  unfold buildOpsRound. intro H.
  bind_inv H. destruct a as [i1 j1].
  bind_inv H. bind_inv H. inversion H; subst.
  exists i1, j1. repeat split; assumption.
Qed.

Definition startsWithEqual (ops : list DiffOp) : Prop :=
  ops = [] \/ exists op t, ops = op :: t /\ Type_ op = OpEqual.

Lemma buildOpsLoop_alternating (xc yc : list bool) (cnt : nat) :
  forall (n m i j : Z) (ops : list DiffOp),
    buildOpsLoop xc yc cnt n m i j = Ok ops ->
    alternating ops
    /\ (settled xc yc n m i j -> startsWithEqual ops)
    /\ (settled xc yc n m i j -> n <= i \/ m <= j -> ops = []).
Proof.
  induction cnt as [|c IH]; intros n m i j ops H; simpl in H.
  - destruct ((i <? n) || (j <? m)); [discriminate|].
    inversion H; subst. simpl. repeat split; auto. intros _. left; reflexivity.
  - destruct ((i <? n) || (j <? m)) eqn:Econd.
    2:{ inversion H; subst. simpl. repeat split; auto. intros _. left; reflexivity. }
    bind_inv H. destruct a as [[rops i'] j']. rename Ha into Hround.
    bind_inv H. rename a into r, Ha into Hrest. inversion H; subst ops. clear H.
    apply buildOpsRound_spec in Hround.
    destruct Hround as (i1 & j1 & Heq & Hdel & Hins & Hops).
    pose proof (equalRun_spec xc yc _ n m i j i1 j1 (Nat.le_refl _) Heq) as (Hi1 & Hj1 & Hstop).
    pose proof (changeRun_spec xc _ n i1 i' (Nat.le_refl _) Hdel) as (Hi' & Hx').
    pose proof (changeRun_spec yc _ m j1 j' (Nat.le_refl _) Hins) as (Hj' & Hy').
    destruct (IH n m i' j' r Hrest) as (Halt & Hstart & Hdead).
    assert (Hset : settled xc yc n m i' j') by (split; assumption).
    specialize (Hstart Hset). specialize (Hdead Hset).
    (* with neither a Delete nor an Insert, nothing can follow *)
    assert (Hnochange : (i1 <? i') = false -> (j1 <? j') = false -> r = []).
    { intros E1 E2. apply Hdead.
      assert (i' = i1) by lia. assert (j' = j1) by lia. subst i' j'.
      destruct Hstop as [Hs|[Hs|[Hs|Hs]]]; [left; exact Hs | right; exact Hs | |].
      - destruct Hx' as [Hx'|Hx']; [left; exact Hx' | congruence].
      - destruct Hy' as [Hy'|Hy']; [right; exact Hy' | congruence]. }
    split; [|split].
    + (* alternating *)
      subst rops.
      destruct Hstart as [Hr|(op & t & Hr & Ht)].
      * subst r.
        destruct (i <? i1); destruct (i1 <? i'); destruct (j1 <? j');
          simpl; repeat split; auto.
      * destruct (i1 <? i') eqn:E1; destruct (j1 <? j') eqn:E2;
          try (rewrite (Hnochange eq_refl eq_refl) in Hr; discriminate);
          subst r; destruct (i <? i1); simpl in *; rewrite ?Ht;
          rewrite ?Ht in Halt; repeat split; auto.
    + (* from a settled state the output starts with an Equal *)
      intros [Hsx Hsy].
      destruct (Z_lt_le_dec i n) as [Hin|Hin]; destruct (Z_lt_le_dec j m) as [Hjm|Hjm].
      * destruct Hsx as [Hsx|Hsx]; [lia|]. destruct Hsy as [Hsy|Hsy]; [lia|].
        pose proof (equalRun_advance xc yc _ n m i j i1 j1 (Nat.le_refl _)
                                     Hin Hjm Hsx Hsy Heq) as Hadv.
        right. subst rops.
        replace (i <? i1) with true by (symmetry; apply Z.ltb_lt; lia).
        simpl. eauto.
      * left.
        rewrite (equalRun_stay xc yc _ n m i j (or_intror Hjm)) in Heq.
        inversion Heq; subst i1 j1.
        rewrite (changeRun_stay xc _ n i Hsx) in Hdel. inversion Hdel; subst i'.
        rewrite (changeRun_stay yc _ m j Hsy) in Hins. inversion Hins; subst j'.
        subst rops. rewrite !Z.ltb_irrefl. simpl.
        rewrite Hnochange; [reflexivity | apply Z.ltb_irrefl | apply Z.ltb_irrefl].
      * left.
        rewrite (equalRun_stay xc yc _ n m i j (or_introl Hin)) in Heq.
        inversion Heq; subst i1 j1.
        rewrite (changeRun_stay xc _ n i Hsx) in Hdel. inversion Hdel; subst i'.
        rewrite (changeRun_stay yc _ m j Hsy) in Hins. inversion Hins; subst j'.
        subst rops. rewrite !Z.ltb_irrefl. simpl.
        rewrite Hnochange; [reflexivity | apply Z.ltb_irrefl | apply Z.ltb_irrefl].
      * left.
        rewrite (equalRun_stay xc yc _ n m i j (or_introl Hin)) in Heq.
        inversion Heq; subst i1 j1.
        rewrite (changeRun_stay xc _ n i Hsx) in Hdel. inversion Hdel; subst i'.
        rewrite (changeRun_stay yc _ m j Hsy) in Hins. inversion Hins; subst j'.
        subst rops. rewrite !Z.ltb_irrefl. simpl.
        rewrite Hnochange; [reflexivity | apply Z.ltb_irrefl | apply Z.ltb_irrefl].
    + (* a settled state at the end of either slice produces nothing *)
      intros [Hsx Hsy] Hend.
      rewrite (equalRun_stay xc yc _ n m i j Hend) in Heq.
      inversion Heq; subst i1 j1.
      rewrite (changeRun_stay xc _ n i Hsx) in Hdel. inversion Hdel; subst i'.
      rewrite (changeRun_stay yc _ m j Hsy) in Hins. inversion Hins; subst j'.
      subst rops. rewrite !Z.ltb_irrefl. simpl.
      apply Hnochange; apply Z.ltb_irrefl.
Qed.

Lemma buildOps_alternating (ctx : diffContext) (ops : list DiffOp) :
  buildOps ctx = Ok ops -> alternating ops.
Proof.
  unfold buildOps. intro H.
  apply buildOpsLoop_alternating in H. apply H.
Qed.

(** *** Every driver returns a canonical list *)

Lemma alternating_types (l1 : list DiffOp) :
  forall l2, List.map Type_ l1 = List.map Type_ l2 ->
             alternating l1 -> alternating l2.
Proof.
  induction l1 as [|x l1 IH]; intros [|y l2] H; simpl in H; try discriminate; auto.
  injection H as Hxy Hrest.
  destruct l1 as [|x' l1']; destruct l2 as [|y' l2']; simpl in Hrest;
    try discriminate; auto.
  intros [Hd Ha].
  change (OpType_eqb (Type_ y) (Type_ y') = false /\ alternating (y' :: l2')).
  assert (Hxy' : Type_ x' = Type_ y') by (injection Hrest; auto).
  split.
  - rewrite <- Hxy, <- Hxy'. exact Hd.
  - apply IH; assumption.
Qed.

Lemma mapOpsRange_types (mp : indexMapping) (ops : list DiffOp) :
  forall r, mapOpsRange mp ops = Ok r -> List.map Type_ ops = List.map Type_ r.
Proof.
  induction ops as [|op rest IH]; intros r H; simpl in H.
  - inversion H; reflexivity.
  - do 5 bind_inv H. inversion H; subst. simpl. f_equal. apply IH. assumption.
Qed.

Lemma mapOpsRange_canonical (mp : indexMapping) (ops r : list DiffOp) :
  alternating ops -> mapOpsRange mp ops = Ok r -> canonical r.
Proof.
  intros Ha H. apply alternating_canonical.
  eapply alternating_types; [apply (mapOpsRange_types mp ops r H) | exact Ha].
Qed.

Lemma mapOps_canonical (mp : indexMapping) (ops r : list DiffOp) :
  alternating ops -> mapOps mp ops = Ok r -> canonical r.
Proof.
  intros _ H. unfold mapOps in H. bind_inv H. destruct a as [[out aPos] bPos].
  inversion H; subst. rewrite mergeOps_mergeAdjacentOps.
  apply mergeAdjacentOps_canonical.
Qed.

Lemma DiffElementsWith_canonical
      (mapper : indexMapping -> list DiffOp -> result (list DiffOp)) :
  (forall mp ops r, alternating ops -> mapper mp ops = Ok r -> canonical r) ->
  forall (fuel : nat) (a b : list Element) (opts : list Option_) (r : list DiffOp),
    DiffElementsWith mapper fuel a b opts = Ok r -> canonical r.
Proof.
  intros Hmapper fuel a b opts r H. unfold DiffElementsWith in H.
  destruct ((len a =? 0) && (len b =? 0)); [inversion H; exact I|].
  destruct (len a =? 0); [inversion H; exact I|].
  destruct (len b =? 0); [inversion H; exact I|].
  bind_inv H. destruct a0 as [[[a' b'] mapping] ctx].
  bind_inv H. rename a0 into ctx'.
  bind_inv H. rename a0 into raw, Ha1 into Hbuild.
  apply buildOps_alternating in Hbuild.
  bind_inv H. rename a0 into mapped, Ha1 into Hmap.
  assert (Hc : canonical mapped).
  { destruct mapping as [mp|].
    - eapply Hmapper; eassumption.
    - inversion Hmap; subst. apply alternating_canonical. exact Hbuild. }
  destruct (postprocessing (applyOptions opts)).
  - eapply shiftBoundaries_canonical; exact H.
  - inversion H; subst. exact Hc.
Qed.

Lemma histogramDiff_canonical (fuel : nat) (a b : list Element)
      (opts : option histogramOptions) (r : list DiffOp) :
  histogramDiff fuel a b opts = Ok r -> canonical r.
Proof.
  unfold histogramDiff. intro H.
  destruct ((len a =? 0) && (len b =? 0)); [inversion H; exact I|].
  destruct (len a =? 0); [inversion H; exact I|].
  destruct (len b =? 0); [inversion H; exact I|].
  bind_inv H. bind_inv H.
  match type of H with
  | (if ?c then _ else _) = _ => destruct c
  end; [inversion H; exact I|].
  do 3 bind_inv H. inversion H; subst.
  apply mergeAdjacentOps_canonical.
Qed.

Lemma eliminateWeakAnchors_canonical (ops : list DiffOp) (a b : list Element) :
  canonical ops -> canonical (eliminateWeakAnchors ops a b).
Proof.
  intro H. unfold eliminateWeakAnchors.
  destruct (len ops <? 2); [exact H | apply mergeAdjacentOps_canonical].
Qed.

Lemma DiffElementsHistogram_canonical (fuel : nat) (a b : list Element)
      (opts : list Option_) (r : list DiffOp) :
  DiffElementsHistogram fuel a b opts = Ok r -> canonical r.
Proof.
  unfold DiffElementsHistogram. intro H.
  bind_inv H. rename a0 into ops, Ha into Hh.
  apply histogramDiff_canonical in Hh.
  assert (Hc : canonical (if anchorElimination (applyOptions opts)
                          then eliminateWeakAnchors ops a b else ops)).
  { destruct (anchorElimination (applyOptions opts));
      [apply eliminateWeakAnchors_canonical|]; exact Hh. }
  destruct (postprocessing (applyOptions opts)).
  - eapply shiftBoundaries_canonical; exact H.
  - inversion H; subst. exact Hc.
Qed.

(** C8.  Running the merger on a list returned by the Myers driver (with
    either index remapping of the sources) or by the histogram driver
    changes nothing: the list has no two neighbours of the same type whose
    ranges touch in both coordinates. *)
Theorem mergeAdjacentOps_identity_on_output :
  forall (fuel : nat) (a b : list Element) (opts : list Option_) (ops : list DiffOp),
    DiffElements fuel a b opts = Ok ops
    \/ DiffElementsRange fuel a b opts = Ok ops
    \/ DiffElementsHistogram fuel a b opts = Ok ops ->
    mergeAdjacentOps ops = ops /\ canonical ops.
Proof.
  intros fuel a b opts ops H.
  assert (Hc : canonical ops).
  { destruct H as [H|[H|H]].
    - eapply (DiffElementsWith_canonical mapOps mapOps_canonical); exact H.
    - eapply (DiffElementsWith_canonical mapOpsRange mapOpsRange_canonical); exact H.
    - eapply DiffElementsHistogram_canonical; exact H. }
  split; [apply canonical_fixed|]; exact Hc.
Qed.

Lemma mergeAdjacentOps_identity_on_output_witness :
  mergeAdjacentOps
    [ mkOp OpEqual 0 1 0 1; mkOp OpDelete 1 2 1 1;
      mkOp OpInsert 2 2 1 2; mkOp OpEqual 2 3 2 3 ]
  = [ mkOp OpEqual 0 1 0 1; mkOp OpDelete 1 2 1 1;
      mkOp OpInsert 2 2 1 2; mkOp OpEqual 2 3 2 3 ].
Proof.
  apply (mergeAdjacentOps_identity_on_output 4%nat
           (toElements ["a"; "b"; "c"]%string) (toElements ["a"; "x"; "c"]%string)
           [WithMinimal true]).
  left. vm_compute. reflexivity.
Defined.

(* ===================================================================== *)
(** ** The greedy fallback of the middle-snake search                     *)
(* ===================================================================== *)

Lemma ctxEqual_setDiags (ctx : diffContext) (fd bd : list Z) (i j : Z) :
  ctxEqual (setDiags ctx fd bd) i j = ctxEqual ctx i j.
Proof. reflexivity. Qed.

Lemma followForward_spec (ctx : diffContext) (xoff yoff n m : Z) (cnt : nat) :
  forall x y x' y' : Z,
    (Z.to_nat (n - x) <= cnt)%nat ->
    followForward ctx xoff yoff n m cnt x y = Ok (x', y') ->
    x <= x' /\ y' - y = x' - x
    /\ (x < x' -> x' <= n /\ y' <= m)
    /\ (forall k, 0 <= k < x' - x ->
                  ctxEqual ctx (xoff + (x + k)) (yoff + (y + k)) = Ok true)
    /\ (x' < n -> y' < m -> ctxEqual ctx (xoff + x') (yoff + y') = Ok false).
Proof.
  induction cnt as [|c IH]; intros x y x' y' Hc H; simpl in H.
  - inversion H; subst. repeat split; intros; lia.
  - destruct ((x <? n) && (y <? m)) eqn:E.
    + apply andb_true_iff in E. destruct E as [Ex Ey].
      apply Z.ltb_lt in Ex. apply Z.ltb_lt in Ey.
      bind_inv H. destruct a; simpl in H.
      * apply IH in H; [|lia].
        destruct H as (H1 & H2 & H3 & H4 & H5).
        split; [lia|]. split; [lia|]. split; [|split].
        -- intros _. destruct (Z.eq_dec x' (x + 1)) as [He|He]; [lia|].
           apply H3. lia.
        -- intros k Hk. destruct (Z.eq_dec k 0) as [Hk0|Hk0].
           ++ subst k. rewrite !Z.add_0_r. exact Ha.
           ++ specialize (H4 (k - 1)).
              replace (x + 1 + (k - 1)) with (x + k) in H4 by lia.
              replace (y + 1 + (k - 1)) with (y + k) in H4 by lia.
              apply H4. lia.
        -- exact H5.
      * inversion H; subst.
        split; [lia|]. split; [lia|]. split; [lia|]. split; [intros; lia|].
        intros _ _. exact Ha.
    + inversion H; subst.
      split; [lia|]. split; [lia|]. split; [lia|]. split; [intros; lia|].
      apply andb_false_iff in E. intros Hx Hy.
      destruct E as [E|E]; apply Z.ltb_ge in E; lia.
Qed.

(** The claim as the specification words it: when nothing matches at the
    start of the frame, the fallback steps in the longer dimension. *)
Definition greedy_steps_in_longer_dimension : Prop :=
  forall (ctx ctx' : diffContext) (xoff xlim yoff ylim : Z) (findMinimal : bool)
         (p : partition),
    findMiddleSnakeExit ctx xoff xlim yoff ylim findMinimal = Ok (ExitGreedy p, ctx') ->
    ctxEqual ctx xoff yoff = Ok false ->
    (xlim - xoff < ylim - yoff -> xmid p = xoff /\ ymid p = yoff + 1)
    /\ (ylim - yoff < xlim - xoff -> xmid p = xoff + 1 /\ ymid p = yoff).

Definition greedyA : list Element := toElements ["a"]%string.
Definition greedyB : list Element := toElements ["b"; "a"; "a"; "a"; "b"]%string.

(** C5, as stated, fails: on A = [a], B = [b,a,a,a,b] the search over the
    whole frame ends in the greedy fallback with nothing matching at the
    start; B is the longer side, yet the split advances in A. *)
Lemma greedy_steps_in_longer_dimension_fails :
  ~ greedy_steps_in_longer_dimension.
Proof.
  intro H.
  destruct (findMiddleSnakeExit (newDiffContext greedyA greedyB defaultOptions)
                                0 1 0 5 false) as [[e c]| |] eqn:E.
  - pose proof E as E'. vm_compute in E'.
    injection E' as He Hc. subst e. clear Hc.
    specialize (H _ _ _ _ _ _ _ _ E).
    destruct H as [H1 _]; [vm_compute; reflexivity|].
    destruct H1 as [H1 _]; [lia|]. simpl in H1. discriminate.
  - vm_compute in E. discriminate.
  - vm_compute in E. discriminate.
Qed.

(** C5 (amended).  When the d loop of [findMiddleSnake] ends with no overlap
    and no captured snake, the split is placed after the matching pairs at
    the start of the frame; when nothing matches there, it advances by one
    step in A whenever the frame has an element of A left (and in B only
    otherwise), whichever side is longer.  Both halves are marked
    non-minimal, and the split differs from the frame's origin. *)
Theorem greedy_fallback_prefers_deletion :
  forall (ctx ctx' : diffContext) (xoff xlim yoff ylim : Z) (findMinimal : bool)
         (p : partition),
    findMiddleSnakeExit ctx xoff xlim yoff ylim findMinimal = Ok (ExitGreedy p, ctx') ->
    (exists fd bd st,
        searchLoop ctx xoff yoff (xlim - xoff) (ylim - yoff) findMinimal fd bd
          = Ok (Continue st)
        /\ bestSnakeScore st <= 0)
    /\ (exists x,
           0 <= x
           /\ (forall k, 0 <= k < x ->
                         ctxEqual ctx (xoff + k) (yoff + k) = Ok true)
           /\ (x < xlim - xoff -> x < ylim - yoff ->
               ctxEqual ctx (xoff + x) (yoff + x) = Ok false)
           /\ (0 < x -> xmid p = xoff + x /\ ymid p = yoff + x
                        /\ x <= xlim - xoff /\ x <= ylim - yoff)
           /\ (x = 0 -> 0 < xlim - xoff -> xmid p = xoff + 1 /\ ymid p = yoff)
           /\ (x = 0 -> xlim - xoff <= 0 -> xmid p = xoff /\ ymid p = yoff + 1))
    /\ loMinimal p = false /\ hiMinimal p = false
    /\ (xmid p <> xoff \/ ymid p <> yoff).
Proof.
  intros ctx ctx' xoff xlim yoff ylim findMinimal p H.
  unfold findMiddleSnakeExit in H.
  destruct (xlim - xoff =? 0); [inversion H|].
  destruct (ylim - yoff =? 0); [inversion H|].
  bind_inv H. rename a into fd.
  bind_inv H. rename a into bd.
  bind_inv H. rename a into r, Ha1 into Hloop.
  destruct r as [st|[p' st]]; [|inversion H].
  destruct (0 <? bestSnakeScore st) eqn:Es; [inversion H|].
  apply Z.ltb_ge in Es.
  bind_inv H. rename a into q, Ha1 into Hg. inversion H; subst q ctx'. clear H.
  split; [exists fd, bd, st; split; assumption|].
  unfold greedyFallback in Hg.
  bind_inv Hg. destruct a as [x y]. rename Ha1 into Hf.
  apply followForward_spec in Hf; [|lia].
  destruct Hf as (Hx & Hy & Hb & Hm & Hs).
  assert (Hxy : y = x) by lia. subst y.
  assert (Hres :
            (0 < x -> xmid p = xoff + x /\ ymid p = yoff + x)
            /\ (x = 0 -> 0 < xlim - xoff -> xmid p = xoff + 1 /\ ymid p = yoff)
            /\ (x = 0 -> xlim - xoff <= 0 -> xmid p = xoff /\ ymid p = yoff + 1)
            /\ loMinimal p = false /\ hiMinimal p = false).
  { destruct (0 <? x) eqn:E0.
    - inversion Hg; subst p; simpl. apply Z.ltb_lt in E0.
      repeat split; intros; lia.
    - apply Z.ltb_ge in E0.
      destruct (0 <? xlim - xoff) eqn:E1; inversion Hg; subst p; simpl;
        [apply Z.ltb_lt in E1 | apply Z.ltb_ge in E1];
        repeat split; intros; lia. }
  destruct Hres as (R1 & R2 & R3 & R4 & R5).
  split; [|split; [exact R4|split; [exact R5|]]].
  - exists x. split; [lia|]. split; [|split; [|split; [|split]]].
    + intros k Hk. specialize (Hm k).
      rewrite !Z.add_0_l in Hm. rewrite <- (ctxEqual_setDiags ctx (stF st) (stB st)).
      apply Hm. lia.
    + intros H1 H2. rewrite <- (ctxEqual_setDiags ctx (stF st) (stB st)).
      apply Hs; assumption.
    + intro H0. destruct (R1 H0) as [Q1 Q2]. destruct (Hb H0) as [Q3 Q4].
      repeat split; assumption.
    + exact R2.
    + exact R3.
  - destruct (Z_lt_le_dec 0 x) as [H0|H0].
    + destruct (R1 H0). left; lia.
    + assert (x = 0) by lia.
      destruct (Z_lt_le_dec 0 (xlim - xoff)) as [H1|H1].
      * destruct (R2 H H1). left; lia.
      * destruct (R3 H H1). right; lia.
Qed.

(** The context the example search leaves behind. *)
Definition greedyCtxAfter : diffContext :=
  Eval vm_compute in
    match findMiddleSnakeExit (newDiffContext greedyA greedyB defaultOptions)
                              0 1 0 5 false with
    | Ok (_, c) => c
    | _ => newDiffContext greedyA greedyB defaultOptions
    end.

Lemma greedy_fallback_prefers_deletion_witness :
  findMiddleSnakeExit (newDiffContext greedyA greedyB defaultOptions) 0 1 0 5 false
    = Ok (ExitGreedy (mkPartition 1 0 false false), greedyCtxAfter)
  /\ loMinimal (mkPartition 1 0 false false) = false.
Proof.
  assert (Hrun : findMiddleSnakeExit (newDiffContext greedyA greedyB defaultOptions)
                                     0 1 0 5 false
                 = Ok (ExitGreedy (mkPartition 1 0 false false), greedyCtxAfter))
    by (vm_compute; reflexivity).
  split; [exact Hrun|].
  apply (greedy_fallback_prefers_deletion _ _ _ _ _ _ _ _ Hrun).
Defined.

(* ===================================================================== *)
(** ** Minimal mode                                                       *)
(* ===================================================================== *)

Definition letters (s : string) : list string :=
  List.map (fun c => String c EmptyString) (list_ascii_of_string s).




(** *** Without heuristics, cost limit and minimality flag are not read *)

(** The same context with another cost limit. *)
Definition withCost (ctx : diffContext) (c : Z) : diffContext :=
  mkCtx (xvec ctx) (yvec ctx) (fdiag ctx) (bdiag ctx) (xchanges ctx)
        (ychanges ctx) (ctxUseHeuristic ctx) c.

























Lemma buildOps_withCost (ctx : diffContext) (c : Z) :
  buildOps (withCost ctx c) = buildOps ctx.
Proof. reflexivity. Qed.



Lemma WithMinimal_disables_heuristics (opts : list Option_) :
  forceMinimal (applyOptions (opts ++ [WithMinimal true])) = true
  /\ useHeuristic (applyOptions (opts ++ [WithMinimal true])) = false.
Proof.
  unfold applyOptions. rewrite fold_left_app. simpl. split; reflexivity.
Qed.



(* ===================================================================== *)
(** ** Edit scripts: what the ops of a diff are meant to satisfy          *)
(* ===================================================================== *)

(** [applyDiff] of the package's tests: the slices of A under the Equal ops
    and of B under the Insert ops, in order. *)
Fixpoint applyDiff (a b : list Element) (ops : list DiffOp) : result (list Element) :=
  match ops with
  | [] => Ok []
  | op :: rest =>
      let* here :=
        match Type_ op with
        | OpEqual => slice a (AStart op) (AEnd op)
        | OpInsert => slice b (BStart op) (BEnd op)
        | OpDelete => Ok []
        end in
      let* more := applyDiff a b rest in
      Ok (here ++ more)
  end.

(** The ops tile [i, n) x [j, m): each starts where the previous one
    ended, an Equal op is as long in A as in B, Delete and Insert ops are
    empty on the other side, and the last one ends at (n, m). *)
Fixpoint tilesFrom (n m i j : Z) (ops : list DiffOp) : bool :=
  match ops with
  | [] => (i =? n) && (j =? m)
  | op :: rest =>
      (AStart op =? i) && (BStart op =? j)
      && (AStart op <=? AEnd op) && (BStart op <=? BEnd op)
      && match Type_ op with
         | OpEqual => AEnd op - AStart op =? BEnd op - BStart op
         | OpDelete => BStart op =? BEnd op
         | OpInsert => AStart op =? AEnd op
         end
      && tilesFrom n m (AEnd op) (BEnd op) rest
  end.

(** [ops[i].aEnd == ops[i+1].aStart] and [ops[i].bEnd == ops[i+1].bStart]. *)
Fixpoint contiguous (ops : list DiffOp) : bool :=
  match ops with
  | [] => true
  | op :: rest =>
      match rest with
      | [] => true
      | next :: _ =>
          (AEnd op =? AStart next) && (BEnd op =? BStart next) && contiguous rest
      end
  end.

(** [A[aStart+k]] equals [B[bStart+k]] for every offset of an Equal op. *)
Fixpoint equalSlices (a b : list Element) (cnt : nat) (i j : Z) : bool :=
  match cnt with
  | O => true
  | Datatypes.S c =>
      match idx a i, idx b j with
      | Ok x, Ok y => Equal x y && equalSlices a b c (i + 1) (j + 1)
      | _, _ => false
      end
  end.

Definition equalValid (a b : list Element) (op : DiffOp) : bool :=
  match Type_ op with
  | OpEqual =>
      (AEnd op - AStart op =? BEnd op - BStart op)
      && equalSlices a b (Z.to_nat (AEnd op - AStart op)) (AStart op) (BStart op)
  | _ => true
  end.

(* ===================================================================== *)
(** ** Where the Myers driver departs from its contract                   *)
(* ===================================================================== *)

Definition shiftA : list string := ["a"; "x"]%string.
Definition shiftB : list string := ["a"; "b"; "a"; "x"]%string.

(** C1 at a failing input.  On A = [a, x], B = [a, b, a, x] with default
    options the Insert of B[1,3) is moved to B[0,2) by the boundary shifter
    while its neighbours stay; applying the returned ops gives [a, a, b, x],
    not B.  No element is filtered here, so both index remappings agree. *)
Theorem reconstruction_fails_after_shift :
  Diff 10 shiftA shiftB []
    = Ok [ mkOp OpEqual 0 1 0 1; mkOp OpInsert 1 1 0 2; mkOp OpEqual 1 2 3 4 ]
  /\ DiffElementsRange 10 (toElements shiftA) (toElements shiftB) []
     = Diff 10 shiftA shiftB []
  /\ applyDiff (toElements shiftA) (toElements shiftB)
               [ mkOp OpEqual 0 1 0 1; mkOp OpInsert 1 1 0 2; mkOp OpEqual 1 2 3 4 ]
     = Ok (toElements ["a"; "a"; "b"; "x"]%string)
  /\ toElements ["a"; "a"; "b"; "x"]%string <> toElements shiftB
  /\ Diff 10 shiftA shiftB [WithPostprocessing false]
     = Ok [ mkOp OpEqual 0 1 0 1; mkOp OpInsert 1 1 1 3; mkOp OpEqual 1 2 3 4 ]
  /\ applyDiff (toElements shiftA) (toElements shiftB)
               [ mkOp OpEqual 0 1 0 1; mkOp OpInsert 1 1 1 3; mkOp OpEqual 1 2 3 4 ]
     = Ok (toElements shiftB).
Proof.
  repeat split; try (vm_compute; reflexivity).
  vm_compute. discriminate.
Qed.

Definition readmeA : list string := ["The"; "quick"; "brown"; "fox"; "jumps"]%string.
Definition readmeB : list string := ["A"; "slow"; "red"; "fox"; "leaps"]%string.
Definition staleA : list string := letters "aaaaa".
Definition staleB : list string := letters "baaaccab".

(** C2 at failing inputs.  With default options the example of the
    package's documentation aborts: after filtering, the remapped ops carry
    indices of the original A while the boundary shifter indexes the filtered
    A, of length 1.  The smallest such input is A = [a], B = [a, b].  With
    preprocessing and postprocessing off, A = aaaaa, B = baaaccab aborts
    inside the recursion, whichever index remapping is used: the
    middle-snake search returns a split beyond its frame. *)
Theorem diff_panics :
  Diff 10 readmeA readmeB [] = Panic
  /\ Diff 10 ["a"]%string ["a"; "b"]%string [] = Panic
  /\ Diff 10 ["a"]%string ["a"; "b"]%string [WithPostprocessing false]
     = Ok [ mkOp OpEqual 0 1 0 1; mkOp OpInsert 1 1 1 2 ]
  /\ Diff 40 staleA staleB [WithPreprocessing false; WithPostprocessing false] = Panic
  /\ DiffElementsRange 40 (toElements staleA) (toElements staleB)
                       [WithPreprocessing false; WithPostprocessing false] = Panic.
Proof.
  repeat split; vm_compute; reflexivity.
Qed.

(** C3 at a failing input.  On A = [a, x], B = [a, b, a, x] with default
    options the returned ops do not tile the two sequences: the first Equal
    ends at B-index 1 and the shifted Insert starts at B-index 0, B-index 2 is
    covered by no op and B-index 0 by two.  Without the boundary shifter the
    ops tile. *)
Theorem tiling_fails_after_shift :
  Diff 10 shiftA shiftB []
    = Ok [ mkOp OpEqual 0 1 0 1; mkOp OpInsert 1 1 0 2; mkOp OpEqual 1 2 3 4 ]
  /\ contiguous [ mkOp OpEqual 0 1 0 1; mkOp OpInsert 1 1 0 2; mkOp OpEqual 1 2 3 4 ]
     = false
  /\ tilesFrom 2 4 0 0
               [ mkOp OpEqual 0 1 0 1; mkOp OpInsert 1 1 0 2; mkOp OpEqual 1 2 3 4 ]
     = false
  /\ BEnd (mkOp OpEqual 0 1 0 1) <> BStart (mkOp OpInsert 1 1 0 2)
  /\ tilesFrom 2 4 0 0
               [ mkOp OpEqual 0 1 0 1; mkOp OpInsert 1 1 1 3; mkOp OpEqual 1 2 3 4 ]
     = true.
Proof.
  repeat split; try (vm_compute; reflexivity).
  vm_compute. discriminate.
Qed.

Definition gapA : list string := ["a"; "b"; "c"; "d"; "e"]%string.
Definition gapB : list string := ["a"; "x"; "c"; "y"; "e"]%string.

(** C4 at a failing input.  On A = [a, b, c, d, e], B = [a, x, c, y, e] with
    default options the preprocessor keeps a, c and e; the range-based
    [mapOps] stretches the Equal op of the filtered sequences over the
    dropped elements, and the driver returns one Equal op [0,5)x[0,5) although
    A[1] = b and B[1] = x differ.  With the element-by-element [mapOps] the
    same call aborts in the boundary shifter; with postprocessing off it
    returns ops whose Equal ops are valid. *)
Theorem equal_op_spans_unequal_elements :
  DiffElementsRange 10 (toElements gapA) (toElements gapB) []
    = Ok [ mkOp OpEqual 0 5 0 5 ]
  /\ equalValid (toElements gapA) (toElements gapB) (mkOp OpEqual 0 5 0 5) = false
  /\ idx (toElements gapA) 1 = Ok (StringElement "b")
  /\ idx (toElements gapB) 1 = Ok (StringElement "x")
  /\ Equal (StringElement "b") (StringElement "x") = false
  /\ DiffElements 10 (toElements gapA) (toElements gapB) [] = Panic
  /\ DiffElements 10 (toElements gapA) (toElements gapB) [WithPostprocessing false]
     = Ok [ mkOp OpEqual 0 1 0 1; mkOp OpDelete 1 2 1 1; mkOp OpInsert 2 2 1 2;
            mkOp OpEqual 2 3 2 3; mkOp OpDelete 3 4 3 3; mkOp OpInsert 4 4 3 4;
            mkOp OpEqual 4 5 4 5 ]
  /\ forallb (equalValid (toElements gapA) (toElements gapB))
             [ mkOp OpEqual 0 1 0 1; mkOp OpDelete 1 2 1 1; mkOp OpInsert 2 2 1 2;
               mkOp OpEqual 2 3 2 3; mkOp OpDelete 3 4 3 3; mkOp OpInsert 4 4 3 4;
               mkOp OpEqual 4 5 4 5 ] = true.
Proof.
  repeat split; vm_compute; reflexivity.
Qed.

(* ===================================================================== *)
(** ** What holds before the boundary shifter runs                        *)
(* ===================================================================== *)

Lemma changeRun_bound (ch : list bool) (cnt : nat) :
  forall n i i' : Z, i <= n -> changeRun ch cnt n i = Ok i' -> i' <= n.
Proof.
  induction cnt as [|c IH]; intros n i i' Hi H; simpl in H.
  - inversion H; subst; exact Hi.
  - destruct (i <? n) eqn:E; [|inversion H; subst; exact Hi].
    apply Z.ltb_lt in E. bind_inv H. destruct a.
    + eapply IH; [|exact H]. lia.
    + inversion H; subst; exact Hi.
Qed.

Lemma equalRun_bound (xc yc : list bool) (cnt : nat) :
  forall n m i j i' j' : Z,
    i <= n -> j <= m -> equalRun xc yc cnt n m i j = Ok (i', j') ->
    i' <= n /\ j' <= m.
Proof.
  induction cnt as [|c IH]; intros n m i j i' j' Hi Hj H; simpl in H.
  - inversion H; subst; split; assumption.
  - destruct ((i <? n) && (j <? m)) eqn:E; [|inversion H; subst; split; assumption].
    apply andb_true_iff in E. destruct E as [E1 E2].
    apply Z.ltb_lt in E1. apply Z.ltb_lt in E2.
    bind_inv H. destruct a; simpl in H; [inversion H; subst; split; assumption|].
    bind_inv H. destruct a; simpl in H; [inversion H; subst; split; assumption|].
    eapply IH; [| |exact H]; lia.
Qed.

(** Turns a goal [b = true] built from [&&], [=?] and [<=?] into
    arithmetic. *)
Ltac bool_arith :=
  repeat (apply andb_true_iff; split);
  try (apply Z.eqb_eq; lia); try (apply Z.leb_le; lia).

Lemma buildOpsLoop_tiles (xc yc : list bool) (cnt : nat) :
  forall (n m i j : Z) (ops : list DiffOp),
    i <= n -> j <= m ->
    buildOpsLoop xc yc cnt n m i j = Ok ops ->
    tilesFrom n m i j ops = true.
Proof.
  induction cnt as [|c IH]; intros n m i j ops Hi Hj H; simpl in H.
  - destruct ((i <? n) || (j <? m)) eqn:E; [discriminate|].
    inversion H; subst. apply orb_false_iff in E. destruct E as [E1 E2].
    apply Z.ltb_ge in E1. apply Z.ltb_ge in E2. simpl. bool_arith.
  - destruct ((i <? n) || (j <? m)) eqn:E.
    2:{ inversion H; subst. apply orb_false_iff in E. destruct E as [E1 E2].
        apply Z.ltb_ge in E1. apply Z.ltb_ge in E2. simpl. bool_arith. }
    bind_inv H. destruct a as [[rops i'] j']. rename Ha into Hround.
    bind_inv H. rename a into r, Ha into Hrest. inversion H; subst ops. clear H.
    apply buildOpsRound_spec in Hround.
    destruct Hround as (i1 & j1 & Heq & Hdel & Hins & Hops).
    pose proof (equalRun_spec xc yc _ n m i j i1 j1 (Nat.le_refl _) Heq) as (Hi1 & Hj1 & _).
    pose proof (equalRun_bound xc yc _ n m i j i1 j1 Hi Hj Heq) as (Hb1 & Hb2).
    pose proof (changeRun_spec xc _ n i1 i' (Nat.le_refl _) Hdel) as (Hi' & _).
    pose proof (changeRun_spec yc _ m j1 j' (Nat.le_refl _) Hins) as (Hj' & _).
    pose proof (changeRun_bound xc _ n i1 i' Hb1 Hdel) as Hb3.
    pose proof (changeRun_bound yc _ m j1 j' Hb2 Hins) as Hb4.
    pose proof (IH n m i' j' r Hb3 Hb4 Hrest) as Hr.
    subst rops.
    destruct (i <? i1) eqn:E0; destruct (i1 <? i') eqn:E1; destruct (j1 <? j') eqn:E2;
      try apply Z.ltb_lt in E0; try apply Z.ltb_ge in E0;
      try apply Z.ltb_lt in E1; try apply Z.ltb_ge in E1;
      try apply Z.ltb_lt in E2; try apply Z.ltb_ge in E2;
      cbn [app tilesFrom Type_ AStart AEnd BStart BEnd];
      try (assert (Hx : i' = i1) by lia; subst i');
      try (assert (Hy : j' = j1) by lia; subst j');
      try (assert (Hz : i1 = i) by lia; subst i1);
      try (assert (Hw : j1 = j) by lia; subst j1);
      bool_arith; try exact Hr.
Qed.

Lemma buildOps_tiles (ctx : diffContext) (ops : list DiffOp) :
  buildOps ctx = Ok ops ->
  tilesFrom (len (xvec ctx)) (len (yvec ctx)) 0 0 ops = true.
Proof.
  unfold buildOps. apply buildOpsLoop_tiles; unfold len; lia.
Qed.

Lemma tilesFrom_app (n m : Z) (l1 : list DiffOp) :
  forall (i j i' j' : Z) (l2 : list DiffOp),
    tilesFrom i' j' i j l1 = true ->
    tilesFrom n m i' j' l2 = true ->
    tilesFrom n m i j (l1 ++ l2) = true.
Proof.
  induction l1 as [|op l1 IH]; intros i j i' j' l2 H1 H2; simpl in *.
  - apply andb_true_iff in H1. destruct H1 as [Ha Hb].
    apply Z.eqb_eq in Ha. apply Z.eqb_eq in Hb. subst. exact H2.
  - apply andb_true_iff in H1. destruct H1 as [H1 Hrest].
    rewrite H1. simpl. eapply IH; eassumption.
Qed.

(** The shape an op of a tiling has: an Equal op covers as much of A as
    of B, a Delete nothing of B, an Insert nothing of A. *)
Definition shapeOk (op : DiffOp) : Prop :=
  AStart op <= AEnd op /\ BStart op <= BEnd op /\
  match Type_ op with
  | OpEqual => AEnd op - AStart op = BEnd op - BStart op
  | OpDelete => BStart op = BEnd op
  | OpInsert => AStart op = AEnd op
  end.

Lemma tilesFrom_cons (n m i j : Z) (op : DiffOp) (rest : list DiffOp) :
  tilesFrom n m i j (op :: rest) = true <->
  AStart op = i /\ BStart op = j /\ shapeOk op /\
  tilesFrom n m (AEnd op) (BEnd op) rest = true.
Proof.
  unfold shapeOk. cbn [tilesFrom].
  rewrite !andb_true_iff, !Z.eqb_eq, !Z.leb_le.
  destruct (Type_ op); rewrite Z.eqb_eq; tauto.
Qed.

Lemma tilesFrom_nil (n m i j : Z) :
  tilesFrom n m i j [] = true <-> i = n /\ j = m.
Proof.
  cbn [tilesFrom]. rewrite andb_true_iff, !Z.eqb_eq. tauto.
Qed.

(** Merging keeps a tiling. *)
Lemma mergeFrom_tiles (n m : Z) (rest : list DiffOp) :
  forall (current : DiffOp) (i j : Z),
    tilesFrom n m i j (current :: rest) = true ->
    tilesFrom n m i j (mergeFrom current rest) = true.
Proof.
  induction rest as [|op rest IH]; intros current i j H; [exact H|].
  simpl. destruct (canMerge current op) eqn:E.
  - apply IH.
    unfold canMerge in E. rewrite !andb_true_iff, !Z.eqb_eq in E.
    destruct E as [[E1 E2] E3].
    apply tilesFrom_cons in H. destruct H as (Hi & Hj & Hs & H).
    apply tilesFrom_cons in H. destruct H as (_ & _ & Hs' & H).
    apply tilesFrom_cons. unfold shapeOk in *.
    cbn [extendOp Type_ AStart AEnd BStart BEnd].
    destruct (Type_ current) eqn:Tc; destruct (Type_ op) eqn:To;
      try discriminate; (repeat split; [lia ..| exact H]).
  - apply tilesFrom_cons in H. destruct H as (Hi & Hj & Hs & H).
    apply tilesFrom_cons. split; [exact Hi|]. split; [exact Hj|].
    split; [exact Hs|]. apply IH. exact H.
Qed.

Lemma mergeAdjacentOps_tiles (n m i j : Z) (ops : list DiffOp) :
  tilesFrom n m i j ops = true -> tilesFrom n m i j (mergeAdjacentOps ops) = true.
Proof.
  destruct ops as [|c rest]; [auto | apply mergeFrom_tiles].
Qed.

(** *** Index maps produced by the filter *)

(** Strictly increasing, with every entry in [lo, hi). *)
Fixpoint increasing (lo hi : Z) (l : list Z) : Prop :=
  match l with
  | [] => True
  | v :: t => lo <= v < hi /\ increasing (v + 1) hi t
  end.

Lemma increasing_weaken (l : list Z) :
  forall lo lo' hi, lo' <= lo -> increasing lo hi l -> increasing lo' hi l.
Proof.
  destruct l as [|v t]; intros lo lo' hi Hl H; simpl in *; [exact I|].
  destruct H as [Hv Ht]. split; [lia | exact Ht].
Qed.

Lemma filterSequenceFrom_spec (elems : list Element) (classes rest : list elementClass) :
  forall (i : Z) (r : list Element) (t : list Z),
    filterSequenceFrom elems classes rest i = Ok (r, t) ->
    len r = len t /\ increasing i (i + len rest) t.
Proof.
  induction rest as [|class rest IH]; intros i r t H; simpl in H.
  - inversion H; subst. split; [reflexivity | exact I].
  - apply bind_Ok in H. destruct H as (emit & _ & H).
    apply bind_Ok in H. destruct H as (here & Ha0 & H).
    apply bind_Ok in H. destruct H as ([r' t'] & Ha1 & H).
    inversion H; subst; clear H.
    apply IH in Ha1. destruct Ha1 as [Hlen Hinc].
    assert (Hl : len (class :: rest) = 1 + len rest).
    { unfold len. simpl List.length. lia. }
    rewrite Hl.
    replace (i + 1 + len rest) with (i + (1 + len rest)) in Hinc by lia.
    destruct emit.
    + bind_inv Ha0. inversion Ha0; subst; clear Ha0. simpl.
      split.
      * unfold len in *. simpl List.length. lia.
      * split; [|exact Hinc]. unfold len. lia.
    + inversion Ha0; subst; clear Ha0. simpl.
      split; [exact Hlen|].
      eapply increasing_weaken; [|exact Hinc]. lia.
Qed.

Lemma filterSequence_spec (elems : list Element) (classes : list elementClass)
      (r : list Element) (t : list Z) :
  filterSequence elems classes = Ok (r, t) ->
  len r = len t /\ increasing 0 (len classes) t.
Proof.
  intro H. apply filterSequenceFrom_spec in H. exact H.
Qed.

Lemma increasing_nth (l : list Z) :
  forall (lo hi : Z) (k : nat) (v : Z),
    increasing lo hi l -> nth_error l k = Some v ->
    lo + Z.of_nat k <= v < hi.
Proof.
  induction l as [|x l IH]; intros lo hi k v H Hn.
  - destruct k; discriminate.
  - destruct H as [Hx Hl]. destruct k as [|k]; simpl in Hn.
    + inversion Hn; subst. lia.
    + specialize (IH _ _ _ _ Hl Hn). lia.
Qed.

Lemma increasing_nth_lt (l : list Z) :
  forall (lo hi : Z) (k k' : nat) (v v' : Z),
    increasing lo hi l ->
    nth_error l k = Some v -> nth_error l k' = Some v' ->
    (k < k')%nat -> v < v'.
Proof.
  induction l as [|x l IH]; intros lo hi k k' v v' H Hn Hn' Hlt.
  - destruct k; discriminate.
  - destruct H as [Hx Hl]. destruct k' as [|k']; [lia|].
    simpl in Hn'. destruct k as [|k]; simpl in Hn.
    + inversion Hn; subst.
      pose proof (increasing_nth _ _ _ _ _ Hl Hn'). lia.
    + eapply IH; eauto. lia.
Qed.

(** The original-side cursor [pos] has not passed any entry of the map
    from filtered index [i] on. *)
Definition ahead (toOrig : list Z) (orig i pos : Z) : Prop :=
  pos <= orig /\ forall k v, i <= k -> idx toOrig k = Ok v -> pos <= v.

Lemma ahead_init (toOrig : list Z) (orig : Z) :
  0 <= orig -> increasing 0 orig toOrig -> ahead toOrig orig 0 0.
Proof.
  intros Ho Hinc. split; [exact Ho|].
  intros k v _ Hk. apply idx_Ok in Hk. destruct Hk as [_ Hn].
  pose proof (increasing_nth _ _ _ _ _ Hinc Hn). lia.
Qed.

Lemma ahead_step (toOrig : list Z) (orig i v : Z) :
  increasing 0 orig toOrig -> idx toOrig i = Ok v ->
  ahead toOrig orig (i + 1) (v + 1).
Proof.
  intros Hinc Hi. apply idx_Ok in Hi. destruct Hi as [Hr Hn].
  split.
  - pose proof (increasing_nth _ _ _ _ _ Hinc Hn). lia.
  - intros k w Hk Hw. apply idx_Ok in Hw. destruct Hw as [Hr' Hn'].
    assert (v < w); [|lia].
    eapply increasing_nth_lt; [exact Hinc | exact Hn | exact Hn' | lia].
Qed.

Lemma ahead_here (toOrig : list Z) (orig i pos v : Z) :
  ahead toOrig orig i pos -> idx toOrig i = Ok v -> pos <= v.
Proof.
  intros [_ H] Hi. apply (H i v); [lia | exact Hi].
Qed.

Section MapOpsTiles.

Variable mp : indexMapping.
Hypothesis incA : increasing 0 (origN mp) (aToOrig mp).
Hypothesis incB : increasing 0 (origM mp) (bToOrig mp).

Lemma mapEqualRun_tiles (op : DiffOp) (cnt : nat) :
  forall (i aPos bPos : Z) (out : list DiffOp) (aPos' bPos' : Z),
    i <= AEnd op -> cnt = Z.to_nat (AEnd op - i) ->
    ahead (aToOrig mp) (origN mp) i aPos ->
    ahead (bToOrig mp) (origM mp) (BStart op + (i - AStart op)) bPos ->
    mapEqualRun mp cnt op i aPos bPos = Ok (out, aPos', bPos') ->
    tilesFrom aPos' bPos' aPos bPos out = true
    /\ ahead (aToOrig mp) (origN mp) (AEnd op) aPos'
    /\ ahead (bToOrig mp) (origM mp) (BStart op + (AEnd op - AStart op)) bPos'.
Proof.
  induction cnt as [|c IH]; intros i aPos bPos out aPos' bPos' Hi Hc HA HB H;
    simpl in H.
  - inversion H; subst. assert (i = AEnd op) by lia. subst i.
    split; [apply tilesFrom_nil; auto | auto].
  - destruct (i <? AEnd op) eqn:E; [|apply Z.ltb_ge in E; lia].
    apply Z.ltb_lt in E.
    apply bind_Ok in H. destruct H as (va & Hva & H).
    apply bind_Ok in H. destruct H as (vb & Hvb & H).
    apply bind_Ok in H. destruct H as ([[rest ap] bp] & Ha & H).
    inversion H; subst; clear H.
    pose proof (ahead_here _ _ _ _ _ HA Hva) as Hle.
    pose proof (ahead_here _ _ _ _ _ HB Hvb) as Hle'.
    apply IH in Ha; [|lia|lia|eapply ahead_step; eauto|].
    2:{ replace (BStart op + (i + 1 - AStart op))
          with (BStart op + (i - AStart op) + 1) by lia.
        eapply ahead_step; eauto. }
    destruct Ha as (Ht & HA' & HB').
    split; [|auto].
    destruct (aPos <? va) eqn:Ea; destruct (bPos <? vb) eqn:Eb;
      try apply Z.ltb_lt in Ea; try apply Z.ltb_ge in Ea;
      try apply Z.ltb_lt in Eb; try apply Z.ltb_ge in Eb;
      cbn [app];
      repeat (apply tilesFrom_cons; unfold shapeOk;
              cbn [Type_ AStart AEnd BStart BEnd];
              split; [lia|]; split; [lia|]; split; [lia|]);
      exact Ht.
Qed.

Ltac tile_step :=
  apply tilesFrom_cons; unfold shapeOk; cbn [Type_ AStart AEnd BStart BEnd];
  split; [lia|]; split; [lia|]; split; [lia|].

Lemma mapDeleteRun_tiles (op : DiffOp) (cnt : nat) :
  forall (i aPos bPos : Z) (out : list DiffOp) (aPos' bPos' : Z),
    i <= AEnd op -> cnt = Z.to_nat (AEnd op - i) ->
    ahead (aToOrig mp) (origN mp) i aPos ->
    mapDeleteRun mp cnt op i aPos bPos = Ok (out, aPos', bPos') ->
    tilesFrom aPos' bPos' aPos bPos out = true
    /\ ahead (aToOrig mp) (origN mp) (AEnd op) aPos'
    /\ bPos' = bPos.
Proof.
  induction cnt as [|c IH]; intros i aPos bPos out aPos' bPos' Hi Hc HA H;
    simpl in H.
  - inversion H; subst. assert (i = AEnd op) by lia. subst i.
    split; [apply tilesFrom_nil; auto | auto].
  - destruct (i <? AEnd op) eqn:E; [|apply Z.ltb_ge in E; lia].
    apply Z.ltb_lt in E.
    apply bind_Ok in H. destruct H as (va & Hva & H).
    apply bind_Ok in H. destruct H as ([[rest ap] bp] & Ha & H).
    inversion H; subst; clear H.
    pose proof (ahead_here _ _ _ _ _ HA Hva) as Hle.
    apply IH in Ha; [|lia|lia|eapply ahead_step; eauto].
    destruct Ha as (Ht & HA' & HB'). subst bPos'.
    split; [|auto].
    destruct (aPos <? va) eqn:Ea;
      try apply Z.ltb_lt in Ea; try apply Z.ltb_ge in Ea;
      cbn [app]; repeat tile_step; exact Ht.
Qed.

Lemma mapInsertRun_tiles (op : DiffOp) (cnt : nat) :
  forall (i aPos bPos : Z) (out : list DiffOp) (aPos' bPos' : Z),
    i <= BEnd op -> cnt = Z.to_nat (BEnd op - i) ->
    ahead (bToOrig mp) (origM mp) i bPos ->
    mapInsertRun mp cnt op i aPos bPos = Ok (out, aPos', bPos') ->
    tilesFrom aPos' bPos' aPos bPos out = true
    /\ ahead (bToOrig mp) (origM mp) (BEnd op) bPos'
    /\ aPos' = aPos.
Proof.
  induction cnt as [|c IH]; intros i aPos bPos out aPos' bPos' Hi Hc HB H;
    simpl in H.
  - inversion H; subst. assert (i = BEnd op) by lia. subst i.
    split; [apply tilesFrom_nil; auto | auto].
  - destruct (i <? BEnd op) eqn:E; [|apply Z.ltb_ge in E; lia].
    apply Z.ltb_lt in E.
    apply bind_Ok in H. destruct H as (vb & Hvb & H).
    apply bind_Ok in H. destruct H as ([[rest ap] bp] & Ha & H).
    inversion H; subst; clear H.
    pose proof (ahead_here _ _ _ _ _ HB Hvb) as Hle.
    apply IH in Ha; [|lia|lia|eapply ahead_step; eauto].
    destruct Ha as (Ht & HB' & HA'). subst aPos'.
    split; [|auto].
    destruct (bPos <? vb) eqn:Eb;
      try apply Z.ltb_lt in Eb; try apply Z.ltb_ge in Eb;
      cbn [app]; repeat tile_step; exact Ht.
Qed.

(** The loop of [mapOps] turns a tiling of the filtered sequences into a
    chain of ops over the original ones, from its cursors at entry to its
    cursors at exit. *)
Lemma mapOpsLoop_tiles (ops : list DiffOp) :
  forall (n' m' fi fj aPos bPos : Z) (out : list DiffOp) (aPos' bPos' : Z),
    tilesFrom n' m' fi fj ops = true ->
    ahead (aToOrig mp) (origN mp) fi aPos ->
    ahead (bToOrig mp) (origM mp) fj bPos ->
    mapOpsLoop mp ops aPos bPos = Ok (out, aPos', bPos') ->
    tilesFrom aPos' bPos' aPos bPos out = true
    /\ aPos' <= origN mp /\ bPos' <= origM mp.
Proof.
  induction ops as [|op ops IH];
    intros n' m' fi fj aPos bPos out aPos' bPos' Ht HA HB H; simpl in H.
  - inversion H; subst. destruct HA as [HA _]. destruct HB as [HB _].
    split; [apply tilesFrom_nil; auto | auto].
  - apply tilesFrom_cons in Ht. destruct Ht as (Hfi & Hfj & Hs & Ht).
    destruct Hs as (Hs1 & Hs2 & Hs3). subst fi fj.
    apply bind_Ok in H. destruct H as ([[o1 a1] b1] & Hrun & H).
    apply bind_Ok in H. destruct H as ([[o2 a2] b2] & Hrest & H).
    inversion H; subst; clear H.
    destruct (Type_ op) eqn:Ty.
    + apply mapEqualRun_tiles in Hrun; [|lia|reflexivity|exact HA|].
      2:{ replace (BStart op + (AStart op - AStart op)) with (BStart op) by lia.
          exact HB. }
      destruct Hrun as (T1 & HA1 & HB1).
      replace (BStart op + (AEnd op - AStart op)) with (BEnd op) in HB1 by lia.
      destruct (IH _ _ _ _ _ _ _ _ _ Ht HA1 HB1 Hrest) as (T2 & Ha2 & Hb2).
      split; [|auto]. eapply tilesFrom_app; eassumption.
    + apply mapInsertRun_tiles in Hrun; [|lia|reflexivity|exact HB].
      destruct Hrun as (T1 & HB1 & ->).
      rewrite Hs3 in HA.
      destruct (IH _ _ _ _ _ _ _ _ _ Ht HA HB1 Hrest) as (T2 & Ha2 & Hb2).
      split; [|auto]. eapply tilesFrom_app; eassumption.
    + apply mapDeleteRun_tiles in Hrun; [|lia|reflexivity|exact HA].
      destruct Hrun as (T1 & HA1 & ->).
      rewrite Hs3 in HB.
      destruct (IH _ _ _ _ _ _ _ _ _ Ht HA1 HB Hrest) as (T2 & Ha2 & Hb2).
      split; [|auto]. eapply tilesFrom_app; eassumption.
Qed.

(** The element-by-element [mapOps] turns a tiling of the filtered
    sequences into a tiling of the original ones. *)
Lemma mapOps_tiles (n' m' : Z) (ops out : list DiffOp) :
  0 <= origN mp -> 0 <= origM mp ->
  tilesFrom n' m' 0 0 ops = true ->
  mapOps mp ops = Ok out ->
  tilesFrom (origN mp) (origM mp) 0 0 out = true.
Proof.
  intros Hn Hm Ht H. unfold mapOps in H.
  apply bind_Ok in H. destruct H as ([[o1 aPos] bPos] & Hloop & H).
  inversion H; subst; clear H.
  apply mapOpsLoop_tiles with (n' := n') (m' := m') (fi := 0) (fj := 0) in Hloop;
    [|exact Ht|apply ahead_init; assumption|apply ahead_init; assumption].
  destruct Hloop as (T1 & Ha & Hb).
  rewrite mergeOps_mergeAdjacentOps. apply mergeAdjacentOps_tiles.
  eapply tilesFrom_app; [exact T1|].
  destruct (aPos <? origN mp) eqn:Ea; destruct (bPos <? origM mp) eqn:Eb;
    try apply Z.ltb_lt in Ea; try apply Z.ltb_ge in Ea;
    try apply Z.ltb_lt in Eb; try apply Z.ltb_ge in Eb;
    cbn [app]; repeat tile_step; apply tilesFrom_nil; lia.
Qed.

End MapOpsTiles.

(** *** The recursion never touches the two input sequences *)

Definition sameInput (ctx ctx' : diffContext) : Prop :=
  xvec ctx' = xvec ctx /\ yvec ctx' = yvec ctx.

Lemma findMiddleSnakeExit_sameInput (ctx ctx' : diffContext)
      (xoff xlim yoff ylim : Z) (fm : bool) (e : searchExit) :
  findMiddleSnakeExit ctx xoff xlim yoff ylim fm = Ok (e, ctx') ->
  sameInput ctx ctx'.
Proof.
  unfold findMiddleSnakeExit, sameInput. intro H.
  destruct (xlim - xoff =? 0); [inversion H; auto|].
  destruct (ylim - yoff =? 0); [inversion H; auto|].
  do 3 bind_inv H.
  destruct a1 as [st|[p st]]; [|inversion H; auto].
  destruct (0 <? bestSnakeScore st); [inversion H; auto|].
  bind_inv H. inversion H; auto.
Qed.

Lemma compareSeq_sameInput (fuel : nat) :
  forall (ctx ctx' : diffContext) (xoff xlim yoff ylim : Z) (fm : bool),
    compareSeq fuel ctx xoff xlim yoff ylim fm = Ok ctx' ->
    sameInput ctx ctx'.
Proof.
  induction fuel as [|f IH]; intros ctx ctx' xoff xlim yoff ylim fm H; simpl in H;
    [discriminate|].
  bind_inv H. destruct a as [xoff' yoff'].
  bind_inv H. destruct a as [xlim' ylim'].
  destruct (xoff' =? xlim').
  { unfold markInserted in H. bind_inv H. inversion H; split; reflexivity. }
  destruct (yoff' =? ylim').
  { unfold markDeleted in H. bind_inv H. inversion H; split; reflexivity. }
  bind_inv H. destruct a as [part ctx1]. rename Ha1 into Hf.
  unfold findMiddleSnake in Hf. bind_inv Hf. destruct a as [e ctx1'].
  inversion Hf; subst. apply findMiddleSnakeExit_sameInput in Ha1.
  bind_inv H. rename a into ctx2.
  apply IH in Ha2. apply IH in H.
  unfold sameInput in *. intuition congruence.
Qed.

Lemma filterConfusingElements_spec (a b a' b' : list Element) (mp : indexMapping) :
  filterConfusingElements a b = Ok (a', b', Some mp) ->
  len a' = len (aToOrig mp) /\ len b' = len (bToOrig mp)
  /\ origN mp = len a /\ origM mp = len b
  /\ increasing 0 (origN mp) (aToOrig mp)
  /\ increasing 0 (origM mp) (bToOrig mp).
Proof.
  unfold filterConfusingElements. intro H.
  destruct ((len a =? 0) || (len b =? 0)); [discriminate|].
  cbv zeta in H.
  match type of H with
  | (if ?c then _ else _) = _ => destruct c; [discriminate|]
  end.
  apply bind_Ok in H. destruct H as ([fa ta] & Hfa & H).
  apply bind_Ok in H. destruct H as ([fb tb] & Hfb & H).
  destruct ((len fa =? 0) && (len fb =? 0)); [discriminate|].
  inversion H; subst; clear H. cbn [aToOrig bToOrig origN origM].
  apply filterSequence_spec in Hfa. apply filterSequence_spec in Hfb.
  destruct Hfa as [La Ia]. destruct Hfb as [Lb Ib].
  unfold len in Ia, Ib. rewrite List.length_map in Ia, Ib.
  repeat split; assumption.
Qed.

Lemma filterConfusingElements_None (a b a' b' : list Element) :
  filterConfusingElements a b = Ok (a', b', None) -> a' = a /\ b' = b.
Proof.
  unfold filterConfusingElements. intro H.
  destruct ((len a =? 0) || (len b =? 0)); [inversion H; auto|].
  cbv zeta in H.
  match type of H with
  | (if ?c then _ else _) = _ => destruct c; [inversion H; auto|]
  end.
  apply bind_Ok in H. destruct H as ([fa ta] & Hfa & H).
  apply bind_Ok in H. destruct H as ([fb tb] & Hfb & H).
  destruct ((len fa =? 0) && (len fb =? 0)); [inversion H; auto|discriminate].
Qed.

Lemma len_nonneg {A : Type} (l : list A) : 0 <= len l.
Proof. unfold len. lia. Qed.

(** X10.  With the boundary shifter switched off, every op list [DiffElements]
    returns tiles [0, |A|) x [0, |B|): the ops are contiguous, start at
    (0, 0), end at (|A|, |B|), each Equal op covers as much of A as of B,
    each Delete nothing of B and each Insert nothing of A. *)
Theorem unshifted_diff_tiles (fuel : nat) (a b : list Element)
        (opts : list Option_) (ops : list DiffOp) :
  postprocessing (applyOptions opts) = false ->
  DiffElements fuel a b opts = Ok ops ->
  tilesFrom (len a) (len b) 0 0 ops = true.
Proof.
  intros Hpost H. unfold DiffElements, DiffElementsWith in H.
  cbv zeta in H. rewrite Hpost in H.
  pose proof (len_nonneg a) as Hna. pose proof (len_nonneg b) as Hnb.
  destruct ((len a =? 0) && (len b =? 0)) eqn:E0.
  { apply andb_true_iff in E0. destruct E0 as [Ea Eb].
    apply Z.eqb_eq in Ea. apply Z.eqb_eq in Eb.
    inversion H; subst. rewrite Ea, Eb. reflexivity. }
  destruct (len a =? 0) eqn:Ea.
  { apply Z.eqb_eq in Ea. inversion H; subst. rewrite Ea.
    apply tilesFrom_cons. unfold shapeOk. cbn [Type_ AStart AEnd BStart BEnd].
    repeat split; try lia. apply tilesFrom_nil. auto. }
  destruct (len b =? 0) eqn:Eb.
  { apply Z.eqb_eq in Eb. inversion H; subst. rewrite Eb.
    apply tilesFrom_cons. unfold shapeOk. cbn [Type_ AStart AEnd BStart BEnd].
    repeat split; try lia. apply tilesFrom_nil. auto. }
  apply Z.eqb_neq in Ea. apply Z.eqb_neq in Eb.
  apply bind_Ok in H. destruct H as ([[[a' b'] mapping] ctx] & Hpre & H).
  apply bind_Ok in H. destruct H as (ctx' & Hcmp & H).
  apply bind_Ok in H. destruct H as (raw & Hraw & H).
  apply bind_Ok in H. destruct H as (mapped & Hmap & H).
  inversion H; subst; clear H.
  apply buildOps_tiles in Hraw.
  assert (Hctx : (0 <? len a') || (0 <? len b') = true ->
                 xvec ctx = a' /\ yvec ctx = b').
  { intro Hc. destruct (preprocessing (applyOptions opts)).
    - apply bind_Ok in Hpre. destruct Hpre as ([[fa fb] mp] & Hf & Hpre).
      inversion Hpre; subst; clear Hpre. rewrite Hc. split; reflexivity.
    - inversion Hpre; subst; clear Hpre. split; reflexivity. }
  destruct mapping as [mp|].
  - (* the filter removed elements *)
    destruct (preprocessing (applyOptions opts)); [|discriminate].
    apply bind_Ok in Hpre. destruct Hpre as ([[fa fb] mp'] & Hf & Hpre).
    inversion Hpre; subst; clear Hpre.
    apply filterConfusingElements_spec in Hf.
    destruct Hf as (La & Lb & Hn & Hm & Ia & Ib).
    rewrite <- Hn, <- Hm.
    eapply mapOps_tiles; [exact Ia | exact Ib | lia | lia | exact Hraw | exact Hmap].
  - inversion Hmap; subst; clear Hmap.
    assert (Hab : a' = a /\ b' = b).
    { destruct (preprocessing (applyOptions opts)).
      - apply bind_Ok in Hpre. destruct Hpre as ([[fa fb] mp'] & Hf & Hpre).
        inversion Hpre; subst; clear Hpre.
        apply filterConfusingElements_None in Hf. exact Hf.
      - inversion Hpre; subst; auto. }
    destruct Hab; subst a' b'.
    assert (Hc : (0 <? len a) || (0 <? len b) = true).
    { apply orb_true_iff. left. apply Z.ltb_lt. lia. }
    destruct (Hctx Hc) as [Hx Hy].
    rewrite Hc in Hcmp. apply compareSeq_sameInput in Hcmp.
    destruct Hcmp as [Hx' Hy'].
    rewrite Hx', Hy', Hx, Hy in Hraw. exact Hraw.
Qed.

(* ===================================================================== *)
(** ** Elements                                                          *)
(* ===================================================================== *)

(** X1.  Equal elements have equal hashes. *)
Theorem Equal_implies_same_Hash (x y : Element) :
  Equal x y = true -> Hash x = Hash y.
Proof.
  destruct x as [s|i nm]; destruct y as [t|j nm']; simpl; try discriminate.
  - intro H. apply String.eqb_eq in H. subst. reflexivity.
  - intro H. apply Z.eqb_eq in H. subst. reflexivity.
Qed.

Lemma Equal_implies_same_Hash_witness :
  Equal (CustomElement 2 "Bob") (CustomElement 2 "Robert") = true
  /\ Hash (CustomElement 2 "Bob") = Hash (CustomElement 2 "Robert").
Proof.
  split; [reflexivity|].
  exact (Equal_implies_same_Hash (CustomElement 2 "Bob") (CustomElement 2 "Robert")
           eq_refl).
Defined.

Lemma Equal_refl (x : Element) : Equal x x = true.
Proof.
  destruct x; simpl; [apply String.eqb_refl | apply Z.eqb_refl].
Qed.

Lemma Equal_sym (x y : Element) : Equal x y = Equal y x.
Proof.
  destruct x; destruct y; simpl; try reflexivity;
    [apply String.eqb_sym | apply Z.eqb_sym].
Qed.

Lemma Equal_trans (x y z : Element) :
  Equal x y = true -> Equal y z = true -> Equal x z = true.
Proof.
  destruct x; destruct y; destruct z; simpl; try discriminate; intros H1 H2.
  - apply String.eqb_eq in H1. apply String.eqb_eq in H2. subst.
    apply String.eqb_refl.
  - apply Z.eqb_eq in H1. apply Z.eqb_eq in H2. subst. apply Z.eqb_refl.
Qed.

(** X2.  [Equal] is an equivalence on the elements, and it never relates a
    [StringElement] to an element of another type. *)
Theorem Equal_equivalence :
  (forall x, Equal x x = true)
  /\ (forall x y, Equal x y = Equal y x)
  /\ (forall x y z, Equal x y = true -> Equal y z = true -> Equal x z = true)
  /\ (forall s t, Equal (StringElement s) (StringElement t) = true <-> s = t).
Proof.
  split; [exact Equal_refl|]. split; [exact Equal_sym|].
  split; [exact Equal_trans|].
  intros s t. simpl. apply String.eqb_eq.
Qed.

(* ===================================================================== *)
(** ** The integer square root                                           *)
(* ===================================================================== *)

Lemma newton_step_lower (n x : Z) :
  0 < n -> 0 < x -> Z.sqrt n <= (x + n / x) / 2.
Proof.
  intros Hn Hx.
  pose proof (Z.sqrt_spec n ltac:(lia)) as Hs.
  pose proof (Z.sqrt_nonneg n) as Hs0.
  set (s := Z.sqrt n) in *.
  set (q := n / x).
  assert (Hq : x * q <= n < x * (q + 1)).
  { unfold q. pose proof (Z.mul_div_le n x Hx).
    pose proof (Z.mul_succ_div_gt n x Hx). lia. }
  assert (Hq0 : 0 <= q) by (unfold q; apply Z.div_pos; lia).
  apply Z.div_le_lower_bound; [lia|].
  destruct (Z_lt_le_dec (x + q) (2 * s)) as [Hlt|]; [|lia].
  exfalso.
  assert (H1 : 4 * (x * (q + 1)) <= (x + q + 1) * (x + q + 1)).
  { pose proof (Z.square_nonneg (x - q - 1)). lia. }
  assert (H2 : (x + q + 1) * (x + q + 1) <= (2 * s) * (2 * s)).
  { apply Z.mul_le_mono_nonneg; lia. }
  unfold Z.succ in Hs. lia.
Qed.

Lemma newton_stop (n x : Z) :
  0 < n -> 0 < x -> x <= (x + n / x) / 2 -> x <= Z.sqrt n.
Proof.
  intros Hn Hx Hy.
  pose proof (Z.sqrt_spec n ltac:(lia)) as Hs.
  pose proof (Z.sqrt_nonneg n) as Hs0.
  set (s := Z.sqrt n) in *.
  set (q := n / x) in *.
  assert (Hq : x * q <= n).
  { unfold q. apply Z.mul_div_le. lia. }
  assert (H2 : 2 * x <= x + q).
  { pose proof (Z.mul_div_le (x + q) 2 ltac:(lia)). lia. }
  unfold Z.succ in Hs. nia.
Qed.

Lemma isqrtLoop_spec (cnt : nat) :
  forall n x : Z,
    0 < n -> 0 < x -> Z.sqrt n <= x -> x - Z.sqrt n <= Z.of_nat cnt ->
    isqrtLoop cnt n x (Z.quot (x + Z.quot n x) 2) = Z.sqrt n.
Proof.
  induction cnt as [|c IH]; intros n x Hn Hx Hs Hc; simpl.
  - lia.
  - assert (Hq : Z.quot n x = n / x) by (apply Z.quot_div_nonneg; lia).
    assert (Hq0 : 0 <= n / x) by (apply Z.div_pos; lia).
    rewrite Hq.
    assert (Hy : Z.quot (x + n / x) 2 = (x + n / x) / 2)
      by (apply Z.quot_div_nonneg; lia).
    rewrite Hy.
    pose proof (newton_step_lower n x Hn Hx) as Hlow.
    assert (Hs1 : 1 <= Z.sqrt n).
    { pose proof (Z.sqrt_pos n). lia. }
    destruct ((x + n / x) / 2 <? x) eqn:E.
    + apply Z.ltb_lt in E. apply IH; lia.
    + apply Z.ltb_ge in E. pose proof (newton_stop n x Hn Hx E). lia.
Qed.

Lemma isqrt_sqrt (n : Z) : isqrt n = Z.sqrt n.
Proof.
  unfold isqrt.
  destruct (n <=? 0) eqn:E0.
  - apply Z.leb_le in E0. symmetry.
    destruct (Z.eq_dec n 0) as [->|Hne]; [reflexivity|].
    apply Z.sqrt_neg. lia.
  - apply Z.leb_gt in E0.
    destruct (n =? 1) eqn:E1.
    + apply Z.eqb_eq in E1. subst. reflexivity.
    + apply Z.eqb_neq in E1.
      replace (Z.quot (n + 1) 2) with (Z.quot (n + Z.quot n n) 2).
      * apply isqrtLoop_spec; try lia.
        -- apply Z.sqrt_le_lin. lia.
        -- pose proof (Z.sqrt_nonneg n). lia.
      * rewrite Z.quot_same by lia. reflexivity.
Qed.

Lemma wrap64_small (z : Z) : - 2 ^ 63 <= z < 2 ^ 63 -> wrap64 z = z.
Proof.
  intro H. unfold wrap64. rewrite Z.mod_small; lia.
Qed.

Lemma newton_sum_bound (n x : Z) : 0 < x <= n -> x + n / x <= n + 1.
Proof.
  intros [Hx Hn].
  assert (n / x <= n + 1 - x); [|lia].
  apply Z.div_le_upper_bound; [lia|]. nia.
Qed.

Lemma isqrtLoop64_isqrtLoop (cnt : nat) :
  forall n x : Z,
    0 < n <= 2 ^ 63 - 2 -> 0 < x <= n -> Z.sqrt n <= x ->
    isqrtLoop64 cnt n x (Z.quot (x + Z.quot n x) 2)
    = isqrtLoop cnt n x (Z.quot (x + Z.quot n x) 2).
Proof.
  induction cnt as [|c IH]; intros n x Hn Hx Hs; simpl; [reflexivity|].
  assert (Hq : Z.quot n x = n / x) by (apply Z.quot_div_nonneg; lia).
  assert (Hq0 : 0 <= n / x) by (apply Z.div_pos; lia).
  rewrite Hq.
  assert (Hy : Z.quot (x + n / x) 2 = (x + n / x) / 2)
    by (apply Z.quot_div_nonneg; lia).
  rewrite Hy.
  pose proof (newton_step_lower n x ltac:(lia) ltac:(lia)) as Hlow.
  assert (Hs1 : 1 <= Z.sqrt n).
  { pose proof (Z.sqrt_pos n). lia. }
  set (y := (x + n / x) / 2) in *.
  destruct (y <? x) eqn:E; [|reflexivity].
  apply Z.ltb_lt in E.
  assert (Hyn : 0 < y <= n) by lia.
  pose proof (newton_sum_bound n y Hyn) as Hb.
  assert (Hqy : Z.quot n y = n / y) by (apply Z.quot_div_nonneg; lia).
  assert (Hqy0 : 0 <= n / y) by (apply Z.div_pos; lia).
  rewrite wrap64_small by (rewrite Hqy; lia).
  apply IH; lia.
Qed.

(** X3.  The Newton iteration computes the integer square root, and none of its
    additions overflows a 64-bit [int]. *)
Theorem isqrt_floor_sqrt (n : Z) :
  n <= 2 ^ 63 - 2 -> isqrt64 n = isqrt n /\ isqrt n = Z.sqrt n.
Proof.
  intro Hn. split; [|apply isqrt_sqrt].
  unfold isqrt64, isqrt.
  destruct (n <=? 0) eqn:E0; [reflexivity|]. apply Z.leb_gt in E0.
  destruct (n =? 1) eqn:E1; [reflexivity|].
  rewrite wrap64_small by lia.
  replace (Z.quot (n + 1) 2) with (Z.quot (n + Z.quot n n) 2)
    by (rewrite Z.quot_same by lia; reflexivity).
  apply isqrtLoop64_isqrtLoop; try lia.
  apply Z.sqrt_le_lin. lia.
Qed.

Lemma isqrt_floor_sqrt_witness :
  10 <= 2 ^ 63 - 2 /\ isqrt64 10 = isqrt 10 /\ isqrt 10 = 3.
Proof.
  split; [lia|]. exact (isqrt_floor_sqrt 10 ltac:(lia)).
Defined.

(* ===================================================================== *)
(** ** Statistics over an op list                                        *)
(* ===================================================================== *)




(* ===================================================================== *)
(** ** Slices, merging and applying an op list                           *)
(* ===================================================================== *)

(** *** Slices *)

Lemma firstn_plus {A : Type} (n m : nat) :
  forall l : list A, firstn (n + m) l = firstn n l ++ firstn m (skipn n l).
Proof.
  induction n as [|n IH]; intro l; [reflexivity|].
  destruct l as [|x l]; simpl.
  - rewrite firstn_nil. reflexivity.
  - rewrite IH. reflexivity.
Qed.

Lemma slice_Ok {A : Type} (l : list A) (lo hi : Z) (r : list A) :
  slice l lo hi = Ok r ->
  0 <= lo <= hi /\ hi <= len l
  /\ r = firstn (Z.to_nat (hi - lo)) (skipn (Z.to_nat lo) l).
Proof.
  unfold slice. intro H.
  destruct (lo <? 0) eqn:E1; [discriminate|].
  destruct (hi <? lo) eqn:E2; [discriminate|].
  destruct (len l <? hi) eqn:E3; [discriminate|].
  simpl in H. inversion H.
  apply Z.ltb_ge in E1. apply Z.ltb_ge in E2. apply Z.ltb_ge in E3.
  split; [lia|]. split; [lia|]. reflexivity.
Qed.

Lemma slice_in_range {A : Type} (l : list A) (lo hi : Z) :
  0 <= lo <= hi -> hi <= len l ->
  slice l lo hi = Ok (firstn (Z.to_nat (hi - lo)) (skipn (Z.to_nat lo) l)).
Proof.
  intros H1 H2. unfold slice.
  destruct (lo <? 0) eqn:E1; [lia|].
  destruct (hi <? lo) eqn:E2; [lia|].
  destruct (len l <? hi) eqn:E3; [lia|]. reflexivity.
Qed.

Lemma slice_app {A : Type} (l : list A) (lo mid hi : Z) (x y : list A) :
  slice l lo mid = Ok x -> slice l mid hi = Ok y ->
  slice l lo hi = Ok (x ++ y).
Proof.
  intros H1 H2.
  apply slice_Ok in H1. destruct H1 as (R1 & R1' & ->).
  apply slice_Ok in H2. destruct H2 as (R2 & R2' & ->).
  rewrite slice_in_range by lia. f_equal.
  replace (Z.to_nat (hi - lo)) with (Z.to_nat (mid - lo) + Z.to_nat (hi - mid))%nat
    by lia.
  rewrite firstn_plus. f_equal. rewrite skipn_skipn. f_equal. f_equal. lia.
Qed.

Lemma slice_length {A : Type} (l : list A) (lo hi : Z) (r : list A) :
  slice l lo hi = Ok r -> len r = hi - lo.
Proof.
  intro H. apply slice_Ok in H. destruct H as (R1 & R2 & ->).
  unfold len in *. rewrite length_firstn, length_skipn. lia.
Qed.

Lemma slice_full {A : Type} (l : list A) : slice l 0 (len l) = Ok l.
Proof.
  rewrite slice_in_range by (unfold len; lia).
  f_equal. simpl. rewrite Z.sub_0_r. unfold len. rewrite Nat2Z.id.
  apply firstn_all.
Qed.

Lemma slice_single {A : Type} (l : list A) (i : Z) (x : A) :
  idx l i = Ok x -> slice l i (i + 1) = Ok [x].
Proof.
  intro H. apply idx_Ok in H. destruct H as [Hr Hn].
  rewrite slice_in_range by lia. f_equal.
  replace (Z.to_nat (i + 1 - i)) with 1%nat by lia.
  destruct (skipn (Z.to_nat i) l) as [|y t] eqn:E.
  - pose proof (hd_error_skipn (Z.to_nat i) l) as Hh.
    rewrite E, Hn in Hh. discriminate.
  - pose proof (hd_error_skipn (Z.to_nat i) l) as Hh.
    rewrite E, Hn in Hh. simpl in Hh. inversion Hh. reflexivity.
Qed.

(** *** Merging and [applyDiff] *)

Lemma mergeFrom_applyDiff (a b : list Element) (rest : list DiffOp) :
  forall (current : DiffOp) (r : list Element),
    applyDiff a b (current :: rest) = Ok r ->
    applyDiff a b (mergeFrom current rest) = Ok r.
Proof.
  induction rest as [|op rest IH]; intros current r H; [exact H|].
  simpl mergeFrom. destruct (canMerge current op) eqn:E.
  - apply IH.
    unfold canMerge in E. rewrite !andb_true_iff, !Z.eqb_eq in E.
    destruct E as [[E1 E2] E3].
    cbn [applyDiff] in H.
    apply bind_Ok in H. destruct H as (h1 & Hh1 & H).
    apply bind_Ok in H. destruct H as (m1 & Hm1 & H).
    inversion H; subst r; clear H.
    apply bind_Ok in Hm1. destruct Hm1 as (h2 & Hh2 & Hm1).
    apply bind_Ok in Hm1. destruct Hm1 as (m2 & Hm2 & Hm1).
    inversion Hm1; subst m1; clear Hm1.
    cbn [applyDiff extendOp Type_ AStart AEnd BStart BEnd].
    rewrite Hm2.
    assert (Hx : match Type_ current with
                 | OpEqual => slice a (AStart current) (AEnd op)
                 | OpInsert => slice b (BStart current) (BEnd op)
                 | OpDelete => Ok []
                 end = Ok (h1 ++ h2)).
    { destruct (Type_ current) eqn:Tc; destruct (Type_ op) eqn:To;
        try discriminate.
      - rewrite E2 in Hh1. eapply slice_app; eassumption.
      - rewrite E3 in Hh1. eapply slice_app; eassumption.
      - inversion Hh1; inversion Hh2; reflexivity. }
    rewrite Hx. cbn [bind]. rewrite app_assoc. reflexivity.
  - cbn [applyDiff] in H. cbn [applyDiff].
    apply bind_Ok in H. destruct H as (h1 & Hh1 & H).
    apply bind_Ok in H. destruct H as (m1 & Hm1 & H).
    inversion H; subst r; clear H.
    rewrite Hh1. cbn [bind]. rewrite (IH _ _ Hm1). reflexivity.
Qed.

(** X16.  Merging adjacent ops changes nothing for whoever applies them: when
    [applyDiff] succeeds on an op list, it gives the same sequence on the
    merged list. *)
Theorem mergeAdjacentOps_keeps_applyDiff
        (a b : list Element) (ops : list DiffOp) (r : list Element) :
  applyDiff a b ops = Ok r -> applyDiff a b (mergeAdjacentOps ops) = Ok r.
Proof.
  destruct ops as [|c rest]; [auto | apply mergeFrom_applyDiff].
Qed.

Lemma mergeAdjacentOps_keeps_applyDiff_witness :
  applyDiff (toElements ["a"; "b"; "c"]%string) (toElements ["a"; "b"; "x"]%string)
    [mkOp OpEqual 0 1 0 1; mkOp OpEqual 1 2 1 2; mkOp OpDelete 2 3 2 2;
     mkOp OpInsert 3 3 2 3]
  = Ok (toElements ["a"; "b"; "x"]%string)
  /\ applyDiff (toElements ["a"; "b"; "c"]%string) (toElements ["a"; "b"; "x"]%string)
       (mergeAdjacentOps
          [mkOp OpEqual 0 1 0 1; mkOp OpEqual 1 2 1 2; mkOp OpDelete 2 3 2 2;
           mkOp OpInsert 3 3 2 3])
     = Ok (toElements ["a"; "b"; "x"]%string).
Proof.
  split; [reflexivity|].
  exact (mergeAdjacentOps_keeps_applyDiff
           (toElements ["a"; "b"; "c"]%string) (toElements ["a"; "b"; "x"]%string)
           [mkOp OpEqual 0 1 0 1; mkOp OpEqual 1 2 1 2; mkOp OpDelete 2 3 2 2;
            mkOp OpInsert 3 3 2 3]
           (toElements ["a"; "b"; "x"]%string) eq_refl).
Defined.

Lemma mergeFrom_length (rest : list DiffOp) :
  forall current, (List.length (mergeFrom current rest) <= S (List.length rest))%nat.
Proof.
  induction rest as [|op rest IH]; intro current; simpl; [lia|].
  destruct (canMerge current op); simpl.
  - specialize (IH (extendOp current op)). lia.
  - specialize (IH op). lia.
Qed.

(** X15.  [mergeAdjacentOps] is a normaliser: its output has no two neighbours
    that could be merged, it is never longer than its input, it leaves an
    already merged list alone (so it is idempotent), and it keeps a tiling. *)
Theorem mergeAdjacentOps_normalises (ops : list DiffOp) :
  canonical (mergeAdjacentOps ops)
  /\ (List.length (mergeAdjacentOps ops) <= List.length ops)%nat
  /\ mergeAdjacentOps (mergeAdjacentOps ops) = mergeAdjacentOps ops
  /\ (canonical ops <-> mergeAdjacentOps ops = ops)
  /\ (forall n m i j, tilesFrom n m i j ops = true ->
                      tilesFrom n m i j (mergeAdjacentOps ops) = true).
Proof.
  split; [apply mergeAdjacentOps_canonical|].
  split.
  { destruct ops as [|c rest]; simpl; [lia | apply mergeFrom_length]. }
  split; [apply mergeAdjacentOps_idempotent|].
  split; [split; [apply canonical_fixed | apply fixed_canonical]|].
  intros n m i j. apply mergeAdjacentOps_tiles.
Qed.

(** *** Tiling and valid Equal ops give reconstruction *)

Lemma Equal_StringElement (s : string) (y : Element) :
  Equal (StringElement s) y = true -> y = StringElement s.
Proof.
  destruct y as [t|]; simpl; [|discriminate].
  intro H. apply String.eqb_eq in H. subst. reflexivity.
Qed.

Lemma idx_toElements (l : list string) (i : Z) (x : Element) :
  idx (toElements l) i = Ok x -> exists s, x = StringElement s.
Proof.
  intro H. apply idx_Ok in H. destruct H as [_ Hn].
  unfold toElements in Hn. rewrite nth_error_map in Hn.
  destruct (nth_error l (Z.to_nat i)); [|discriminate].
  inversion Hn. eauto.
Qed.

Lemma equalSlices_slices (a : list string) (b : list Element) (cnt : nat) :
  forall i j : Z,
    0 <= i <= len (toElements a) -> 0 <= j <= len b ->
    equalSlices (toElements a) b cnt i j = true ->
    exists r, slice (toElements a) i (i + Z.of_nat cnt) = Ok r
              /\ slice b j (j + Z.of_nat cnt) = Ok r.
Proof.
  induction cnt as [|c IH]; intros i j Hi Hj H.
  - exists []. rewrite !Z.add_0_r.
    rewrite !slice_in_range by lia. rewrite !Z.sub_diag. auto.
  - simpl in H.
    destruct (idx (toElements a) i) as [x| |] eqn:Ex; try discriminate.
    destruct (idx b j) as [y| |] eqn:Ey; try discriminate.
    apply andb_true_iff in H. destruct H as [He Hrest].
    destruct (idx_toElements _ _ _ Ex) as [s ->].
    apply Equal_StringElement in He. subst y.
    pose proof (idx_Ok _ _ _ Ex) as [Rx _].
    pose proof (idx_Ok _ _ _ Ey) as [Ry _].
    apply IH in Hrest; [|lia|lia].
    destruct Hrest as (r & Ha & Hb).
    exists (StringElement s :: r).
    replace (i + Z.of_nat (S c)) with (i + 1 + Z.of_nat c) by lia.
    replace (j + Z.of_nat (S c)) with (j + 1 + Z.of_nat c) by lia.
    split.
    + apply (slice_app _ i (i + 1) _ [StringElement s] r);
        [apply slice_single; exact Ex | exact Ha].
    + apply (slice_app _ j (j + 1) _ [StringElement s] r);
        [apply slice_single; exact Ey | exact Hb].
Qed.

Lemma tilesFrom_le (ops : list DiffOp) :
  forall n m i j, tilesFrom n m i j ops = true -> i <= n /\ j <= m.
Proof.
  induction ops as [|op ops IH]; intros n m i j H.
  - apply tilesFrom_nil in H. lia.
  - apply tilesFrom_cons in H. destruct H as (Hs & Hb & (S1 & S2 & S3) & Ht).
    apply IH in Ht. lia.
Qed.

Lemma applyDiff_tiles (a : list string) (b : list Element) (ops : list DiffOp) :
  forall (i j : Z),
    0 <= i -> 0 <= j ->
    tilesFrom (len (toElements a)) (len b) i j ops = true ->
    forallb (equalValid (toElements a) b) ops = true ->
    exists r, applyDiff (toElements a) b ops = Ok r
              /\ slice b j (len b) = Ok r.
Proof.
  induction ops as [|op ops IH]; intros i j Hi Hj Ht Hv.
  - apply tilesFrom_nil in Ht. destruct Ht as [Hi' Hj']. subst i j.
    exists []. split; [reflexivity|].
    rewrite slice_in_range by lia.
    rewrite Z.sub_diag. reflexivity.
  - pose proof (tilesFrom_le _ _ _ _ _ Ht) as [Hin Hjm].
    apply tilesFrom_cons in Ht. destruct Ht as (Hs & Hb & Hshape & Ht).
    destruct Hshape as (S1 & S2 & S3).
    pose proof (tilesFrom_le _ _ _ _ _ Ht) as [Hin' Hjm'].
    cbn [forallb] in Hv. apply andb_true_iff in Hv. destruct Hv as [Hv Hvs].
    subst i j. cbn [applyDiff].
    destruct (IH (AEnd op) (BEnd op) ltac:(lia) ltac:(lia) Ht Hvs) as (r' & Hr' & Hs').
    rewrite Hr'.
    unfold equalValid in Hv.
    destruct (Type_ op) eqn:Ty.
    + apply andb_true_iff in Hv. destruct Hv as [_ Hv].
      apply equalSlices_slices in Hv; [|lia|lia].
      destruct Hv as (r & Ha & Hb).
      rewrite Z2Nat.id in Ha, Hb by lia.
      replace (AStart op + (AEnd op - AStart op)) with (AEnd op) in Ha by lia.
      replace (BStart op + (AEnd op - AStart op)) with (BEnd op) in Hb by lia.
      rewrite Ha. cbn [bind]. exists (r ++ r'). split; [reflexivity|].
      eapply slice_app; eassumption.
    + rewrite (slice_in_range b (BStart op) (BEnd op)) by lia. cbn [bind].
      eexists. split; [reflexivity|].
      eapply slice_app; [apply slice_in_range; lia | exact Hs'].
    + cbn [bind]. exists r'. split; [reflexivity|].
      rewrite S3. exact Hs'.
Qed.

(** X23.  An op list that tiles [0, |A|) x [0, |B|) and whose Equal ops span
    equal elements rebuilds B: [applyDiff] returns B. *)
Theorem tiling_and_valid_equals_reconstruct
        (a b : list string) (ops : list DiffOp) :
  tilesFrom (len (toElements a)) (len (toElements b)) 0 0 ops = true ->
  forallb (equalValid (toElements a) (toElements b)) ops = true ->
  applyDiff (toElements a) (toElements b) ops = Ok (toElements b).
Proof.
  intros Ht Hv.
  destruct (applyDiff_tiles a (toElements b) ops 0 0 ltac:(lia) ltac:(lia) Ht Hv)
    as (r & Hr & Hs).
  rewrite slice_full in Hs. inversion Hs; subst. exact Hr.
Qed.

Lemma tiling_and_valid_equals_reconstruct_witness :
  applyDiff (toElements ["a"; "b"; "c"]%string) (toElements ["a"; "x"; "c"]%string)
    [mkOp OpEqual 0 1 0 1; mkOp OpDelete 1 2 1 1; mkOp OpInsert 2 2 1 2;
     mkOp OpEqual 2 3 2 3]
  = Ok (toElements ["a"; "x"; "c"]%string).
Proof.
  exact (tiling_and_valid_equals_reconstruct
           ["a"; "b"; "c"]%string ["a"; "x"; "c"]%string
           [mkOp OpEqual 0 1 0 1; mkOp OpDelete 1 2 1 1; mkOp OpInsert 2 2 1 2;
            mkOp OpEqual 2 3 2 3] eq_refl eq_refl).
Defined.

(* ===================================================================== *)
(** ** The preprocessing filter                                          *)
(* ===================================================================== *)

Lemma idx_app_right {A : Type} (pre rest : list A) (x : A) :
  idx (pre ++ x :: rest) (len pre) = Ok x.
Proof.
  unfold idx, len.
  destruct (Z.of_nat (List.length pre) <? 0) eqn:E1;
    [apply Z.ltb_lt in E1; lia|].
  rewrite length_app. simpl List.length.
  destruct (Z.of_nat (List.length pre + S (List.length rest)) <=? Z.of_nat (List.length pre))
    eqn:E2; [apply Z.leb_le in E2; lia|]. simpl.
  rewrite Nat2Z.id. rewrite nth_error_app2 by lia.
  rewrite Nat.sub_diag. reflexivity.
Qed.

Lemma len_app {A : Type} (l1 l2 : list A) : len (l1 ++ l2) = len l1 + len l2.
Proof. unfold len. rewrite length_app. lia. Qed.

Lemma len_cons {A : Type} (x : A) (l : list A) : len (x :: l) = 1 + len l.
Proof. unfold len. simpl List.length. lia. Qed.

(** What [filterSequence] returns, from position [len pre] on. *)
Lemma filterSequenceFrom_total (elems : list Element) (classes : list elementClass) :
  len classes <= len elems ->
  forall (rest pre : list elementClass),
    classes = pre ++ rest ->
    exists r t,
      filterSequenceFrom elems classes rest (len pre) = Ok (r, t)
      /\ Forall2 (fun e v => idx elems v = Ok e) r t
      /\ Forall (fun v => exists c, idx classes v = Ok c /\ c <> discard) t
      /\ (forall k, len pre <= k -> idx classes k = Ok keep -> In k t).
Proof.
  intro Hlen.
  induction rest as [|class rest IH]; intros pre Hc.
  - exists [], []. simpl. repeat split; auto.
    intros k Hk Hi. apply idx_Ok in Hi. subst classes.
    rewrite app_nil_r in Hi. lia.
  - destruct (IH (pre ++ [class])) as (r & t & Hrec & Hr & Ht & Hk).
    { rewrite <- app_assoc. exact Hc. }
    rewrite len_app in Hrec, Hk. change (len [class]) with 1 in Hrec, Hk.
    pose proof (len_nonneg pre) as Hp0.
    assert (Hhere : idx classes (len pre) = Ok class).
    { subst classes. apply idx_app_right. }
    assert (Hin : 0 <= len pre < len classes).
    { apply idx_Ok in Hhere. tauto. }
    destruct (idx_in_range elems (len pre) ltac:(lia)) as [e He].
    assert (Hkeep : forall k, len pre <= k -> idx classes k = Ok keep ->
                              k = len pre \/ In k t).
    { intros k Hle Hi. destruct (Z.eq_dec k (len pre)); [auto|].
      right. apply Hk; [lia | exact Hi]. }
    cbn [filterSequenceFrom].
    destruct class.
    + (* keep *)
      cbn [bind]. rewrite He. cbn [bind]. rewrite Hrec. cbn [bind fst snd app].
      exists (e :: r), (len pre :: t). split; [reflexivity|].
      split; [constructor; assumption|].
      split; [constructor; [exists keep; split; [exact Hhere | discriminate] | exact Ht]|].
      intros k Hle Hi. destruct (Hkeep k Hle Hi); [left; auto | right; auto].
    + (* discard *)
      cbn [bind]. rewrite Hrec. cbn [bind fst snd app].
      exists r, t. split; [reflexivity|]. split; [exact Hr|]. split; [exact Ht|].
      intros k Hle Hi. destruct (Hkeep k Hle Hi) as [->|]; [|assumption].
      rewrite Hhere in Hi. discriminate.
    + (* provisional *)
      assert (Hprev : exists pk,
                 (if negb (len pre =? 0)
                  then let* c := idx classes (len pre - 1) in Ok (isKeep c)
                  else Ok false) = Ok pk).
      { destruct (len pre =? 0) eqn:E0; cbn [negb]; [eauto|].
        apply Z.eqb_neq in E0.
        destruct (idx_in_range classes (len pre - 1) ltac:(lia)) as [c ->].
        cbn [bind]. eauto. }
      assert (Hnext : exists nk,
                 (if negb (len pre =? len classes - 1)
                  then let* c := idx classes (len pre + 1) in Ok (isKeep c)
                  else Ok false) = Ok nk).
      { destruct (len pre =? len classes - 1) eqn:E0; cbn [negb]; [eauto|].
        apply Z.eqb_neq in E0.
        destruct (idx_in_range classes (len pre + 1) ltac:(lia)) as [c ->].
        cbn [bind]. eauto. }
      destruct Hprev as [pk Hpk]. destruct Hnext as [nk Hnk].
      cbv zeta. rewrite Hpk. cbn [bind]. rewrite Hnk. cbn [bind].
      destruct (pk || nk).
      * rewrite He. cbn [bind]. rewrite Hrec. cbn [bind fst snd app].
        exists (e :: r), (len pre :: t). split; [reflexivity|].
        split; [constructor; assumption|].
        split; [constructor;
                [exists provisional; split; [exact Hhere | discriminate] | exact Ht]|].
        intros k Hle Hi. destruct (Hkeep k Hle Hi); [left; auto | right; auto].
      * cbn [bind]. rewrite Hrec. cbn [bind fst snd app].
        exists r, t. split; [reflexivity|]. split; [exact Hr|]. split; [exact Ht|].
        intros k Hle Hi. destruct (Hkeep k Hle Hi) as [->|]; [|assumption].
        rewrite Hhere in Hi. discriminate.
Qed.

(** X12.  [filterSequence] never fails when every class has its element.  It
    returns the retained elements with their original positions: the
    positions are strictly increasing, each retained element is the original
    one at its position, no discarded element is retained and every [keep]
    element is. *)
Theorem filterSequence_faithful (elems : list Element) (classes : list elementClass) :
  len classes <= len elems ->
  exists r t,
    filterSequence elems classes = Ok (r, t)
    /\ increasing 0 (len classes) t
    /\ Forall2 (fun e v => idx elems v = Ok e) r t
    /\ Forall (fun v => exists c, idx classes v = Ok c /\ c <> discard) t
    /\ (forall k, idx classes k = Ok keep -> In k t).
Proof.
  intro Hlen.
  destruct (filterSequenceFrom_total elems classes Hlen classes [] eq_refl)
    as (r & t & Hrec & Hr & Ht & Hk).
  change (len []) with 0 in Hrec, Hk.
  exists r, t. unfold filterSequence. split; [exact Hrec|].
  split; [apply (filterSequence_spec elems classes r t Hrec)|].
  split; [exact Hr|]. split; [exact Ht|].
  intros k Hi. apply Hk; [|exact Hi]. apply idx_Ok in Hi. lia.
Qed.

Lemma filterSequence_faithful_witness :
  exists r t,
    filterSequence (toElements ["a"; "b"; "c"]%string) [keep; discard; keep] = Ok (r, t)
    /\ increasing 0 (len [keep; discard; keep]) t
    /\ Forall2 (fun e v => idx (toElements ["a"; "b"; "c"]%string) v = Ok e) r t
    /\ Forall (fun v => exists c, idx [keep; discard; keep] v = Ok c /\ c <> discard) t
    /\ (forall k, idx [keep; discard; keep] k = Ok keep -> In k t).
Proof.
  apply (filterSequence_faithful (toElements ["a"; "b"; "c"]%string)
                                 [keep; discard; keep]).
  vm_compute. discriminate.
Defined.

(** [mp] maps the filtered sequences [a'], [b'] back into [a], [b]: the
    index maps are strictly increasing and each filtered element is the
    original one at the mapped position. *)
Definition mappingOf (a b a' b' : list Element) (mp : indexMapping) : Prop :=
  origN mp = len a /\ origM mp = len b
  /\ increasing 0 (len a) (aToOrig mp)
  /\ increasing 0 (len b) (bToOrig mp)
  /\ Forall2 (fun e v => idx a v = Ok e) a' (aToOrig mp)
  /\ Forall2 (fun e v => idx b v = Ok e) b' (bToOrig mp).

Lemma len_map {A B : Type} (f : A -> B) (l : list A) : len (List.map f l) = len l.
Proof. unfold len. rewrite length_map. reflexivity. Qed.

(** X13.  [filterConfusingElements] never fails.  Either it returns its inputs
    with a nil mapping, or two subsequences, not both empty, with the index
    maps that lead back to the originals. *)
Theorem filterConfusingElements_returns (a b : list Element) :
  exists a' b' mp,
    filterConfusingElements a b = Ok (a', b', mp)
    /\ match mp with
       | None => a' = a /\ b' = b
       | Some m => mappingOf a b a' b' m /\ (0 < len a' \/ 0 < len b')
       end.
Proof.
  unfold filterConfusingElements.
  destruct ((len a =? 0) || (len b =? 0)); [exists a, b, None; auto|].
  cbv zeta.
  match goal with
  | |- context [if ?c then _ else _] => destruct c
  end; [exists a, b, None; auto|].
  match goal with
  | |- context [filterSequence a ?cl] =>
      destruct (filterSequenceFrom_total a cl ltac:(rewrite len_map; lia) cl [] eq_refl)
        as (ra & ta & Ha & Fa & _ & _);
      pose proof (filterSequence_spec a cl ra ta Ha) as [La Ia]
  end.
  match goal with
  | |- context [filterSequence b ?cl] =>
      destruct (filterSequenceFrom_total b cl ltac:(rewrite len_map; lia) cl [] eq_refl)
        as (rb & tb & Hb & Fb & _ & _);
      pose proof (filterSequence_spec b cl rb tb Hb) as [Lb Ib]
  end.
  change (len []) with 0 in Ha, Hb.
  unfold filterSequence. rewrite Ha. cbn [bind]. rewrite Hb. cbn [bind].
  rewrite len_map in Ia, Ib.
  destruct ((len ra =? 0) && (len rb =? 0)) eqn:E; [exists a, b, None; auto|].
  exists ra, rb, (Some (mkMapping ta tb (len a) (len b))).
  split; [reflexivity|]. split.
  - unfold mappingOf. cbn [aToOrig bToOrig origN origM]. auto 10.
  - apply andb_false_iff in E.
    pose proof (len_nonneg ra). pose proof (len_nonneg rb).
    destruct E as [E|E]; apply Z.eqb_neq in E; [left | right]; lia.
Qed.

(** *** Frequency maps and classes *)

(** How many elements of [l] hash to [h]. *)
Definition hashCount (l : list Element) (h : Z) : Z :=
  len (List.filter (fun e => Hash e =? h) l).

Lemma countHashes_fold (l : list Element) :
  forall (acc : gmap Z Z) (h : Z),
    freqOf (fold_left (fun (freq : gmap Z Z) e =>
                         <[Hash e := default 0 (freq !! Hash e) + 1]> freq) l acc) h
    = freqOf acc h + hashCount l h.
Proof.
  induction l as [|e l IH]; intros acc h.
  - unfold hashCount, len. simpl. lia.
  - cbn [fold_left]. rewrite IH. unfold hashCount. cbn [List.filter].
    unfold freqOf at 1.
    destruct (Hash e =? h) eqn:E.
    + apply Z.eqb_eq in E. subst h. rewrite lookup_insert.
      rewrite decide_True by reflexivity. cbn [default from_option id].
      rewrite len_cons. unfold freqOf. change (default 0 (acc !! Hash e))
        with (from_option id 0 (acc !! Hash e)). lia.
    + apply Z.eqb_neq in E. rewrite lookup_insert.
      rewrite decide_False by exact E.
      unfold freqOf. lia.
Qed.

Lemma countHashes_spec (l : list Element) (h : Z) :
  freqOf (countHashes l) h = hashCount l h.
Proof.
  unfold countHashes. rewrite countHashes_fold.
  unfold freqOf. rewrite lookup_empty. reflexivity.
Qed.

Lemma hashCount_pos (l : list Element) (h : Z) :
  0 < hashCount l h <-> exists e, In e l /\ Hash e = h.
Proof.
  unfold hashCount, len. split.
  - intro H. destruct (List.filter (fun e => Hash e =? h) l) as [|e t] eqn:E;
      [simpl in H; lia|].
    assert (Hin : In e (List.filter (fun e => Hash e =? h) l)) by (rewrite E; left; auto).
    apply filter_In in Hin. destruct Hin as [Hin Hh]. apply Z.eqb_eq in Hh.
    exists e. auto.
  - intros (e & Hin & Hh).
    assert (Hf : In e (List.filter (fun e => Hash e =? h) l)).
    { apply filter_In. split; [exact Hin | apply Z.eqb_eq; exact Hh]. }
    destruct (List.filter (fun e => Hash e =? h) l); [destruct Hf | simpl; lia].
Qed.

(** X11.  The frequency maps count: [countHashes] maps every hash to the number
    of elements with that hash, and a hash that does not occur reads as 0.
    So the class [discard] is sound: an element classified [discard] equals
    no element of the other sequence, while an element of any other class
    shares its hash with some element of the other sequence. *)
Theorem classify_discard_sound (own other : list Element) (threshold : Z) (e : Element) :
  (forall h, freqOf (countHashes own) h = hashCount own h)
  /\ (classify (countHashes own) (countHashes other) threshold e = discard
      <-> forall y, In y other -> Hash y <> Hash e)
  /\ (classify (countHashes own) (countHashes other) threshold e = discard ->
      forall y, In y other -> Equal e y = false).
Proof.
  split; [intro h; apply countHashes_spec|].
  assert (Hiff : classify (countHashes own) (countHashes other) threshold e = discard
                 <-> forall y, In y other -> Hash y <> Hash e).
  { unfold classify. cbv zeta. rewrite !countHashes_spec.
    destruct (0 <? hashCount other (Hash e)) eqn:E; cbn [negb].
    - apply Z.ltb_lt in E. apply hashCount_pos in E. destruct E as (y & Hin & Hy).
      split.
      + intro H. destruct (threshold <? _); discriminate.
      + intro H. exfalso. exact (H y Hin Hy).
    - apply Z.ltb_ge in E. split; [|reflexivity].
      intros _ y Hin Hy.
      assert (0 < hashCount other (Hash e)); [|lia].
      apply hashCount_pos. exists y. auto. }
  split; [exact Hiff|].
  intros Hd y Hin. destruct (Equal e y) eqn:Ey; [|reflexivity].
  exfalso. apply (proj1 Hiff Hd y Hin). symmetry.
  destruct e as [s|i nm]; destruct y as [t|j nm']; simpl in *; try discriminate.
  - apply String.eqb_eq in Ey. subst. reflexivity.
  - apply Z.eqb_eq in Ey. subst. reflexivity.
Qed.

(* ===================================================================== *)
(** ** The element-by-element mapOps                                     *)
(* ===================================================================== *)

(** *** Valid Equal ops, pointwise *)

Definition pairsEqual (a b : list Element) (i j w : Z) : Prop :=
  forall k, 0 <= k < w ->
    exists x y, idx a (i + k) = Ok x /\ idx b (j + k) = Ok y /\ Equal x y = true.

Lemma equalSlices_iff (a b : list Element) (cnt : nat) :
  forall i j, equalSlices a b cnt i j = true <-> pairsEqual a b i j (Z.of_nat cnt).
Proof.
  induction cnt as [|c IH]; intros i j.
  - simpl. split; [intros _ k Hk; lia | reflexivity].
  - cbn [equalSlices]. split.
    + intro H.
      destruct (idx a i) as [x| |] eqn:Ex; try discriminate.
      destruct (idx b j) as [y| |] eqn:Ey; try discriminate.
      apply andb_true_iff in H. destruct H as [He Hr].
      apply IH in Hr. intros k Hk.
      destruct (Z.eq_dec k 0) as [->|Hne].
      * exists x, y. rewrite !Z.add_0_r. auto.
      * destruct (Hr (k - 1) ltac:(lia)) as (x' & y' & H1 & H2 & H3).
        exists x', y'.
        replace (i + k) with (i + 1 + (k - 1)) by lia.
        replace (j + k) with (j + 1 + (k - 1)) by lia. auto.
    + intro H.
      destruct (H 0 ltac:(lia)) as (x & y & H1 & H2 & H3).
      rewrite !Z.add_0_r in H1, H2. rewrite H1, H2, H3. cbn [andb].
      apply IH. intros k Hk.
      destruct (H (k + 1) ltac:(lia)) as (x' & y' & H1' & H2' & H3').
      exists x', y'.
      replace (i + 1 + k) with (i + (k + 1)) by lia.
      replace (j + 1 + k) with (j + (k + 1)) by lia. auto.
Qed.

Lemma pairsEqual_to_nat (a b : list Element) (i j w : Z) :
  pairsEqual a b i j (Z.of_nat (Z.to_nat w)) <-> pairsEqual a b i j w.
Proof.
  unfold pairsEqual. split; intros H k Hk; apply H; lia.
Qed.

Lemma equalValid_Equal (a b : list Element) (op : DiffOp) :
  Type_ op = OpEqual ->
  (equalValid a b op = true <->
   AEnd op - AStart op = BEnd op - BStart op
   /\ pairsEqual a b (AStart op) (BStart op) (AEnd op - AStart op)).
Proof.
  intro Ty. unfold equalValid. rewrite Ty.
  rewrite andb_true_iff, Z.eqb_eq, equalSlices_iff, pairsEqual_to_nat. tauto.
Qed.

Lemma equalValid_change (a b : list Element) (op : DiffOp) :
  Type_ op <> OpEqual -> equalValid a b op = true.
Proof.
  intro Ty. unfold equalValid. destruct (Type_ op); congruence.
Qed.

(** Merging keeps the Equal ops valid. *)
Lemma mergeFrom_valid (a b : list Element) (rest : list DiffOp) :
  forall current,
    forallb (equalValid a b) (current :: rest) = true ->
    forallb (equalValid a b) (mergeFrom current rest) = true.
Proof.
  induction rest as [|op rest IH]; intros current H; [exact H|].
  cbn [mergeFrom]. destruct (canMerge current op) eqn:E.
  - apply IH. cbn [forallb] in *.
    apply andb_true_iff in H. destruct H as [Hc H].
    apply andb_true_iff in H. destruct H as [Ho Hr].
    rewrite Hr, andb_true_r.
    unfold canMerge in E. rewrite !andb_true_iff, !Z.eqb_eq in E.
    destruct E as [[E1 E2] E3].
    destruct (Type_ current) eqn:Tc.
    + assert (To : Type_ op = OpEqual) by (destruct (Type_ op); try discriminate; auto).
      apply (equalValid_Equal a b current Tc) in Hc. destruct Hc as [Wc Pc].
      apply (equalValid_Equal a b op To) in Ho. destruct Ho as [Wo Po].
      apply equalValid_Equal; [exact Tc|].
      cbn [extendOp AStart AEnd BStart BEnd]. split; [lia|].
      intros k Hk.
      destruct (Z_lt_le_dec (AStart current + k) (AEnd current)) as [Hlt|Hge].
      * apply Pc. lia.
      * destruct (Po (AStart current + k - AStart op) ltac:(lia))
          as (x & y & H1 & H2 & H3).
        exists x, y.
        replace (AStart op + (AStart current + k - AStart op))
          with (AStart current + k) in H1 by lia.
        replace (BStart op + (AStart current + k - AStart op))
          with (BStart current + k) in H2 by lia. auto.
    + apply equalValid_change. cbn [extendOp Type_]. congruence.
    + apply equalValid_change. cbn [extendOp Type_]. congruence.
  - cbn [forallb] in *.
    apply andb_true_iff in H. destruct H as [Hc H].
    rewrite Hc. cbn [andb]. apply IH. exact H.
Qed.

Lemma mergeAdjacentOps_valid (a b : list Element) (ops : list DiffOp) :
  forallb (equalValid a b) ops = true ->
  forallb (equalValid a b) (mergeAdjacentOps ops) = true.
Proof.
  destruct ops as [|c rest]; [auto | apply mergeFrom_valid].
Qed.

(** *** The index maps *)

Lemma Forall2_idx (a a' : list Element) (t : list Z) :
  Forall2 (fun e v => idx a v = Ok e) a' t ->
  len a' = len t
  /\ forall i x, idx a' i = Ok x -> exists v, idx t i = Ok v /\ idx a v = Ok x.
Proof.
  intro H. split.
  - unfold len. f_equal. eapply Forall2_length. exact H.
  - intros i x Hi. apply idx_Ok in Hi. destruct Hi as [Hr Hn].
    assert (Hl : List.length a' = List.length t) by (eapply Forall2_length; exact H).
    destruct (idx_in_range t i ltac:(unfold len in *; lia)) as [v Hv].
    exists v. split; [exact Hv|].
    apply idx_Ok in Hv. destruct Hv as [_ Hv].
    revert Hn Hv. generalize (Z.to_nat i). clear Hr Hl.
    induction H as [|e w a'' t' Hew Hrest IH]; intros [|n] Hn Hv;
      simpl in *; try discriminate.
    + inversion Hn; inversion Hv; subst. exact Hew.
    + eapply IH; eassumption.
Qed.

Section MapOpsValid.

Variables a b a' b' : list Element.
Variable mp : indexMapping.
Hypothesis Hmap : mappingOf a b a' b' mp.

Lemma mapEqualRun_valid (op : DiffOp) (cnt : nat) :
  forall (i aPos bPos : Z),
    AStart op <= i <= AEnd op -> cnt = Z.to_nat (AEnd op - i) ->
    pairsEqual a' b' (AStart op) (BStart op) (AEnd op - AStart op) ->
    exists out aPos' bPos',
      mapEqualRun mp cnt op i aPos bPos = Ok (out, aPos', bPos')
      /\ forallb (equalValid a b) out = true.
Proof.
  destruct Hmap as (_ & _ & _ & _ & Fa & Fb).
  destruct (Forall2_idx _ _ _ Fa) as [La Ca].
  destruct (Forall2_idx _ _ _ Fb) as [Lb Cb].
  induction cnt as [|c IH]; intros i aPos bPos Hi Hc Hp.
  - exists [], aPos, bPos. split; reflexivity.
  - cbn [mapEqualRun].
    destruct (i <? AEnd op) eqn:E; [|apply Z.ltb_ge in E; lia].
    apply Z.ltb_lt in E.
    destruct (Hp (i - AStart op) ltac:(lia)) as (x & y & Hx & Hy & Hxy).
    replace (AStart op + (i - AStart op)) with i in Hx by lia.
    destruct (Ca _ _ Hx) as (va & Hva & Hax).
    destruct (Cb _ _ Hy) as (vb & Hvb & Hby).
    rewrite Hva. cbn [bind]. rewrite Hvb. cbn [bind].
    destruct (IH (i + 1) (va + 1) (vb + 1) ltac:(lia) ltac:(lia) Hp)
      as (out & ap & bp & Hrec & Hv).
    rewrite Hrec. cbn [bind].
    eexists _, ap, bp. split; [reflexivity|].
    rewrite !forallb_app. cbn [forallb]. rewrite Hv, andb_true_r.
    assert (Heq : equalValid a b (mkOp OpEqual va (va + 1) vb (vb + 1)) = true).
    { apply equalValid_Equal; [reflexivity|].
      cbn [AStart AEnd BStart BEnd]. split; [lia|].
      intros k Hk. assert (k = 0) by lia. subst k.
      exists x, y. rewrite !Z.add_0_r. auto. }
    rewrite Heq.
    destruct (aPos <? va); destruct ((if aPos <? va then va else aPos) <? vb);
      reflexivity || (destruct (bPos <? vb); reflexivity).
Qed.

Lemma mapDeleteRun_valid (op : DiffOp) (cnt : nat) :
  forall (i aPos bPos : Z),
    0 <= i <= AEnd op -> AEnd op <= len a' -> cnt = Z.to_nat (AEnd op - i) ->
    exists out aPos' bPos',
      mapDeleteRun mp cnt op i aPos bPos = Ok (out, aPos', bPos')
      /\ forallb (equalValid a b) out = true.
Proof.
  destruct Hmap as (_ & _ & _ & _ & Fa & Fb).
  destruct (Forall2_idx _ _ _ Fa) as [La Ca].
  induction cnt as [|c IH]; intros i aPos bPos Hi Hl Hc.
  - exists [], aPos, bPos. split; reflexivity.
  - cbn [mapDeleteRun].
    destruct (i <? AEnd op) eqn:E; [|apply Z.ltb_ge in E; lia].
    apply Z.ltb_lt in E.
    destruct (idx_in_range (aToOrig mp) i ltac:(lia)) as [va Hva].
    rewrite Hva. cbn [bind].
    destruct (IH (i + 1) (va + 1) bPos ltac:(lia) Hl ltac:(lia))
      as (out & ap & bp & Hrec & Hv).
    rewrite Hrec. cbn [bind].
    eexists _, ap, bp. split; [reflexivity|].
    rewrite forallb_app. cbn [forallb]. rewrite Hv.
    destruct (aPos <? va); reflexivity.
Qed.

Lemma mapInsertRun_valid (op : DiffOp) (cnt : nat) :
  forall (i aPos bPos : Z),
    0 <= i <= BEnd op -> BEnd op <= len b' -> cnt = Z.to_nat (BEnd op - i) ->
    exists out aPos' bPos',
      mapInsertRun mp cnt op i aPos bPos = Ok (out, aPos', bPos')
      /\ forallb (equalValid a b) out = true.
Proof.
  destruct Hmap as (_ & _ & _ & _ & Fa & Fb).
  destruct (Forall2_idx _ _ _ Fb) as [Lb Cb].
  induction cnt as [|c IH]; intros i aPos bPos Hi Hl Hc.
  - exists [], aPos, bPos. split; reflexivity.
  - cbn [mapInsertRun].
    destruct (i <? BEnd op) eqn:E; [|apply Z.ltb_ge in E; lia].
    apply Z.ltb_lt in E.
    destruct (idx_in_range (bToOrig mp) i ltac:(lia)) as [vb Hvb].
    rewrite Hvb. cbn [bind].
    destruct (IH (i + 1) aPos (vb + 1) ltac:(lia) Hl ltac:(lia))
      as (out & ap & bp & Hrec & Hv).
    rewrite Hrec. cbn [bind].
    eexists _, ap, bp. split; [reflexivity|].
    rewrite forallb_app. cbn [forallb]. rewrite Hv.
    destruct (bPos <? vb); reflexivity.
Qed.

Lemma mapOpsLoop_valid (ops : list DiffOp) :
  forall (fi fj aPos bPos : Z),
    0 <= fi -> 0 <= fj ->
    tilesFrom (len a') (len b') fi fj ops = true ->
    forallb (equalValid a' b') ops = true ->
    exists out aPos' bPos',
      mapOpsLoop mp ops aPos bPos = Ok (out, aPos', bPos')
      /\ forallb (equalValid a b) out = true.
Proof.
  induction ops as [|op ops IH]; intros fi fj aPos bPos Hfi Hfj Ht Hv.
  - exists [], aPos, bPos. split; reflexivity.
  - apply tilesFrom_cons in Ht. destruct Ht as (Hs & Hb & (S1 & S2 & S3) & Ht).
    pose proof (tilesFrom_le _ _ _ _ _ Ht) as [Hae Hbe].
    cbn [forallb] in Hv. apply andb_true_iff in Hv. destruct Hv as [Hv Hvs].
    subst fi fj. cbn [mapOpsLoop].
    assert (Hrun : exists out ap bp,
               match Type_ op with
               | OpEqual =>
                   mapEqualRun mp (Z.to_nat (AEnd op - AStart op)) op (AStart op) aPos bPos
               | OpInsert =>
                   mapInsertRun mp (Z.to_nat (BEnd op - BStart op)) op (BStart op) aPos bPos
               | OpDelete =>
                   mapDeleteRun mp (Z.to_nat (AEnd op - AStart op)) op (AStart op) aPos bPos
               end = Ok (out, ap, bp)
               /\ forallb (equalValid a b) out = true).
    { destruct (Type_ op) eqn:Ty.
      - apply (equalValid_Equal a' b' op Ty) in Hv. destruct Hv as [_ Hp].
        apply mapEqualRun_valid; [lia | reflexivity | exact Hp].
      - apply mapInsertRun_valid; [lia | lia | reflexivity].
      - apply mapDeleteRun_valid; [lia | lia | reflexivity]. }
    destruct Hrun as (o1 & ap & bp & Hrun & Hv1).
    rewrite Hrun. cbn [bind].
    destruct (IH (AEnd op) (BEnd op) ap bp ltac:(lia) ltac:(lia) Ht Hvs)
      as (o2 & ap' & bp' & Hrec & Hv2).
    rewrite Hrec. cbn [bind].
    exists (o1 ++ o2), ap', bp'. split; [reflexivity|].
    rewrite forallb_app, Hv1, Hv2. reflexivity.
Qed.

Lemma mapOps_valid (ops : list DiffOp) :
  tilesFrom (len a') (len b') 0 0 ops = true ->
  forallb (equalValid a' b') ops = true ->
  exists out,
    mapOps mp ops = Ok out
    /\ tilesFrom (len a) (len b) 0 0 out = true
    /\ forallb (equalValid a b) out = true.
Proof.
  intros Ht Hv.
  destruct (mapOpsLoop_valid ops 0 0 0 0 ltac:(lia) ltac:(lia) Ht Hv)
    as (o1 & ap & bp & Hloop & Hv1).
  assert (Hout : exists out, mapOps mp ops = Ok out
                             /\ forallb (equalValid a b) out = true).
  { unfold mapOps. rewrite Hloop. cbn [bind].
    eexists. split; [reflexivity|].
    rewrite mergeOps_mergeAdjacentOps. apply mergeAdjacentOps_valid.
    rewrite !forallb_app, Hv1.
    destruct (ap <? origN mp); destruct (bp <? origM mp); reflexivity. }
  destruct Hout as (out & Hout & Hvo). exists out.
  split; [exact Hout|]. split; [|exact Hvo].
  destruct Hmap as (Hn & Hm & Ia & Ib & _ & _).
  rewrite <- Hn in Ia. rewrite <- Hm in Ib.
  rewrite <- Hn, <- Hm.
  eapply (mapOps_tiles mp Ia Ib); [| |exact Ht|exact Hout].
  - rewrite Hn. apply len_nonneg.
  - rewrite Hm. apply len_nonneg.
Qed.

End MapOpsValid.

(** X14.  The element-by-element [mapOps] is sound: on ops that tile the
    filtered sequences and whose Equal ops are valid there, it never fails,
    and its output tiles the original sequences with valid Equal ops. *)
Theorem mapOps_sound (a b a' b' : list Element) (mp : indexMapping)
        (ops : list DiffOp) :
  mappingOf a b a' b' mp ->
  tilesFrom (len a') (len b') 0 0 ops = true ->
  forallb (equalValid a' b') ops = true ->
  exists out,
    mapOps mp ops = Ok out
    /\ tilesFrom (len a) (len b) 0 0 out = true
    /\ forallb (equalValid a b) out = true.
Proof.
  intros Hmap Ht Hv. exact (mapOps_valid a b a' b' mp Hmap ops Ht Hv).
Qed.

(* ===================================================================== *)
(** ** The boundary shifter                                              *)
(* ===================================================================== *)

Lemma bonusIf_bounded (cond : bool) (pred : Element -> bool) (elems : list Element)
      (i bonus : Z) :
  0 <= bonus -> (cond = true -> 0 <= i < len elems) ->
  exists s, bonusIf cond pred elems i bonus = Ok s /\ 0 <= s <= bonus
            /\ (cond = false -> s = 0).
Proof.
  intros Hb Hc. unfold bonusIf. destruct cond.
  - destruct (idx_in_range elems i (Hc eq_refl)) as [e ->]. cbn [bind].
    eexists. split; [reflexivity|]. destruct (pred e); split; try lia; discriminate.
  - exists 0. split; [reflexivity|]. split; [lia | reflexivity].
Qed.

Lemma scoreBoundary_total (start end_ : Z) (elems : list Element) :
  start <= len elems -> 0 <= end_ ->
  exists s, scoreBoundary start end_ elems = Ok s.
Proof.
  intros Hs He. unfold scoreBoundary.
  destruct (bonusIf_bounded (0 <? start) isBlank elems (start - 1) blankLineBonus)
    as (s1 & -> & _); [unfold blankLineBonus; lia | intro H; apply Z.ltb_lt in H; lia |].
  destruct (bonusIf_bounded (end_ <? len elems) isBlank elems end_ blankLineBonus)
    as (s2 & -> & _); [unfold blankLineBonus; lia | intro H; apply Z.ltb_lt in H; lia |].
  destruct (bonusIf_bounded (0 <? start) endsWithPunctuation elems (start - 1)
                            punctuationBonus)
    as (s5 & -> & _); [unfold punctuationBonus; lia | intro H; apply Z.ltb_lt in H; lia |].
  destruct (bonusIf_bounded (end_ <? len elems) startsWithPunctuation elems end_
                            punctuationBonus)
    as (s6 & -> & _); [unfold punctuationBonus; lia | intro H; apply Z.ltb_lt in H; lia |].
  cbn [bind]. eexists. reflexivity.
Qed.

(** X17.  [scoreBoundary] never fails on a range [start <= |elems|], [0 <= end],
    and its score lies between 0 and 24; a change that covers the whole
    sequence scores exactly the two edge bonuses. *)
Theorem scoreBoundary_bounded (start end_ : Z) (elems : list Element) :
  start <= len elems -> 0 <= end_ ->
  exists s, scoreBoundary start end_ elems = Ok s /\ 0 <= s <= 24
            /\ (start = 0 -> end_ = len elems -> s = 6).
Proof.
  intros Hs He. unfold scoreBoundary.
  destruct (bonusIf_bounded (0 <? start) isBlank elems (start - 1) blankLineBonus)
    as (s1 & -> & B1 & Z1); [unfold blankLineBonus; lia | intro H; apply Z.ltb_lt in H; lia |].
  destruct (bonusIf_bounded (end_ <? len elems) isBlank elems end_ blankLineBonus)
    as (s2 & -> & B2 & Z2); [unfold blankLineBonus; lia | intro H; apply Z.ltb_lt in H; lia |].
  destruct (bonusIf_bounded (0 <? start) endsWithPunctuation elems (start - 1)
                            punctuationBonus)
    as (s5 & -> & B5 & Z5); [unfold punctuationBonus; lia | intro H; apply Z.ltb_lt in H; lia |].
  destruct (bonusIf_bounded (end_ <? len elems) startsWithPunctuation elems end_
                            punctuationBonus)
    as (s6 & -> & B6 & Z6); [unfold punctuationBonus; lia | intro H; apply Z.ltb_lt in H; lia |].
  cbn [bind]. eexists. split; [reflexivity|].
  unfold blankLineBonus, punctuationBonus, startOfLineBonus, endOfLineBonus in *.
  destruct (0 <? start) eqn:E1; destruct (end_ <? len elems) eqn:E2;
    destruct (start =? 0) eqn:E3; destruct (end_ =? len elems) eqn:E4;
    repeat match goal with
           | H : (_ <? _) = true |- _ => apply Z.ltb_lt in H
           | H : (_ <? _) = false |- _ => apply Z.ltb_ge in H
           | H : (_ =? _) = true |- _ => apply Z.eqb_eq in H
           | H : (_ =? _) = false |- _ => apply Z.eqb_neq in H
           | H : false = false -> _ |- _ => specialize (H eq_refl)
           end;
    try lia; (split; [lia | intros; lia]).
Qed.

Lemma scoreBoundary_bounded_witness :
  exists s, scoreBoundary 0 2 (toElements ["a"; "b"]%string) = Ok s /\ 0 <= s <= 24
            /\ (0 = 0 -> 2 = len (toElements ["a"; "b"]%string) -> s = 6).
Proof.
  apply (scoreBoundary_bounded 0 2 (toElements ["a"; "b"]%string));
    vm_compute; discriminate.
Defined.

(** *** The loops of the boundary shifter *)

(** The forward loop finds how far the block [start, end) can slide to the
    right: each element it would leave behind equals the one it takes in. *)
Lemma shiftForwardLoop_spec (elems : list Element) (start end_ : Z) (cnt : nat) :
  forall i,
    0 <= start <= end_ -> 0 <= i -> end_ + i <= len elems ->
    pairsEqual elems elems start end_ i ->
    exists mx, shiftForwardLoop elems start end_ cnt i i = Ok mx
               /\ i <= mx /\ end_ + mx <= len elems
               /\ pairsEqual elems elems start end_ mx.
Proof.
  induction cnt as [|c IH]; intros i Hse Hi Hl Hp.
  - exists i. simpl. auto with zarith.
  - cbn [shiftForwardLoop].
    destruct (end_ + i <? len elems) eqn:E.
    + apply Z.ltb_lt in E.
      destruct (idx_in_range elems (start + i) ltac:(lia)) as [x Hx].
      destruct (idx_in_range elems (end_ + i) ltac:(lia)) as [y Hy].
      rewrite Hx, Hy. cbn [bind].
      destruct (Equal x y) eqn:Exy; cbn [negb].
      * destruct (IH (i + 1) Hse ltac:(lia) ltac:(lia)) as (mx & Hm & H1 & H2 & H3).
        { intros k Hk. destruct (Z.eq_dec k i) as [->|Hne].
          - exists x, y. auto.
          - apply Hp. lia. }
        exists mx. split; [exact Hm|]. split; [lia|]. split; [lia | exact H3].
      * exists i. split; [reflexivity|]. split; [lia|]. split; [lia | exact Hp].
    + apply Z.ltb_ge in E. exists i. split; [reflexivity|].
      split; [lia|]. split; [lia | exact Hp].
Qed.

(** The same to the left: [elems[end-1-k]] equals [elems[start-1-k]]. *)
Definition pairsEqualBack (elems : list Element) (start end_ w : Z) : Prop :=
  forall k, 0 <= k < w ->
    exists x y, idx elems (end_ - k - 1) = Ok x /\ idx elems (start - k - 1) = Ok y
                /\ Equal x y = true.

Lemma shiftBackwardLoop_spec (elems : list Element) (start end_ : Z) (cnt : nat) :
  forall i,
    start <= end_ <= len elems -> 0 <= i <= start ->
    pairsEqualBack elems start end_ i ->
    exists mx, shiftBackwardLoop elems start end_ cnt i i = Ok mx
               /\ i <= mx <= start
               /\ pairsEqualBack elems start end_ mx.
Proof.
  induction cnt as [|c IH]; intros i Hse Hi Hp.
  - exists i. simpl. auto with zarith.
  - cbn [shiftBackwardLoop].
    destruct (0 <=? start - i - 1) eqn:E.
    + apply Z.leb_le in E.
      destruct (idx_in_range elems (end_ - i - 1) ltac:(lia)) as [x Hx].
      destruct (idx_in_range elems (start - i - 1) ltac:(lia)) as [y Hy].
      rewrite Hx, Hy. cbn [bind].
      destruct (Equal x y) eqn:Exy; cbn [negb].
      * destruct (IH (i + 1) Hse ltac:(lia)) as (mx & Hm & H1 & H3).
        { intros k Hk. destruct (Z.eq_dec k i) as [->|Hne].
          - exists x, y. auto.
          - apply Hp. lia. }
        exists mx. split; [exact Hm|]. split; [lia | exact H3].
      * exists i. split; [reflexivity|]. split; [lia | exact Hp].
    + apply Z.leb_gt in E. exists i. split; [reflexivity|].
      split; [lia | exact Hp].
Qed.

Lemma tryShifts_spec (elems : list Element) (start end_ dir : Z) (cnt : nat) :
  forall shift maxShift bestShift bestScore,
    (forall s, shift <= s <= maxShift ->
               start + dir * s <= len elems /\ 0 <= end_ + dir * s) ->
    exists bs sc,
      tryShifts elems start end_ dir cnt shift maxShift bestShift bestScore
      = Ok (bs, sc)
      /\ (bs = bestShift \/ exists s, shift <= s <= maxShift /\ bs = dir * s).
Proof.
  induction cnt as [|c IH]; intros shift maxShift bestShift bestScore Hr.
  - exists bestShift, bestScore. split; [reflexivity | auto].
  - cbn [tryShifts]. destruct (shift <=? maxShift) eqn:E.
    + apply Z.leb_le in E.
      destruct (Hr shift ltac:(lia)) as [R1 R2].
      destruct (scoreBoundary_total (start + dir * shift) (end_ + dir * shift) elems R1 R2)
        as (score & Hs).
      rewrite Hs. cbn [bind].
      destruct (bestScore <? score).
      * destruct (IH (shift + 1) maxShift (dir * shift) score) as (bs & sc & H & Hb).
        { intros s Hs'. apply Hr. lia. }
        exists bs, sc. split; [exact H|].
        destruct Hb as [->|(s & Hs' & ->)]; right; [exists shift | exists s]; split; lia.
      * destruct (IH (shift + 1) maxShift bestShift bestScore) as (bs & sc & H & Hb).
        { intros s Hs'. apply Hr. lia. }
        exists bs, sc. split; [exact H|].
        destruct Hb as [->|(s & Hs' & ->)]; [left | right; exists s; split]; auto; lia.
    + exists bestShift, bestScore. split; [reflexivity | auto].
Qed.

(** *** Sliding a block over repeated elements *)

(** [l] with the block [lo, hi) taken out. *)
Definition without (l : list Element) (lo hi : Z) : list Element :=
  firstn (Z.to_nat lo) l ++ skipn (Z.to_nat hi) l.

(** Elementwise equal in the sense of [Equal]. *)
Definition sameElements (l1 l2 : list Element) : Prop :=
  Forall2 (fun x y => Equal x y = true) l1 l2.

Lemma sameElements_refl (l : list Element) : sameElements l l.
Proof.
  induction l; constructor; [apply Equal_refl | assumption].
Qed.

Lemma sameElements_sym (l1 l2 : list Element) :
  sameElements l1 l2 -> sameElements l2 l1.
Proof.
  induction 1; constructor; [rewrite Equal_sym; assumption | assumption].
Qed.

Lemma sameElements_trans (l1 l2 l3 : list Element) :
  sameElements l1 l2 -> sameElements l2 l3 -> sameElements l1 l3.
Proof.
  intro H. revert l3. induction H as [|x y l1 l2 Hxy H12 IH]; intros l3 H23.
  - inversion H23. constructor.
  - inversion H23 as [|y' z l2' l3' Hyz H23']; subst.
    constructor; [eapply Equal_trans; eassumption | apply IH; assumption].
Qed.

Lemma sameElements_app (l1 l2 k1 k2 : list Element) :
  sameElements l1 k1 -> sameElements l2 k2 -> sameElements (l1 ++ l2) (k1 ++ k2).
Proof.
  intro H1. induction H1 as [|x y l1 k1 Hxy H1 IH]; intro H2; simpl; [exact H2|].
  constructor; [exact Hxy | apply IH; exact H2].
Qed.

Lemma firstn_succ {A : Type} (l : list A) :
  forall (n : nat) (x : A),
    nth_error l n = Some x -> firstn (S n) l = firstn n l ++ [x].
Proof.
  induction l as [|h t IH]; intros [|n] x H; simpl in *; try discriminate.
  - inversion H. reflexivity.
  - f_equal. apply IH. exact H.
Qed.

Lemma skipn_cons {A : Type} (l : list A) :
  forall (n : nat) (x : A),
    nth_error l n = Some x -> skipn n l = x :: skipn (S n) l.
Proof.
  induction l as [|h t IH]; intros [|n] x H; simpl in *; try discriminate.
  - inversion H. reflexivity.
  - apply IH. exact H.
Qed.

Lemma slide_one (l : list Element) (p q : Z) (x y : Element) :
  idx l p = Ok x -> idx l q = Ok y -> Equal x y = true ->
  sameElements (without l (p + 1) (q + 1)) (without l p q).
Proof.
  intros Hp Hq He.
  apply idx_Ok in Hp. destruct Hp as [Rp Np].
  apply idx_Ok in Hq. destruct Hq as [Rq Nq].
  unfold without.
  replace (Z.to_nat (p + 1)) with (S (Z.to_nat p)) by lia.
  replace (Z.to_nat (q + 1)) with (S (Z.to_nat q)) by lia.
  rewrite (firstn_succ l _ x Np).
  rewrite (skipn_cons l (Z.to_nat q) y Nq).
  rewrite <- app_assoc. apply sameElements_app; [apply sameElements_refl|].
  simpl. constructor; [exact He | apply sameElements_refl].
Qed.

Lemma slide_forward (l : list Element) (st en : Z) (n : nat) :
  pairsEqual l l st en (Z.of_nat n) ->
  sameElements (without l (st + Z.of_nat n) (en + Z.of_nat n)) (without l st en).
Proof.
  induction n as [|n IH]; intro Hp.
  - rewrite !Z.add_0_r. apply sameElements_refl.
  - destruct (Hp (Z.of_nat n) ltac:(lia)) as (x & y & Hx & Hy & He).
    eapply sameElements_trans; [|apply IH; intros k Hk; apply Hp; lia].
    replace (st + Z.of_nat (S n)) with (st + Z.of_nat n + 1) by lia.
    replace (en + Z.of_nat (S n)) with (en + Z.of_nat n + 1) by lia.
    eapply slide_one; eassumption.
Qed.

Lemma slide_backward (l : list Element) (st en : Z) (n : nat) :
  pairsEqualBack l st en (Z.of_nat n) ->
  sameElements (without l (st - Z.of_nat n) (en - Z.of_nat n)) (without l st en).
Proof.
  induction n as [|n IH]; intro Hp.
  - rewrite !Z.sub_0_r. apply sameElements_refl.
  - destruct (Hp (Z.of_nat n) ltac:(lia)) as (x & y & Hx & Hy & He).
    eapply sameElements_trans; [|apply IH; intros k Hk; apply Hp; lia].
    apply sameElements_sym.
    replace (st - Z.of_nat n) with (st - Z.of_nat (S n) + 1) by lia.
    replace (en - Z.of_nat n) with (en - Z.of_nat (S n) + 1) by lia.
    replace (st - Z.of_nat n - 1) with (st - Z.of_nat (S n)) in Hy by lia.
    replace (en - Z.of_nat n - 1) with (en - Z.of_nat (S n)) in Hx by lia.
    rewrite Equal_sym in He.
    eapply slide_one; eassumption.
Qed.

(** The choice both [shiftDelete] and [shiftInsert] make on their own
    sequence: [None] when the block cannot move. *)
Definition chooseShift (elems : list Element) (start end_ : Z) : result (option Z) :=
  let* maxShiftForward :=
    shiftForwardLoop elems start end_ (Z.to_nat (len elems - end_)) 0 0 in
  let* maxShiftBackward :=
    shiftBackwardLoop elems start end_ (Z.to_nat start) 0 0 in
  if (maxShiftForward =? 0) && (maxShiftBackward =? 0) then Ok None
  else
    let* bestScore := scoreBoundary start end_ elems in
    let* (bestShift, bestScore) :=
      tryShifts elems start end_ 1 (Z.to_nat maxShiftForward)
                1 maxShiftForward 0 bestScore in
    let* (bestShift, bestScore) :=
      tryShifts elems start end_ (-1) (Z.to_nat maxShiftBackward)
                1 maxShiftBackward bestShift bestScore in
    Ok (Some bestShift).

Lemma shiftDelete_chooseShift (op : DiffOp) (a b : list Element) :
  shiftDelete op a b =
  if AEnd op - AStart op =? 0 then Ok op
  else
    let* r := chooseShift a (AStart op) (AEnd op) in
    match r with
    | None => Ok op
    | Some bestShift =>
        if bestShift =? 0 then Ok op
        else Ok (mkOp OpDelete (AStart op + bestShift) (AEnd op + bestShift)
                      (BStart op) (BEnd op))
    end.
Proof.
  unfold shiftDelete, chooseShift.
  destruct (AEnd op - AStart op =? 0); [reflexivity|].
  destruct (shiftForwardLoop _ _ _ _ _ _) as [mf| |]; cbn [bind]; try reflexivity.
  destruct (shiftBackwardLoop _ _ _ _ _ _) as [mb| |]; cbn [bind]; try reflexivity.
  destruct ((mf =? 0) && (mb =? 0)); [reflexivity|].
  destruct (scoreBoundary _ _ _) as [sc| |]; cbn [bind]; try reflexivity.
  destruct (tryShifts _ _ _ 1 _ _ _ _ _) as [[bs1 sc1]| |]; cbn [bind]; try reflexivity.
  destruct (tryShifts _ _ _ (-1) _ _ _ _ _) as [[bs2 sc2]| |]; cbn [bind]; reflexivity.
Qed.

Lemma shiftInsert_chooseShift (op : DiffOp) (a b : list Element) :
  shiftInsert op a b =
  if BEnd op - BStart op =? 0 then Ok op
  else
    let* r := chooseShift b (BStart op) (BEnd op) in
    match r with
    | None => Ok op
    | Some bestShift =>
        if bestShift =? 0 then Ok op
        else Ok (mkOp OpInsert (AStart op) (AEnd op)
                      (BStart op + bestShift) (BEnd op + bestShift))
    end.
Proof.
  unfold shiftInsert, chooseShift.
  destruct (BEnd op - BStart op =? 0); [reflexivity|].
  destruct (shiftForwardLoop _ _ _ _ _ _) as [mf| |]; cbn [bind]; try reflexivity.
  destruct (shiftBackwardLoop _ _ _ _ _ _) as [mb| |]; cbn [bind]; try reflexivity.
  destruct ((mf =? 0) && (mb =? 0)); [reflexivity|].
  destruct (scoreBoundary _ _ _) as [sc| |]; cbn [bind]; try reflexivity.
  destruct (tryShifts _ _ _ 1 _ _ _ _ _) as [[bs1 sc1]| |]; cbn [bind]; try reflexivity.
  destruct (tryShifts _ _ _ (-1) _ _ _ _ _) as [[bs2 sc2]| |]; cbn [bind]; reflexivity.
Qed.

Lemma pairsEqual_nil (a b : list Element) (i j : Z) : pairsEqual a b i j 0.
Proof. intros k Hk. lia. Qed.

Lemma pairsEqualBack_nil (l : list Element) (s e : Z) : pairsEqualBack l s e 0.
Proof. intros k Hk. lia. Qed.

Lemma chooseShift_spec (elems : list Element) (start end_ : Z) :
  0 <= start <= end_ -> end_ <= len elems ->
  exists r, chooseShift elems start end_ = Ok r
            /\ match r with
               | None => True
               | Some bs =>
                   0 <= start + bs /\ end_ + bs <= len elems
                   /\ sameElements (without elems (start + bs) (end_ + bs))
                                   (without elems start end_)
               end.
Proof.
  intros Hse Hl. unfold chooseShift.
  destruct (shiftForwardLoop_spec elems start end_ (Z.to_nat (len elems - end_)) 0
              Hse ltac:(lia) ltac:(lia) (pairsEqual_nil _ _ _ _))
    as (mf & -> & Hf0 & Hfl & Hfp).
  destruct (shiftBackwardLoop_spec elems start end_ (Z.to_nat start) 0
              ltac:(lia) ltac:(lia) (pairsEqualBack_nil _ _ _))
    as (mb & -> & Hb0 & Hbp).
  cbn [bind].
  destruct ((mf =? 0) && (mb =? 0)); [exists None; auto|].
  destruct (scoreBoundary_total start end_ elems ltac:(lia) ltac:(lia)) as (sc & ->).
  cbn [bind].
  destruct (tryShifts_spec elems start end_ 1 (Z.to_nat mf) 1 mf 0 sc)
    as (bs1 & sc1 & -> & Hbs1); [intros s Hs; lia|].
  cbn [bind].
  destruct (tryShifts_spec elems start end_ (-1) (Z.to_nat mb) 1 mb bs1 sc1)
    as (bs2 & sc2 & -> & Hbs2); [intros s Hs; lia|].
  cbn [bind]. exists (Some bs2). split; [reflexivity|].
  assert (Hfwd : forall s, 0 <= s <= mf ->
                   sameElements (without elems (start + s) (end_ + s))
                                (without elems start end_)).
  { intros s Hs. rewrite <- (Z2Nat.id s) by lia.
    apply slide_forward. intros k Hk. apply Hfp. lia. }
  assert (Hbwd : forall s, 0 <= s <= mb ->
                   sameElements (without elems (start + -1 * s) (end_ + -1 * s))
                                (without elems start end_)).
  { intros s Hs.
    replace (start + -1 * s) with (start - Z.of_nat (Z.to_nat s)) by lia.
    replace (end_ + -1 * s) with (end_ - Z.of_nat (Z.to_nat s)) by lia.
    apply slide_backward. intros k Hk. apply Hbp. lia. }
  destruct Hbs2 as [->|(s & Hs & ->)].
  - destruct Hbs1 as [->|(s & Hs & ->)].
    + split; [lia|]. split; [lia|]. apply (Hfwd 0). lia.
    + split; [lia|]. split; [lia|]. rewrite !Z.mul_1_l. apply Hfwd. lia.
  - split; [lia|]. split; [lia|]. apply Hbwd. lia.
Qed.

(** The op lies within the two sequences. *)
Definition inRange (a b : list Element) (op : DiffOp) : Prop :=
  0 <= AStart op <= AEnd op /\ AEnd op <= len a
  /\ 0 <= BStart op <= BEnd op /\ BEnd op <= len b.

(** What a shift may do to an op: translate it on its own side. *)
Definition slid (a b : list Element) (op op' : DiffOp) : Prop :=
  Type_ op' = Type_ op
  /\ AEnd op' - AStart op' = AEnd op - AStart op
  /\ BEnd op' - BStart op' = BEnd op - BStart op
  /\ match Type_ op with
     | OpEqual => op' = op
     | OpDelete =>
         BStart op' = BStart op
         /\ sameElements (without a (AStart op') (AEnd op'))
                         (without a (AStart op) (AEnd op))
     | OpInsert =>
         AStart op' = AStart op
         /\ sameElements (without b (BStart op') (BEnd op'))
                         (without b (BStart op) (BEnd op))
     end.

Lemma shiftOp_spec (a b : list Element) (op : DiffOp) :
  inRange a b op ->
  exists op', shiftOp op a b = Ok op' /\ inRange a b op' /\ slid a b op op'.
Proof.
  intros (RA & RA' & RB & RB').
  assert (Hsame : inRange a b op /\ slid a b op op).
  { split; [unfold inRange; auto|]. unfold slid.
    split; [reflexivity|]. split; [reflexivity|]. split; [reflexivity|].
    destruct (Type_ op); auto using sameElements_refl. }
  unfold shiftOp. destruct (Type_ op) eqn:Ty.
  - exists op. split; [reflexivity | exact Hsame].
  - rewrite shiftInsert_chooseShift.
    destruct (BEnd op - BStart op =? 0); [exists op; split; [reflexivity | exact Hsame]|].
    destruct (chooseShift_spec b (BStart op) (BEnd op) RB RB') as (r & -> & Hr).
    cbn [bind]. destruct r as [bs|]; [|exists op; split; [reflexivity | exact Hsame]].
    destruct (bs =? 0); [exists op; split; [reflexivity | exact Hsame]|].
    destruct Hr as (H1 & H2 & H3).
    eexists. split; [reflexivity|]. unfold inRange, slid.
    cbn [Type_ AStart AEnd BStart BEnd]. rewrite Ty.
    repeat split; try lia. exact H3.
  - rewrite shiftDelete_chooseShift.
    destruct (AEnd op - AStart op =? 0); [exists op; split; [reflexivity | exact Hsame]|].
    destruct (chooseShift_spec a (AStart op) (AEnd op) RA RA') as (r & -> & Hr).
    cbn [bind]. destruct r as [bs|]; [|exists op; split; [reflexivity | exact Hsame]].
    destruct (bs =? 0); [exists op; split; [reflexivity | exact Hsame]|].
    destruct Hr as (H1 & H2 & H3).
    eexists. split; [reflexivity|]. unfold inRange, slid.
    cbn [Type_ AStart AEnd BStart BEnd]. rewrite Ty.
    repeat split; try lia. exact H3.
Qed.

(** X18.  [shiftOp] never fails on an op that lies within the sequences.  It
    keeps the op's type and lengths and leaves an Equal op alone; a Delete
    it moves only along A and an Insert only along B, the moved op still
    lies within the sequences, and what is left of the sequence without the
    block is elementwise the same as before: the block slides only over
    elements that repeat. *)
Theorem shiftOp_slides (a b : list Element) (op : DiffOp) :
  inRange a b op ->
  exists op', shiftOp op a b = Ok op' /\ inRange a b op' /\ slid a b op op'.
Proof.
  apply shiftOp_spec.
Qed.

Lemma shiftEach_total (a b : list Element) (ops : list DiffOp) :
  Forall (inRange a b) ops ->
  exists r, shiftEach ops a b = Ok r
            /\ Forall (inRange a b) r /\ Forall2 (slid a b) ops r.
Proof.
  induction 1 as [|op ops Hop Hops IH].
  - exists []. split; [reflexivity|]. split; constructor.
  - destruct IH as (r & Hr & Fr & Sr).
    destruct (shiftOp_spec a b op Hop) as (op' & Hs & Ro & So).
    cbn [shiftEach].
    assert (Hshift : match Type_ op with
                     | OpEqual => Ok op
                     | _ => shiftOp op a b
                     end = Ok op').
    { unfold shiftOp in *. destruct (Type_ op); exact Hs. }
    rewrite Hshift. cbn [bind]. rewrite Hr. cbn [bind].
    exists (op' :: r). split; [reflexivity|]. split; constructor; assumption.
Qed.

Lemma optimizeLoop_total (a b : list Element) (cnt : nat) :
  forall (i : Z) (res : list DiffOp),
    0 <= i -> optimizeLoop a b cnt i res = Ok res.
Proof.
  induction cnt as [|c IH]; intros i res Hi; [reflexivity|].
  cbn [optimizeLoop].
  destruct (i <? len res - 1) eqn:E; [|reflexivity]. apply Z.ltb_lt in E.
  destruct (idx_in_range res i ltac:(lia)) as [curr Hcurr].
  destruct (idx_in_range res (i + 1) ltac:(lia)) as [next Hnext].
  rewrite Hcurr, Hnext. cbn [bind].
  assert (Hboth : (let* r0 := upd res i curr in upd r0 (i + 1) next) = Ok res).
  { rewrite (upd_same _ _ _ Hcurr). cbn [bind]. apply upd_same. exact Hnext. }
  assert (H1 : (if OpType_eqb (Type_ curr) OpEqual && isChange (Type_ next)
                then let '(p, q) := tryShiftEqualBoundary curr next a b in
                     let* r := upd res i p in upd r (i + 1) q
                else Ok res) = Ok res).
  { destruct (OpType_eqb (Type_ curr) OpEqual && isChange (Type_ next)); [|reflexivity].
    unfold tryShiftEqualBoundary.
    destruct (AEnd curr - AStart curr =? 0);
      [|destruct ((AEnd curr - 1 <? 0) || (len a <=? AEnd curr - 1))];
      exact Hboth. }
  rewrite H1. cbn [bind].
  assert (H2 : (if isChange (Type_ curr) && OpType_eqb (Type_ next) OpEqual
                then let '(p, q) := tryShiftChangeBoundary curr next a b in
                     let* r := upd res i p in upd r (i + 1) q
                else Ok res) = Ok res).
  { destruct (isChange (Type_ curr) && OpType_eqb (Type_ next) OpEqual); [|reflexivity].
    unfold tryShiftChangeBoundary.
    destruct (AEnd next - AStart next =? 0); exact Hboth. }
  rewrite H2. cbn [bind]. apply IH. lia.
Qed.

Lemma optimizeBoundaries_total (ops : list DiffOp) (a b : list Element) :
  optimizeBoundaries ops a b = Ok ops.
Proof.
  unfold optimizeBoundaries. destruct (len ops <? 2); [reflexivity|].
  apply optimizeLoop_total. lia.
Qed.

(** X19.  The third pass of the boundary shifter does nothing: on every op list
    and every pair of sequences [optimizeBoundaries] returns its input, and
    it never fails. *)
Theorem optimizeBoundaries_noop (ops : list DiffOp) (a b : list Element) :
  optimizeBoundaries ops a b = Ok ops.
Proof.
  apply optimizeBoundaries_total.
Qed.

Lemma Forall2_slid_length (a b : list Element) (ops r : list DiffOp) :
  Forall2 (slid a b) ops r -> List.length r = List.length ops.
Proof.
  induction 1; simpl; congruence.
Qed.

Lemma shiftBoundaries_total (ops : list DiffOp) (a b : list Element) :
  Forall (inRange a b) ops ->
  exists mid,
    shiftEach ops a b = Ok mid
    /\ Forall2 (slid a b) ops mid
    /\ shiftBoundaries ops a b = Ok (mergeAdjacentOps mid).
Proof.
  intro H. destruct (shiftEach_total a b ops H) as (mid & Hm & Fm & Sm).
  exists mid. split; [exact Hm|]. split; [exact Sm|].
  unfold shiftBoundaries. destruct (len ops =? 0) eqn:E.
  - apply Z.eqb_eq in E. destruct ops; [|unfold len in E; simpl in E; lia].
    simpl in Hm. inversion Hm. reflexivity.
  - rewrite Hm. cbn [bind]. apply optimizeBoundaries_total.
Qed.

(** X20.  [shiftBoundaries] never fails when every op lies within the sequences
    it is given.  Its result is the merge of a list in which every op of the
    input has been slid on its own side. *)
Theorem shiftBoundaries_in_range (ops : list DiffOp) (a b : list Element) :
  Forall (inRange a b) ops ->
  exists mid,
    Forall2 (slid a b) ops mid
    /\ shiftBoundaries ops a b = Ok (mergeAdjacentOps mid).
Proof.
  intro H. destruct (shiftBoundaries_total ops a b H) as (mid & _ & H1 & H2).
  exists mid. auto.
Qed.

Lemma tilesFrom_inRange (a b : list Element) (ops : list DiffOp) :
  forall i j,
    0 <= i -> 0 <= j ->
    tilesFrom (len a) (len b) i j ops = true -> Forall (inRange a b) ops.
Proof.
  induction ops as [|op ops IH]; intros i j Hi Hj Ht; [constructor|].
  pose proof (tilesFrom_le _ _ _ _ _ Ht) as [Hin Hjm].
  apply tilesFrom_cons in Ht. destruct Ht as (Hs & Hb & (S1 & S2 & S3) & Ht).
  pose proof (tilesFrom_le _ _ _ _ _ Ht) as [Hin' Hjm'].
  constructor.
  - unfold inRange. lia.
  - apply (IH (AEnd op) (BEnd op)); [lia | lia | exact Ht].
Qed.

(* ===================================================================== *)
(** ** The histogram driver                                              *)
(* ===================================================================== *)

(** *** The histogram driver *)

Lemma findMatch_range (a : list Element) (e : Element) (bRatio : float)
      (cands : list Z) :
  forall (init : Z) (best : float) (i : Z),
    findMatch a e bRatio cands init best = Ok i ->
    i = init \/ 0 <= i < len a.
Proof.
  induction cands as [|c cands IH]; intros init best i H; simpl in H.
  - inversion H. auto.
  - apply bind_Ok in H. destruct H as (x & Hx & H).
    apply idx_Ok in Hx. destruct Hx as [Hr _].
    destruct (negb (Equal x e)); [apply IH in H; exact H|].
    match type of H with
    | (if ?c then _ else _) = _ => destruct c
    end; apply IH in H; destruct H as [->|]; auto.
Qed.

Lemma extendBackward_spec (a b : list Element) (cnt : nat) :
  forall s t s' t',
    0 <= s -> 0 <= t ->
    extendBackward a b cnt s t = Ok (s', t') ->
    0 <= s' <= s /\ 0 <= t' <= t /\ s - s' = t - t'.
Proof.
  induction cnt as [|c IH]; intros s t s' t' Hs Ht H; simpl in H.
  - inversion H; subst. lia.
  - destruct ((0 <? s) && (0 <? t)) eqn:E; [|inversion H; subst; lia].
    apply andb_true_iff in E. destruct E as [E1 E2].
    apply Z.ltb_lt in E1. apply Z.ltb_lt in E2.
    apply bind_Ok in H. destruct H as (x & _ & H).
    apply bind_Ok in H. destruct H as (y & _ & H).
    destruct (Equal x y); [|inversion H; subst; lia].
    apply IH in H; lia.
Qed.

Lemma extendForward_spec (a b : list Element) (cnt : nat) :
  forall s t s' t',
    s <= len a -> t <= len b ->
    extendForward a b cnt s t = Ok (s', t') ->
    s <= s' <= len a /\ t <= t' <= len b /\ s' - s = t' - t.
Proof.
  induction cnt as [|c IH]; intros s t s' t' Hs Ht H; simpl in H.
  - inversion H; subst. lia.
  - destruct ((s <? len a) && (t <? len b)) eqn:E; [|inversion H; subst; lia].
    apply andb_true_iff in E. destruct E as [E1 E2].
    apply Z.ltb_lt in E1. apply Z.ltb_lt in E2.
    apply bind_Ok in H. destruct H as (x & _ & H).
    apply bind_Ok in H. destruct H as (y & _ & H).
    destruct (Equal x y); [|inversion H; subst; lia].
    apply IH in H; lia.
Qed.

Lemma tilesFrom_offset (ao bo : Z) (ops : list DiffOp) :
  forall n m i j,
    tilesFrom n m i j ops = true ->
    tilesFrom (ao + n) (bo + m) (ao + i) (bo + j) (List.map (offsetOp ao bo) ops) = true.
Proof.
  induction ops as [|op ops IH]; intros n m i j H.
  - apply tilesFrom_nil in H. simpl List.map. apply tilesFrom_nil. lia.
  - apply tilesFrom_cons in H. destruct H as (Hs & Hb & (S1 & S2 & S3) & Ht).
    simpl List.map. apply tilesFrom_cons. unfold shapeOk, offsetOp.
    cbn [Type_ AStart AEnd BStart BEnd].
    split; [lia|]. split; [lia|]. split.
    + split; [lia|]. split; [lia|]. destruct (Type_ op); lia.
    + apply IH in Ht.
      replace (AEnd op + ao) with (ao + AEnd op) by lia.
      replace (BEnd op + bo) with (bo + BEnd op) by lia. exact Ht.
Qed.

Lemma newDiffContext_vecs (a b : list Element) (o : options) :
  xvec (newDiffContext a b o) = a /\ yvec (newDiffContext a b o) = b.
Proof. split; reflexivity. Qed.

Lemma myersFallback_tiles (fuel : nat) (a b : list Element) (ao bo : Z)
      (ops : list DiffOp) :
  myersFallback fuel a b ao bo = Ok ops ->
  tilesFrom (ao + len a) (bo + len b) ao bo ops = true.
Proof.
  unfold myersFallback. cbv zeta. intro H.
  apply bind_Ok in H. destruct H as (ctx & Hc & H).
  apply bind_Ok in H. destruct H as (raw & Hraw & H).
  inversion H; subst; clear H.
  apply compareSeq_sameInput in Hc. destruct Hc as [Hx Hy].
  apply buildOps_tiles in Hraw. rewrite Hx, Hy in Hraw.
  cbn [newDiffContext xvec yvec] in Hraw.
  apply (tilesFrom_offset ao bo) in Hraw.
  rewrite !Z.add_0_r in Hraw. exact Hraw.
Qed.

Lemma deleteThenInsert_tiles (a b : list Element) (ao bo : Z) :
  tilesFrom (ao + len a) (bo + len b) ao bo (deleteThenInsert a b ao bo) = true.
Proof.
  pose proof (len_nonneg a). pose proof (len_nonneg b).
  unfold deleteThenInsert.
  apply tilesFrom_cons. unfold shapeOk. cbn [Type_ AStart AEnd BStart BEnd].
  split; [lia|]. split; [lia|]. split; [lia|].
  apply tilesFrom_cons. unfold shapeOk. cbn [Type_ AStart AEnd BStart BEnd].
  split; [lia|]. split; [lia|]. split; [lia|].
  apply tilesFrom_nil. lia.
Qed.

Lemma histogramDiffRecursive_tiles (fuel : nat) :
  forall (a b : list Element) (ao bo : Z) (opts : histogramOptions)
         (ops : list DiffOp),
    histogramDiffRecursive fuel a b ao bo opts = Ok ops ->
    tilesFrom (ao + len a) (bo + len b) ao bo ops = true.
Proof.
  induction fuel as [|f IH]; intros a b ao bo opts ops H; [discriminate|].
  pose proof (len_nonneg a) as Ha0. pose proof (len_nonneg b) as Hb0.
  cbn [histogramDiffRecursive] in H.
  destruct ((len a =? 0) && (len b =? 0)) eqn:E0.
  { apply andb_true_iff in E0. destruct E0 as [Ea Eb].
    apply Z.eqb_eq in Ea. apply Z.eqb_eq in Eb.
    inversion H; subst. apply tilesFrom_nil. lia. }
  destruct (len a =? 0) eqn:Ea.
  { apply Z.eqb_eq in Ea. inversion H; subst.
    apply tilesFrom_cons. unfold shapeOk. cbn [Type_ AStart AEnd BStart BEnd].
    split; [lia|]. split; [lia|]. split; [lia|]. apply tilesFrom_nil. lia. }
  destruct (len b =? 0) eqn:Eb.
  { apply Z.eqb_eq in Eb. inversion H; subst.
    apply tilesFrom_cons. unfold shapeOk. cbn [Type_ AStart AEnd BStart BEnd].
    split; [lia|]. split; [lia|]. split; [lia|]. apply tilesFrom_nil. lia. }
  cbv zeta in H.
  apply bind_Ok in H. destruct H as ([[bestIdx bestScore] bestHash] & _ & H).
  assert (Hfb : forall r,
             (if fallbackToMyers opts then myersFallback f a b ao bo
              else Ok (deleteThenInsert a b ao bo)) = Ok r ->
             tilesFrom (ao + len a) (bo + len b) ao bo r = true).
  { intros r Hr. destruct (fallbackToMyers opts).
    - apply myersFallback_tiles in Hr. exact Hr.
    - inversion Hr; subst. apply deleteThenInsert_tiles. }
  destruct (bestIdx =? -1); [apply Hfb; exact H|].
  apply bind_Ok in H. destruct H as (e & He & H).
  apply idx_Ok in He. destruct He as [Rb _].
  apply bind_Ok in H. destruct H as (aMatchIdx & Hm & H).
  apply findMatch_range in Hm.
  destruct (aMatchIdx =? -1) eqn:Em; [apply Hfb; exact H|].
  apply Z.eqb_neq in Em. destruct Hm as [Hm|Hm]; [lia|].
  apply bind_Ok in H. destruct H as ([msA msB] & Hback & H).
  apply extendBackward_spec in Hback; [|lia|lia].
  apply bind_Ok in H. destruct H as ([meA meB] & Hfwd & H).
  apply extendForward_spec in Hfwd; [|lia|lia].
  apply bind_Ok in H. destruct H as (beforeOps & Hbefore & H).
  apply bind_Ok in H. destruct H as (afterOps & Hafter & H).
  inversion H; subst; clear H.
  assert (Tb : tilesFrom (ao + msA) (bo + msB) ao bo beforeOps = true).
  { destruct ((0 <? msA) || (0 <? msB)) eqn:E.
    - apply bind_Ok in Hbefore. destruct Hbefore as (a1 & Ha1 & Hbefore).
      apply bind_Ok in Hbefore. destruct Hbefore as (b1 & Hb1 & Hbefore).
      apply IH in Hbefore.
      rewrite (slice_length _ _ _ _ Ha1), (slice_length _ _ _ _ Hb1) in Hbefore.
      rewrite !Z.sub_0_r in Hbefore. exact Hbefore.
    - apply orb_false_iff in E. destruct E as [E1 E2].
      apply Z.ltb_ge in E1. apply Z.ltb_ge in E2.
      inversion Hbefore; subst. apply tilesFrom_nil. lia. }
  assert (Ta : tilesFrom (ao + len a) (bo + len b) (ao + meA) (bo + meB) afterOps = true).
  { destruct ((meA <? len a) || (meB <? len b)) eqn:E.
    - apply bind_Ok in Hafter. destruct Hafter as (a2 & Ha2 & Hafter).
      apply bind_Ok in Hafter. destruct Hafter as (b2 & Hb2 & Hafter).
      apply IH in Hafter.
      rewrite (slice_length _ _ _ _ Ha2), (slice_length _ _ _ _ Hb2) in Hafter.
      replace (ao + meA + (len a - meA)) with (ao + len a) in Hafter by lia.
      replace (bo + meB + (len b - meB)) with (bo + len b) in Hafter by lia.
      exact Hafter.
    - apply orb_false_iff in E. destruct E as [E1 E2].
      apply Z.ltb_ge in E1. apply Z.ltb_ge in E2.
      inversion Hafter; subst. apply tilesFrom_nil. lia. }
  eapply tilesFrom_app; [exact Tb|].
  apply tilesFrom_cons. unfold shapeOk. cbn [Type_ AStart AEnd BStart BEnd].
  split; [lia|]. split; [lia|]. split; [lia|]. exact Ta.
Qed.

Lemma prefixLoop_spec (a b : list Element) (cnt : nat) :
  forall p p', 0 <= p -> p <= len a -> p <= len b ->
    prefixLoop a b cnt p = Ok p' -> p <= p' /\ p' <= len a /\ p' <= len b.
Proof.
  induction cnt as [|c IH]; intros p p' H0 Ha Hb H; simpl in H.
  - inversion H; subst. lia.
  - destruct ((p <? len a) && (p <? len b)) eqn:E; [|inversion H; subst; lia].
    apply andb_true_iff in E. destruct E as [E1 E2].
    apply Z.ltb_lt in E1. apply Z.ltb_lt in E2.
    apply bind_Ok in H. destruct H as (x & _ & H).
    apply bind_Ok in H. destruct H as (y & _ & H).
    destruct (Equal x y); [|inversion H; subst; lia].
    apply IH in H; lia.
Qed.

Lemma suffixLoop_spec (a b : list Element) (cnt : nat) :
  forall p s s', 0 <= s -> s <= len a - p -> s <= len b - p ->
    suffixLoop a b cnt p s = Ok s' -> s <= s' /\ s' <= len a - p /\ s' <= len b - p.
Proof.
  induction cnt as [|c IH]; intros p s s' H0 Ha Hb H; simpl in H.
  - inversion H; subst. lia.
  - destruct ((s <? len a - p) && (s <? len b - p)) eqn:E; [|inversion H; subst; lia].
    apply andb_true_iff in E. destruct E as [E1 E2].
    apply Z.ltb_lt in E1. apply Z.ltb_lt in E2.
    apply bind_Ok in H. destruct H as (x & _ & H).
    apply bind_Ok in H. destruct H as (y & _ & H).
    destruct (Equal x y); [|inversion H; subst; lia].
    apply IH in H; lia.
Qed.

Lemma histogramDiff_tiles (fuel : nat) (a b : list Element)
      (opts : option histogramOptions) (ops : list DiffOp) :
  histogramDiff fuel a b opts = Ok ops ->
  tilesFrom (len a) (len b) 0 0 ops = true.
Proof.
  pose proof (len_nonneg a) as Ha0. pose proof (len_nonneg b) as Hb0.
  unfold histogramDiff. intro H.
  destruct ((len a =? 0) && (len b =? 0)) eqn:E0.
  { apply andb_true_iff in E0. destruct E0 as [Ea Eb].
    apply Z.eqb_eq in Ea. apply Z.eqb_eq in Eb.
    inversion H; subst. apply tilesFrom_nil. lia. }
  destruct (len a =? 0) eqn:Ea.
  { apply Z.eqb_eq in Ea. inversion H; subst.
    apply tilesFrom_cons. unfold shapeOk. cbn [Type_ AStart AEnd BStart BEnd].
    split; [lia|]. split; [lia|]. split; [lia|]. apply tilesFrom_nil. lia. }
  destruct (len b =? 0) eqn:Eb.
  { apply Z.eqb_eq in Eb. inversion H; subst.
    apply tilesFrom_cons. unfold shapeOk. cbn [Type_ AStart AEnd BStart BEnd].
    split; [lia|]. split; [lia|]. split; [lia|]. apply tilesFrom_nil. lia. }
  apply bind_Ok in H. destruct H as (p & Hp & H).
  apply prefixLoop_spec in Hp; [|lia|lia|lia].
  apply bind_Ok in H. destruct H as (s & Hs & H).
  apply suffixLoop_spec in Hs; [|lia|lia|lia].
  destruct ((len a <=? p + s) && (len b <=? p + s)) eqn:E.
  { apply andb_true_iff in E. destruct E as [E1 E2].
    apply Z.leb_le in E1. apply Z.leb_le in E2.
    inversion H; subst.
    apply tilesFrom_cons. unfold shapeOk. cbn [Type_ AStart AEnd BStart BEnd].
    split; [lia|]. split; [lia|]. split; [lia|]. apply tilesFrom_nil. lia. }
  cbv zeta in H.
  apply bind_Ok in H. destruct H as (a' & Ha' & H).
  apply bind_Ok in H. destruct H as (b' & Hb' & H).
  apply bind_Ok in H. destruct H as (mid & Hmid & H).
  inversion H; subst; clear H.
  apply histogramDiffRecursive_tiles in Hmid.
  rewrite (slice_length _ _ _ _ Ha'), (slice_length _ _ _ _ Hb') in Hmid.
  replace (p + (len a - s - p)) with (len a - s) in Hmid by lia.
  replace (p + (len b - s - p)) with (len b - s) in Hmid by lia.
  apply mergeAdjacentOps_tiles.
  apply (tilesFrom_app _ _ _ 0 0 p p).
  { destruct (0 <? p) eqn:E1.
    - apply Z.ltb_lt in E1.
      apply tilesFrom_cons. unfold shapeOk. cbn [Type_ AStart AEnd BStart BEnd].
      split; [lia|]. split; [lia|]. split; [lia|]. apply tilesFrom_nil. lia.
    - apply Z.ltb_ge in E1. apply tilesFrom_nil. lia. }
  apply (tilesFrom_app _ _ _ p p (len a - s) (len b - s)); [exact Hmid|].
  destruct (0 <? s) eqn:E1.
  - apply Z.ltb_lt in E1.
    apply tilesFrom_cons. unfold shapeOk. cbn [Type_ AStart AEnd BStart BEnd].
    split; [lia|]. split; [lia|]. split; [lia|]. apply tilesFrom_nil. lia.
  - apply Z.ltb_ge in E1. apply tilesFrom_nil. lia.
Qed.

(* ===================================================================== *)
(** ** Marks, compareSeq and buildOps                                    *)
(* ===================================================================== *)

(** *** Marking a range *)

Lemma set_nth_length {A : Type} (l : list A) :
  forall (n : nat) (v : A), List.length (set_nth l n v) = List.length l.
Proof.
  induction l as [|h t IH]; intros [|n] v; simpl; auto.
Qed.

Lemma nth_error_set_nth {A : Type} (l : list A) :
  forall (n p : nat) (v : A),
    (n < List.length l)%nat ->
    nth_error (set_nth l n v) p = if Nat.eqb p n then Some v else nth_error l p.
Proof.
  induction l as [|h t IH]; intros [|n] [|p] v Hn; simpl in *; try lia; auto.
  apply IH. lia.
Qed.

Lemma upd_spec {A : Type} (l : list A) (i : Z) (v : A) :
  0 <= i < len l ->
  exists l', upd l i v = Ok l' /\ len l' = len l
             /\ forall p, idx l' p = if p =? i then Ok v else idx l p.
Proof.
  intro Hi. unfold upd. unfold len in Hi.
  destruct (i <? 0) eqn:E1; [apply Z.ltb_lt in E1; lia|].
  destruct (Z.of_nat (List.length l) <=? i) eqn:E2; [apply Z.leb_le in E2; lia|].
  cbn [orb]. eexists. split; [reflexivity|].
  split; [unfold len; rewrite set_nth_length; reflexivity|].
  intro p. unfold idx. rewrite set_nth_length.
  destruct ((p <? 0) || (Z.of_nat (List.length l) <=? p)) eqn:E.
  - destruct (p =? i) eqn:Ep; [|reflexivity].
    apply Z.eqb_eq in Ep. subst p. rewrite E1, E2 in E. discriminate.
  - apply orb_false_iff in E. destruct E as [E3 E4].
    apply Z.ltb_ge in E3. apply Z.leb_gt in E4.
    rewrite nth_error_set_nth by lia.
    destruct (p =? i) eqn:Ep.
    + apply Z.eqb_eq in Ep. subst p. rewrite Nat.eqb_refl. reflexivity.
    + apply Z.eqb_neq in Ep.
      destruct (Nat.eqb (Z.to_nat p) (Z.to_nat i)) eqn:En; [|reflexivity].
      apply Nat.eqb_eq in En. lia.
Qed.

Lemma markRange_spec (cnt : nat) :
  forall (marks : list bool) (i hi : Z),
    0 <= i -> hi <= len marks -> cnt = Z.to_nat (hi - i) ->
    exists marks',
      markRange cnt marks i hi = Ok marks' /\ len marks' = len marks
      /\ forall p, idx marks' p
                   = if (i <=? p) && (p <? hi) then Ok true else idx marks p.
Proof.
  induction cnt as [|c IH]; intros marks i hi Hi Hh Hc.
  - exists marks. split; [reflexivity|]. split; [reflexivity|].
    intro p. destruct ((i <=? p) && (p <? hi)) eqn:E; [|reflexivity].
    apply andb_true_iff in E. destruct E as [E1 E2].
    apply Z.leb_le in E1. apply Z.ltb_lt in E2. lia.
  - cbn [markRange].
    destruct (i <? hi) eqn:E; [|apply Z.ltb_ge in E; lia]. apply Z.ltb_lt in E.
    destruct (upd_spec marks i true ltac:(lia)) as (m1 & -> & L1 & P1).
    cbn [bind].
    destruct (IH m1 (i + 1) hi ltac:(lia) ltac:(lia) ltac:(lia)) as (m2 & -> & L2 & P2).
    exists m2. split; [reflexivity|]. split; [lia|].
    intro p. rewrite P2, P1.
    destruct (i + 1 <=? p) eqn:A1; destruct (p <? hi) eqn:A2;
      destruct (i <=? p) eqn:A3; destruct (p =? i) eqn:A4; cbn [andb];
      repeat match goal with
             | H : (_ <? _) = true |- _ => apply Z.ltb_lt in H
             | H : (_ <? _) = false |- _ => apply Z.ltb_ge in H
             | H : (_ <=? _) = true |- _ => apply Z.leb_le in H
             | H : (_ <=? _) = false |- _ => apply Z.leb_gt in H
             | H : (_ =? _) = true |- _ => apply Z.eqb_eq in H
             | H : (_ =? _) = false |- _ => apply Z.eqb_neq in H
             end; try reflexivity; lia.
Qed.

(** X4.  [markDeleted] and [markInserted] set exactly the marks of their range
    and touch nothing else of the context, whenever the range lies within
    the mark array. *)
Theorem mark_range (ctx : diffContext) (lo hi : Z) :
  0 <= lo ->
  (hi <= len (xchanges ctx) ->
   exists xc,
     markDeleted ctx lo hi = Ok (setXchanges ctx xc)
     /\ len xc = len (xchanges ctx)
     /\ forall p, idx xc p
                  = if (lo <=? p) && (p <? hi) then Ok true
                    else idx (xchanges ctx) p)
  /\ (hi <= len (ychanges ctx) ->
      exists yc,
        markInserted ctx lo hi = Ok (setYchanges ctx yc)
        /\ len yc = len (ychanges ctx)
        /\ forall p, idx yc p
                     = if (lo <=? p) && (p <? hi) then Ok true
                       else idx (ychanges ctx) p).
Proof.
  intro H0. split; intro H1.
  - unfold markDeleted.
    destruct (markRange_spec (Z.to_nat (hi - lo)) (xchanges ctx) lo hi H0 H1 eq_refl)
      as (xc & -> & L & P).
    exists xc. cbn [bind]. auto.
  - unfold markInserted.
    destruct (markRange_spec (Z.to_nat (hi - lo)) (ychanges ctx) lo hi H0 H1 eq_refl)
      as (yc & -> & L & P).
    exists yc. cbn [bind]. auto.
Qed.

Definition markCtx : diffContext :=
  newDiffContext (toElements ["a"; "b"; "c"]%string) (toElements ["a"; "c"]%string)
                 defaultOptions.

Lemma mark_range_witness :
  (2 <= len (xchanges markCtx) ->
   exists xc,
     markDeleted markCtx 1 2 = Ok (setXchanges markCtx xc)
     /\ len xc = len (xchanges markCtx)
     /\ forall p, idx xc p
                  = if (1 <=? p) && (p <? 2) then Ok true
                    else idx (xchanges markCtx) p)
  /\ (2 <= len (ychanges markCtx) ->
      exists yc,
        markInserted markCtx 1 2 = Ok (setYchanges markCtx yc)
        /\ len yc = len (ychanges markCtx)
        /\ forall p, idx yc p
                     = if (1 <=? p) && (p <? 2) then Ok true
                       else idx (ychanges markCtx) p).
Proof.
  apply (mark_range markCtx 1 2). lia.
Defined.

(** *** What [compareSeq] leaves alone *)

(** Marks are only ever set. *)
Definition marksGrow (m m' : list bool) : Prop :=
  len m' = len m /\ forall p, idx m p = Ok true -> idx m' p = Ok true.

Lemma marksGrow_refl (m : list bool) : marksGrow m m.
Proof. split; auto. Qed.

Lemma marksGrow_trans (m1 m2 m3 : list bool) :
  marksGrow m1 m2 -> marksGrow m2 m3 -> marksGrow m1 m3.
Proof.
  intros [L1 P1] [L2 P2]. split; [lia | auto].
Qed.

Lemma upd_Ok {A : Type} (l l' : list A) (i : Z) (v : A) :
  upd l i v = Ok l' -> 0 <= i < len l.
Proof.
  unfold upd, len. intro H.
  destruct (i <? 0) eqn:E1; [discriminate|].
  destruct (Z.of_nat (List.length l) <=? i) eqn:E2; [discriminate|].
  apply Z.ltb_ge in E1. apply Z.leb_gt in E2. lia.
Qed.

Lemma markRange_grows (cnt : nat) :
  forall (marks marks' : list bool) (i hi : Z),
    markRange cnt marks i hi = Ok marks' -> marksGrow marks marks'.
Proof.
  induction cnt as [|c IH]; intros marks marks' i hi H; simpl in H.
  - inversion H. apply marksGrow_refl.
  - destruct (i <? hi); [|inversion H; apply marksGrow_refl].
    apply bind_Ok in H. destruct H as (m1 & Hu & H).
    pose proof (upd_Ok _ _ _ _ Hu) as Hr.
    destruct (upd_spec marks i true Hr) as (m1' & Hu' & L1 & P1).
    rewrite Hu in Hu'. inversion Hu'; subst m1'.
    eapply marksGrow_trans; [|eapply IH; exact H].
    split; [exact L1|]. intros p Hp. rewrite P1.
    destruct (p =? i); [reflexivity | exact Hp].
Qed.

(** The part of the context [compareSeq] may change is the mark arrays, by
    setting marks, and the diagonal scratch arrays. *)
Definition frameKept (ctx ctx' : diffContext) : Prop :=
  xvec ctx' = xvec ctx /\ yvec ctx' = yvec ctx
  /\ ctxUseHeuristic ctx' = ctxUseHeuristic ctx
  /\ ctxCostLimit ctx' = ctxCostLimit ctx
  /\ marksGrow (xchanges ctx) (xchanges ctx')
  /\ marksGrow (ychanges ctx) (ychanges ctx').

Lemma frameKept_refl (ctx : diffContext) : frameKept ctx ctx.
Proof. unfold frameKept. auto 10 using marksGrow_refl. Qed.

Lemma frameKept_trans (c1 c2 c3 : diffContext) :
  frameKept c1 c2 -> frameKept c2 c3 -> frameKept c1 c3.
Proof.
  intros (A1 & A2 & A3 & A4 & A5 & A6) (B1 & B2 & B3 & B4 & B5 & B6).
  unfold frameKept.
  split; [congruence|]. split; [congruence|]. split; [congruence|].
  split; [congruence|].
  split; eapply marksGrow_trans; eassumption.
Qed.

Lemma findMiddleSnakeExit_frame (ctx ctx' : diffContext)
      (xoff xlim yoff ylim : Z) (fm : bool) (e : searchExit) :
  findMiddleSnakeExit ctx xoff xlim yoff ylim fm = Ok (e, ctx') ->
  frameKept ctx ctx'.
Proof.
  unfold findMiddleSnakeExit. intro H.
  destruct (xlim - xoff =? 0); [inversion H; apply frameKept_refl|].
  destruct (ylim - yoff =? 0); [inversion H; apply frameKept_refl|].
  do 3 bind_inv H.
  assert (Hs : forall fd bd, frameKept ctx (setDiags ctx fd bd)).
  { intros fd bd. unfold frameKept, setDiags. cbn.
    auto 10 using marksGrow_refl. }
  destruct a1 as [st|[p st]]; [|inversion H; apply Hs].
  destruct (0 <? bestSnakeScore st); [inversion H; apply Hs|].
  bind_inv H. inversion H; apply Hs.
Qed.

Lemma compareSeq_frame (fuel : nat) :
  forall (ctx ctx' : diffContext) (xoff xlim yoff ylim : Z) (fm : bool),
    compareSeq fuel ctx xoff xlim yoff ylim fm = Ok ctx' ->
    frameKept ctx ctx'.
Proof.
  induction fuel as [|f IH]; intros ctx ctx' xoff xlim yoff ylim fm H; simpl in H;
    [discriminate|].
  bind_inv H. destruct a as [xoff' yoff'].
  bind_inv H. destruct a as [xlim' ylim'].
  destruct (xoff' =? xlim').
  { unfold markInserted in H. apply bind_Ok in H. destruct H as (yc & Hm & H).
    inversion H; subst. apply markRange_grows in Hm.
    unfold frameKept, setYchanges. cbn. auto 10 using marksGrow_refl. }
  destruct (yoff' =? ylim').
  { unfold markDeleted in H. apply bind_Ok in H. destruct H as (xc & Hm & H).
    inversion H; subst. apply markRange_grows in Hm.
    unfold frameKept, setXchanges. cbn. auto 10 using marksGrow_refl. }
  apply bind_Ok in H. destruct H as ([part ctx1] & Hf & H).
  unfold findMiddleSnake in Hf.
  apply bind_Ok in Hf. destruct Hf as ([e ctx1'] & Hf & Hf').
  inversion Hf'; subst. apply findMiddleSnakeExit_frame in Hf.
  apply bind_Ok in H. destruct H as (ctx2 & H2 & H).
  apply IH in H2. apply IH in H.
  eapply frameKept_trans; [exact Hf|]. eapply frameKept_trans; eassumption.
Qed.

(** X5.  [compareSeq] keeps the two sequences, the heuristic flag and the cost
    limit of its context, keeps the lengths of the mark arrays, and never
    clears a mark. *)
Theorem compareSeq_keeps_frame
        (fuel : nat) (ctx ctx' : diffContext) (xoff xlim yoff ylim : Z) (fm : bool) :
  compareSeq fuel ctx xoff xlim yoff ylim fm = Ok ctx' ->
  frameKept ctx ctx'.
Proof.
  apply compareSeq_frame.
Qed.

(** *** [buildOps] follows the marks *)

Lemma equalRun_marks (xc yc : list bool) (cnt : nat) :
  forall n m i j i' j' : Z,
    equalRun xc yc cnt n m i j = Ok (i', j') ->
    forall k, 0 <= k < i' - i ->
      idx xc (i + k) = Ok false /\ idx yc (j + k) = Ok false.
Proof.
  induction cnt as [|c IH]; intros n m i j i' j' H k Hk; simpl in H.
  - inversion H; subst. lia.
  - destruct ((i <? n) && (j <? m)); [|inversion H; subst; lia].
    apply bind_Ok in H. destruct H as (x & Hx & H).
    destruct x; cbn [negb] in H; [inversion H; subst; lia|].
    apply bind_Ok in H. destruct H as (y & Hy & H).
    destruct y; cbn [negb] in H; [inversion H; subst; lia|].
    destruct (Z.eq_dec k 0) as [->|Hne].
    + rewrite !Z.add_0_r. auto.
    + pose proof (IH _ _ _ _ _ _ H (k - 1)) as Hr.
      replace (i + 1 + (k - 1)) with (i + k) in Hr by lia.
      replace (j + 1 + (k - 1)) with (j + k) in Hr by lia.
      apply Hr.
      assert (i + 1 <= i').
      { clear -H. revert H. generalize (i + 1) (j + 1). intros a b H.
        revert a b H. induction c as [|c IHc]; intros a b H; simpl in H.
        - inversion H; lia.
        - destruct ((a <? n) && (b <? m)); [|inversion H; lia].
          apply bind_Ok in H. destruct H as (x & _ & H).
          destruct x; cbn [negb] in H; [inversion H; lia|].
          apply bind_Ok in H. destruct H as (y & _ & H).
          destruct y; cbn [negb] in H; [inversion H; lia|].
          apply IHc in H. lia. }
      lia.
Qed.

Lemma changeRun_marks (ch : list bool) (cnt : nat) :
  forall n i i' : Z,
    changeRun ch cnt n i = Ok i' ->
    i <= i' /\ forall q, i <= q < i' -> idx ch q = Ok true.
Proof.
  induction cnt as [|c IH]; intros n i i' H; simpl in H.
  - inversion H; subst. split; [lia | intros; lia].
  - destruct (i <? n); [|inversion H; subst; split; [lia | intros; lia]].
    apply bind_Ok in H. destruct H as (x & Hx & H).
    destruct x; [|inversion H; subst; split; [lia | intros; lia]].
    apply IH in H. destruct H as [Hle Hq]. split; [lia|].
    intros q Hr. destruct (Z.eq_dec q i) as [->|Hne]; [exact Hx | apply Hq; lia].
Qed.

(** The op agrees with the marks: an Equal op spans unmarked positions on
    both sides, a Delete op marked positions of A, an Insert op marked
    positions of B; and it is not empty. *)
Definition followsMarks (xc yc : list bool) (op : DiffOp) : Prop :=
  match Type_ op with
  | OpEqual =>
      AStart op < AEnd op
      /\ forall k, 0 <= k < AEnd op - AStart op ->
           idx xc (AStart op + k) = Ok false /\ idx yc (BStart op + k) = Ok false
  | OpDelete =>
      AStart op < AEnd op
      /\ forall q, AStart op <= q < AEnd op -> idx xc q = Ok true
  | OpInsert =>
      BStart op < BEnd op
      /\ forall q, BStart op <= q < BEnd op -> idx yc q = Ok true
  end.

Lemma buildOpsLoop_marks (xc yc : list bool) (cnt : nat) :
  forall (n m i j : Z) (ops : list DiffOp),
    buildOpsLoop xc yc cnt n m i j = Ok ops ->
    Forall (followsMarks xc yc) ops.
Proof.
  induction cnt as [|c IH]; intros n m i j ops H; simpl in H.
  - destruct ((i <? n) || (j <? m)); [discriminate|]. inversion H. constructor.
  - destruct ((i <? n) || (j <? m)); [|inversion H; constructor].
    apply bind_Ok in H. destruct H as ([[rops i'] j'] & Hround & H).
    apply bind_Ok in H. destruct H as (r & Hrest & H).
    inversion H; subst ops; clear H.
    apply buildOpsRound_spec in Hround.
    destruct Hround as (i1 & j1 & Heq & Hdel & Hins & Hops).
    pose proof (equalRun_marks _ _ _ _ _ _ _ _ _ Heq) as Me.
    pose proof (changeRun_marks _ _ _ _ _ Hdel) as [_ Md].
    pose proof (changeRun_marks _ _ _ _ _ Hins) as [_ Mi].
    apply IH in Hrest. subst rops.
    apply Forall_app. split; [|exact Hrest].
    destruct (i <? i1) eqn:E0; destruct (i1 <? i') eqn:E1; destruct (j1 <? j') eqn:E2;
      repeat match goal with
             | H : (_ <? _) = true |- _ => apply Z.ltb_lt in H
             | H : (_ <? _) = false |- _ => apply Z.ltb_ge in H
             end;
      cbn [app];
      repeat (constructor;
              [unfold followsMarks; cbn [Type_ AStart AEnd BStart BEnd];
               split; [lia | assumption]|]);
      constructor.
Qed.

(** X6.  The ops [buildOps] returns describe the marks: they tile
    [0, |A|) x [0, |B|), neighbours have different types, no op is empty,
    every Equal op spans positions unmarked in both sequences, every Delete
    op marked positions of A and every Insert op marked positions of B. *)
Theorem buildOps_describes_marks (ctx : diffContext) (ops : list DiffOp) :
  buildOps ctx = Ok ops ->
  tilesFrom (len (xvec ctx)) (len (yvec ctx)) 0 0 ops = true
  /\ alternating ops
  /\ Forall (followsMarks (xchanges ctx) (ychanges ctx)) ops.
Proof.
  intro H. split; [apply buildOps_tiles; exact H|].
  split; [apply (buildOps_alternating ctx ops H)|].
  unfold buildOps in H. eapply buildOpsLoop_marks. exact H.
Qed.

(* ===================================================================== *)
(** ** Simple inputs                                                     *)
(* ===================================================================== *)

(** *** One sequence is a prefix of the other *)

Lemma equalRun_false_run (xc yc : list bool) (n m p : Z) (cnt : nat) :
  forall i,
    0 <= i <= p -> (p = n /\ p <= m) \/ (p = m /\ p <= n) ->
    (forall q, i <= q < p -> idx xc q = Ok false /\ idx yc q = Ok false) ->
    (Z.to_nat (p - i) <= cnt)%nat ->
    equalRun xc yc cnt n m i i = Ok (p, p).
Proof.
  induction cnt as [|c IH]; intros i Hi Hp Hf Hc.
  - simpl. assert (i = p) by lia. subst. reflexivity.
  - cbn [equalRun]. destruct (Z.eq_dec i p) as [->|Hne].
    + destruct ((p <? n) && (p <? m)) eqn:E; [|reflexivity].
      apply andb_true_iff in E. destruct E as [E1 E2].
      apply Z.ltb_lt in E1. apply Z.ltb_lt in E2. lia.
    + destruct ((i <? n) && (i <? m)) eqn:E.
      * destruct (Hf i ltac:(lia)) as [Hx Hy]. rewrite Hx. cbn [bind negb].
        rewrite Hy. cbn [bind negb]. apply IH; try lia.
        intros q Hq. apply Hf. lia.
      * apply andb_false_iff in E.
        destruct E as [E|E]; apply Z.ltb_ge in E; lia.
Qed.

Lemma changeRun_true_run (ch : list bool) (n : Z) (cnt : nat) :
  forall i,
    i <= n -> (forall q, i <= q < n -> idx ch q = Ok true) ->
    (Z.to_nat (n - i) <= cnt)%nat ->
    changeRun ch cnt n i = Ok n.
Proof.
  induction cnt as [|c IH]; intros i Hi Hf Hc.
  - simpl. assert (i = n) by lia. subst. reflexivity.
  - cbn [changeRun]. destruct (i <? n) eqn:E.
    + apply Z.ltb_lt in E. rewrite (Hf i ltac:(lia)). cbn [bind].
      apply IH; try lia. intros q Hq. apply Hf. lia.
    + apply Z.ltb_ge in E. f_equal. lia.
Qed.

(** The ops [buildOps] makes of marks that are clear up to [p] and set
    from there on. *)
Definition prefixOps (n m p : Z) : list DiffOp :=
  (if 0 <? p then [mkOp OpEqual 0 p 0 p] else [])
  ++ (if p <? n then [mkOp OpDelete p n p p] else [])
  ++ (if p <? m then [mkOp OpInsert n n p m] else []).

Lemma buildOpsLoop_prefix (xc yc : list bool) (n m p : Z) (cnt : nat) :
  0 <= p -> (p = n /\ p <= m) \/ (p = m /\ p <= n) ->
  (forall q, 0 <= q < p -> idx xc q = Ok false /\ idx yc q = Ok false) ->
  (forall q, p <= q < n -> idx xc q = Ok true) ->
  (forall q, p <= q < m -> idx yc q = Ok true) ->
  buildOpsLoop xc yc (S cnt) n m 0 0 = Ok (prefixOps n m p).
Proof.
  intros Hp0 Hp Hf Hx Hy.
  assert (Hend : forall c, buildOpsLoop xc yc c n m n m = Ok []).
  { intro c. destruct c; simpl; rewrite !Z.ltb_irrefl; reflexivity. }
  cbn [buildOpsLoop].
  destruct ((0 <? n) || (0 <? m)) eqn:E.
  - unfold buildOpsRound.
    rewrite (equalRun_false_run xc yc n m p _ 0) by (try lia; intros; apply Hf; lia).
    cbn [bind].
    rewrite (changeRun_true_run xc n _ p) by (try lia; exact Hx).
    cbn [bind].
    rewrite (changeRun_true_run yc m _ p) by (try lia; exact Hy).
    cbn [bind]. rewrite Hend. cbn [bind]. rewrite app_nil_r. reflexivity.
  - apply orb_false_iff in E. destruct E as [E1 E2].
    apply Z.ltb_ge in E1. apply Z.ltb_ge in E2.
    assert (n = 0) by lia. assert (m = 0) by lia. assert (p = 0) by lia. subst.
    reflexivity.
Qed.

Lemma idx_repeat {A : Type} (v : A) (n : nat) (q : Z) :
  0 <= q < Z.of_nat n -> idx (repeat v n) q = Ok v.
Proof.
  intro Hq. unfold idx. rewrite repeat_length.
  destruct (q <? 0) eqn:E1; [apply Z.ltb_lt in E1; lia|].
  destruct (Z.of_nat n <=? q) eqn:E2; [apply Z.leb_le in E2; lia|].
  cbn [orb]. rewrite nth_error_repeat by lia. reflexivity.
Qed.

Lemma idx_app_left {A : Type} (l1 l2 : list A) (q : Z) (x : A) :
  idx l1 q = Ok x -> idx (l1 ++ l2) q = Ok x.
Proof.
  intro H. apply idx_Ok in H. destruct H as [Hr Hn].
  unfold idx, len in *. rewrite length_app.
  destruct (q <? 0) eqn:E1; [apply Z.ltb_lt in E1; lia|].
  destruct (Z.of_nat (List.length l1 + List.length l2) <=? q) eqn:E2;
    [apply Z.leb_le in E2; lia|].
  cbn [orb]. rewrite nth_error_app1 by lia. rewrite Hn. reflexivity.
Qed.

Lemma trimPrefix_common (ctx : diffContext) (xlim ylim p : Z) (cnt : nat) :
  forall i,
    0 <= i <= p -> (p = xlim /\ p <= ylim) \/ (p = ylim /\ p <= xlim) ->
    (forall q, i <= q < p -> ctxEqual ctx q q = Ok true) ->
    (Z.to_nat (p - i) <= cnt)%nat ->
    trimPrefix ctx cnt i xlim i ylim = Ok (p, p).
Proof.
  induction cnt as [|c IH]; intros i Hi Hp Hf Hc.
  - simpl. assert (i = p) by lia. subst. reflexivity.
  - cbn [trimPrefix]. destruct ((i <? xlim) && (i <? ylim)) eqn:E.
    + apply andb_true_iff in E. destruct E as [E1 E2].
      apply Z.ltb_lt in E1. apply Z.ltb_lt in E2.
      rewrite (Hf i ltac:(lia)). cbn [bind]. apply IH; try lia.
      intros q Hq. apply Hf. lia.
    + apply andb_false_iff in E.
      destruct E as [E|E]; apply Z.ltb_ge in E; repeat f_equal; lia.
Qed.

Lemma trimSuffix_stay (ctx : diffContext) (cnt : nat) (xoff xlim yoff ylim : Z) :
  xlim <= xoff \/ ylim <= yoff ->
  trimSuffix ctx cnt xoff xlim yoff ylim = Ok (xlim, ylim).
Proof.
  intro H. destruct cnt; simpl; [reflexivity|].
  destruct ((xoff <? xlim) && (yoff <? ylim)) eqn:E; [|reflexivity].
  apply andb_true_iff in E. destruct E as [E1 E2].
  apply Z.ltb_lt in E1. apply Z.ltb_lt in E2. lia.
Qed.

(** The two sequences agree on their first [p] elements, and one of them
    ends there. *)
Definition commonPrefix (a b : list Element) (p : Z) : Prop :=
  ((p = len a /\ p <= len b) \/ (p = len b /\ p <= len a))
  /\ forall q, 0 <= q < p ->
       exists x y, idx a q = Ok x /\ idx b q = Ok y /\ Equal x y = true.

Lemma compareSeq_prefix (fuel : nat) (a b : list Element) (o : options) (p : Z) :
  commonPrefix a b p ->
  exists ctx,
    compareSeq (S fuel) (newDiffContext a b o) 0 (len a) 0 (len b) (forceMinimal o)
    = Ok ctx
    /\ buildOps ctx = Ok (prefixOps (len a) (len b) p).
Proof.
  intros [Hp Heq].
  pose proof (len_nonneg a) as Ha0. pose proof (len_nonneg b) as Hb0.
  assert (Hp0 : 0 <= p) by lia.
  cbn [compareSeq].
  rewrite (trimPrefix_common _ (len a) (len b) p _ 0); try lia.
  2:{ intros q Hq. destruct (Heq q Hq) as (x & y & Hx & Hy & Hxy).
      unfold ctxEqual. cbn [newDiffContext xvec yvec].
      rewrite Hx, Hy. cbn [bind]. rewrite Hxy. reflexivity. }
  cbn [bind].
  rewrite trimSuffix_stay by lia. cbn [bind].
  set (ctx0 := newDiffContext a b o).
  assert (Lx : len (xchanges ctx0) = len a).
  { unfold ctx0, len. cbn [newDiffContext xchanges]. rewrite repeat_length.
    unfold len. lia. }
  assert (Ly : len (ychanges ctx0) = len b).
  { unfold ctx0, len. cbn [newDiffContext ychanges]. rewrite repeat_length.
    unfold len. lia. }
  assert (Fx : forall q, 0 <= q < len a -> idx (xchanges ctx0) q = Ok false).
  { intros q Hq. unfold ctx0. cbn [newDiffContext xchanges].
    apply idx_repeat. unfold len in *. lia. }
  assert (Fy : forall q, 0 <= q < len b -> idx (ychanges ctx0) q = Ok false).
  { intros q Hq. unfold ctx0. cbn [newDiffContext ychanges].
    apply idx_repeat. unfold len in *. lia. }
  destruct (p =? len a) eqn:E1.
  - apply Z.eqb_eq in E1.
    unfold markInserted.
    destruct (markRange_spec (Z.to_nat (len b - p)) (ychanges ctx0) p (len b)
                ltac:(lia) ltac:(lia) eq_refl) as (yc & -> & L & P).
    cbn [bind]. eexists. split; [reflexivity|].
    unfold buildOps. cbn [setYchanges xvec yvec xchanges ychanges].
    change (xvec ctx0) with a. change (yvec ctx0) with b.
    replace (Z.to_nat (len a + len b + 1)) with (S (Z.to_nat (len a + len b))) by lia.
    apply buildOpsLoop_prefix; try lia.
    + intros q Hq. split; [apply Fx; lia|]. rewrite P.
      replace ((p <=? q) && (q <? len b)) with false
        by (symmetry; apply andb_false_iff; left; apply Z.leb_gt; lia).
      apply Fy. lia.
    + intros q Hq. rewrite P.
      replace ((p <=? q) && (q <? len b)) with true
        by (symmetry; apply andb_true_iff; split;
            [apply Z.leb_le | apply Z.ltb_lt]; lia).
      reflexivity.
  - apply Z.eqb_neq in E1.
    assert (Hpb : p = len b /\ p < len a) by lia. destruct Hpb as [Hpb Hlt].
    rewrite <- Hpb. rewrite Z.eqb_refl.
    unfold markDeleted.
    destruct (markRange_spec (Z.to_nat (len a - p)) (xchanges ctx0) p (len a)
                ltac:(lia) ltac:(lia) eq_refl) as (xc & -> & L & P).
    cbn [bind]. eexists. split; [reflexivity|].
    unfold buildOps. cbn [setXchanges xvec yvec xchanges ychanges].
    change (xvec ctx0) with a. change (yvec ctx0) with b.
    replace (Z.to_nat (len a + len b + 1)) with (S (Z.to_nat (len a + len b))) by lia.
    rewrite <- Hpb.
    apply buildOpsLoop_prefix; try lia.
    + intros q Hq. split; [|apply Fy; lia]. rewrite P.
      replace ((p <=? q) && (q <? len a)) with false
        by (symmetry; apply andb_false_iff; left; apply Z.leb_gt; lia).
      apply Fx. lia.
    + intros q Hq. rewrite P.
      replace ((p <=? q) && (q <? len a)) with true
        by (symmetry; apply andb_true_iff; split;
            [apply Z.leb_le | apply Z.ltb_lt]; lia).
      reflexivity.
Qed.

Lemma commonPrefix_app (a e : list Element) :
  commonPrefix a (a ++ e) (len a) /\ commonPrefix (a ++ e) a (len a).
Proof.
  pose proof (len_nonneg e) as He.
  assert (Hq : forall q, 0 <= q < len a ->
                 exists x, idx a q = Ok x /\ idx (a ++ e) q = Ok x).
  { intros q Hq. destruct (idx_in_range a q Hq) as [x Hx].
    exists x. split; [exact Hx | apply idx_app_left; exact Hx]. }
  split; (split; [rewrite len_app; lia|]); intros q Hr;
    destruct (Hq q Hr) as (x & H1 & H2); exists x, x;
    repeat split; auto using Equal_refl.
Qed.

Lemma DiffElements_unprocessed (fuel : nat) (a b : list Element) (opts : list Option_)
      (p : Z) :
  0 < len a -> 0 < len b -> commonPrefix a b p ->
  preprocessing (applyOptions opts) = false ->
  DiffElements (S fuel) a b opts
  = (if postprocessing (applyOptions opts)
     then shiftBoundaries (prefixOps (len a) (len b) p) a b
     else Ok (prefixOps (len a) (len b) p)).
Proof.
  intros Ha Hb Hp Hpre.
  unfold DiffElements, DiffElementsWith. cbv zeta.
  replace (len a =? 0) with false by (symmetry; apply Z.eqb_neq; lia).
  replace (len b =? 0) with false by (symmetry; apply Z.eqb_neq; lia).
  cbn [andb]. rewrite Hpre. cbn [bind].
  replace (0 <? len a) with true by (symmetry; apply Z.ltb_lt; lia).
  cbn [orb].
  destruct (compareSeq_prefix fuel a b (applyOptions opts) p Hp) as (ctx & Hc & Hb').
  rewrite Hc. cbn [bind]. rewrite Hb'. cbn [bind]. reflexivity.
Qed.

(** X7.  With preprocessing off, the diff of a non-empty sequence with itself
    is one Equal op over the whole of it, for every other option and every
    recursion budget of at least one call. *)
Theorem DiffElements_identical (fuel : nat) (a : list Element) (opts : list Option_) :
  0 < len a ->
  preprocessing (applyOptions opts) = false ->
  DiffElements (S fuel) a a opts = Ok [mkOp OpEqual 0 (len a) 0 (len a)].
Proof.
  intros Ha Hpre.
  assert (Hp : commonPrefix a a (len a)).
  { split; [lia|]. intros q Hq. destruct (idx_in_range a q Hq) as [x Hx].
    exists x, x. auto using Equal_refl. }
  rewrite (DiffElements_unprocessed fuel a a opts (len a) Ha Ha Hp Hpre).
  unfold prefixOps.
  replace (0 <? len a) with true by (symmetry; apply Z.ltb_lt; lia).
  rewrite Z.ltb_irrefl. cbn [app].
  destruct (postprocessing (applyOptions opts)); [|reflexivity].
  unfold shiftBoundaries. cbn [shiftEach Type_ bind mergeAdjacentOps mergeFrom].
  change (len [mkOp OpEqual 0 (len a) 0 (len a)] =? 0) with false. cbv iota.
  apply optimizeBoundaries_total.
Qed.

Lemma DiffElements_identical_witness :
  DiffElements 1 (toElements ["a"; "b"]%string) (toElements ["a"; "b"]%string)
               [WithPreprocessing false]
  = Ok [mkOp OpEqual 0 (len (toElements ["a"; "b"]%string)) 0
             (len (toElements ["a"; "b"]%string))].
Proof.
  exact (DiffElements_identical 0 (toElements ["a"; "b"]%string)
           [WithPreprocessing false] eq_refl eq_refl).
Defined.

(** With preprocessing on, the filter can take repeated elements out before
    the comparison, and identical inputs then need not diff as one Equal op:
    of seven elements of which six repeat, five come back as deleted and
    inserted (postprocessing off). *)
Definition repeatedA : list string := ["k"; "x"; "x"; "x"; "x"; "x"; "x"]%string.

Lemma identical_inputs_filtered :
  DiffElements 10 (toElements repeatedA) (toElements repeatedA)
               [WithPostprocessing false]
  = Ok [mkOp OpEqual 0 2 0 2; mkOp OpDelete 2 7 2 2; mkOp OpInsert 7 7 2 7].
Proof. vm_compute. reflexivity. Qed.

(** X8.  With preprocessing and postprocessing off, appending elements to a
    non-empty sequence diffs as one Equal op and one Insert op, and cutting
    them off again as one Equal op and one Delete op. *)
Theorem DiffElements_appended (fuel : nat) (a e : list Element) (opts : list Option_) :
  0 < len a -> 0 < len e ->
  preprocessing (applyOptions opts) = false ->
  postprocessing (applyOptions opts) = false ->
  DiffElements (S fuel) a (a ++ e) opts
  = Ok [mkOp OpEqual 0 (len a) 0 (len a);
        mkOp OpInsert (len a) (len a) (len a) (len a + len e)]
  /\ DiffElements (S fuel) (a ++ e) a opts
     = Ok [mkOp OpEqual 0 (len a) 0 (len a);
           mkOp OpDelete (len a) (len a + len e) (len a) (len a)].
Proof.
  intros Ha He Hpre Hpost.
  destruct (commonPrefix_app a e) as [H1 H2].
  assert (Hae : 0 < len (a ++ e)) by (rewrite len_app; lia).
  rewrite (DiffElements_unprocessed fuel a (a ++ e) opts (len a) Ha Hae H1 Hpre).
  rewrite (DiffElements_unprocessed fuel (a ++ e) a opts (len a) Hae Ha H2 Hpre).
  rewrite Hpost. unfold prefixOps. rewrite len_app.
  replace (0 <? len a) with true by (symmetry; apply Z.ltb_lt; lia).
  rewrite Z.ltb_irrefl.
  replace (len a <? len a + len e) with true by (symmetry; apply Z.ltb_lt; lia).
  split; reflexivity.
Qed.

Lemma DiffElements_appended_witness :
  DiffElements 1 (toElements ["a"]%string) (toElements ["a"]%string ++ toElements ["b"]%string)
               [WithPreprocessing false; WithPostprocessing false]
  = Ok [mkOp OpEqual 0 (len (toElements ["a"]%string)) 0 (len (toElements ["a"]%string));
        mkOp OpInsert (len (toElements ["a"]%string)) (len (toElements ["a"]%string))
             (len (toElements ["a"]%string))
             (len (toElements ["a"]%string) + len (toElements ["b"]%string))]
  /\ DiffElements 1 (toElements ["a"]%string ++ toElements ["b"]%string)
                  (toElements ["a"]%string)
                  [WithPreprocessing false; WithPostprocessing false]
     = Ok [mkOp OpEqual 0 (len (toElements ["a"]%string)) 0 (len (toElements ["a"]%string));
           mkOp OpDelete (len (toElements ["a"]%string))
                (len (toElements ["a"]%string) + len (toElements ["b"]%string))
                (len (toElements ["a"]%string)) (len (toElements ["a"]%string))].
Proof.
  exact (DiffElements_appended 0 (toElements ["a"]%string) (toElements ["b"]%string)
           [WithPreprocessing false; WithPostprocessing false]
           eq_refl eq_refl eq_refl eq_refl).
Defined.

(** *** The histogram driver *)

Lemma prefixLoop_same (a : list Element) (cnt : nat) :
  forall p, 0 <= p <= len a -> (Z.to_nat (len a - p) <= cnt)%nat ->
            prefixLoop a a cnt p = Ok (len a).
Proof.
  induction cnt as [|c IH]; intros p Hp Hc.
  - simpl. f_equal. lia.
  - cbn [prefixLoop]. destruct ((p <? len a) && (p <? len a)) eqn:E.
    + apply andb_true_iff in E. destruct E as [E _]. apply Z.ltb_lt in E.
      destruct (idx_in_range a p ltac:(lia)) as [x Hx]. rewrite Hx. cbn [bind].
      rewrite Equal_refl. apply IH; lia.
    + apply andb_false_iff in E.
      destruct E as [E|E]; apply Z.ltb_ge in E; f_equal; lia.
Qed.

(** X21.  The histogram driver returns one Equal op over the whole sequence when
    both inputs are the same non-empty sequence: for every option list and
    every recursion budget, also zero. *)
Theorem DiffElementsHistogram_identical
        (fuel : nat) (a : list Element) (opts : list Option_) :
  0 < len a ->
  DiffElementsHistogram fuel a a opts = Ok [mkOp OpEqual 0 (len a) 0 (len a)].
Proof.
  intro Ha. unfold DiffElementsHistogram, histogramDiff. cbv zeta.
  replace (len a =? 0) with false by (symmetry; apply Z.eqb_neq; lia).
  cbn [andb].
  rewrite (prefixLoop_same a (List.length a) 0) by (unfold len in *; lia).
  cbn [bind].
  assert (Hs : suffixLoop a a (List.length a) (len a) 0 = Ok 0).
  { destruct (List.length a); simpl; [reflexivity|].
    rewrite Z.sub_diag. rewrite Z.ltb_irrefl. reflexivity. }
  rewrite Hs. cbn [bind].
  replace (len a <=? len a + 0) with true by (symmetry; apply Z.leb_le; lia).
  cbn [andb bind].
  assert (He : eliminateWeakAnchors [mkOp OpEqual 0 (len a) 0 (len a)] a a
               = [mkOp OpEqual 0 (len a) 0 (len a)]) by reflexivity.
  assert (Hsh : shiftBoundaries [mkOp OpEqual 0 (len a) 0 (len a)] a a
                = Ok [mkOp OpEqual 0 (len a) 0 (len a)]).
  { unfold shiftBoundaries. cbn [shiftEach Type_ bind mergeAdjacentOps mergeFrom].
    change (len [mkOp OpEqual 0 (len a) 0 (len a)] =? 0) with false. cbv iota.
    apply optimizeBoundaries_total. }
  destruct (anchorElimination (applyOptions opts));
    destruct (postprocessing (applyOptions opts));
    rewrite ?He, ?Hsh; reflexivity.
Qed.

Lemma DiffElementsHistogram_identical_witness :
  DiffElementsHistogram 0 (toElements ["a"; "b"]%string) (toElements ["a"; "b"]%string) []
  = Ok [mkOp OpEqual 0 (len (toElements ["a"; "b"]%string)) 0
             (len (toElements ["a"; "b"]%string))].
Proof.
  exact (DiffElementsHistogram_identical 0 (toElements ["a"; "b"]%string) [] eq_refl).
Defined.

(** X22.  The histogram driver's ops tile [0, |A|) x [0, |B|) before the
    boundary shifter runs, and its postprocessing steps never fail: when
    [histogramDiff] returns, so does [DiffElementsHistogram], for every
    option list. *)
Theorem DiffElementsHistogram_tiles_and_returns
        (fuel : nat) (a b : list Element) (opts : list Option_) (raw : list DiffOp) :
  histogramDiff fuel a b (Some defaultHistogramOptions) = Ok raw ->
  tilesFrom (len a) (len b) 0 0 raw = true
  /\ (exists ops, DiffElementsHistogram fuel a b opts = Ok ops)
  /\ (postprocessing (applyOptions opts) = false ->
      exists ops, DiffElementsHistogram fuel a b opts = Ok ops
                  /\ tilesFrom (len a) (len b) 0 0 ops = true).
Proof.
  intro H. pose proof (histogramDiff_tiles fuel a b _ raw H) as Ht.
  split; [exact Ht|].
  unfold DiffElementsHistogram. cbv zeta. rewrite H. cbn [bind].
  set (mid := if anchorElimination (applyOptions opts)
              then eliminateWeakAnchors raw a b else raw).
  assert (Hm : tilesFrom (len a) (len b) 0 0 mid = true).
  { unfold mid, eliminateWeakAnchors.
    destruct (anchorElimination (applyOptions opts)); [|exact Ht].
    destruct (len raw <? 2); [exact Ht | apply mergeAdjacentOps_tiles; exact Ht]. }
  split.
  - destruct (postprocessing (applyOptions opts)); [|eauto].
    destruct (shiftBoundaries_total mid a b
                (tilesFrom_inRange a b mid 0 0 ltac:(lia) ltac:(lia) Hm))
      as (r & _ & _ & Hr).
    eauto.
  - intros ->. eauto.
Qed.

Lemma shiftInsert_whole (s : list Element) (a : list Element) :
  shiftInsert (mkOp OpInsert 0 0 0 (len s)) a s = Ok (mkOp OpInsert 0 0 0 (len s)).
Proof.
  unfold shiftInsert. cbn [AStart AEnd BStart BEnd].
  destruct (len s - 0 =? 0); [reflexivity|].
  rewrite Z.sub_diag. reflexivity.
Qed.

Lemma shiftDelete_whole (s : list Element) (b : list Element) :
  shiftDelete (mkOp OpDelete 0 (len s) 0 0) s b = Ok (mkOp OpDelete 0 (len s) 0 0).
Proof.
  unfold shiftDelete. cbn [AStart AEnd BStart BEnd].
  destruct (len s - 0 =? 0); [reflexivity|].
  rewrite Z.sub_diag. reflexivity.
Qed.

Lemma eliminateWeakAnchors_single (op : DiffOp) (a b : list Element) :
  eliminateWeakAnchors [op] a b = [op].
Proof. reflexivity. Qed.

(** X9.  Empty inputs.  Both drivers return no op for two empty sequences, one
    Insert over all of B when only A is empty, and one Delete over all of A
    when only B is empty: for every option list and recursion budget. *)
Theorem drivers_on_empty_inputs (fuel : nat) (s : list Element) (opts : list Option_) :
  0 < len s ->
  DiffElements fuel [] [] opts = Ok []
  /\ DiffElementsHistogram fuel [] [] opts = Ok []
  /\ DiffElements fuel [] s opts = Ok [mkOp OpInsert 0 0 0 (len s)]
  /\ DiffElementsHistogram fuel [] s opts = Ok [mkOp OpInsert 0 0 0 (len s)]
  /\ DiffElements fuel s [] opts = Ok [mkOp OpDelete 0 (len s) 0 0]
  /\ DiffElementsHistogram fuel s [] opts = Ok [mkOp OpDelete 0 (len s) 0 0].
Proof.
  intro Hs.
  assert (E : (len s =? 0) = false) by (apply Z.eqb_neq; lia).
  split; [reflexivity|].
  split.
  { unfold DiffElementsHistogram. cbv zeta. cbn [histogramDiff len List.length bind].
    destruct (anchorElimination (applyOptions opts));
      destruct (postprocessing (applyOptions opts)); reflexivity. }
  split.
  { unfold DiffElements, DiffElementsWith. cbv zeta.
    change (len (@nil Element)) with 0. rewrite E. reflexivity. }
  split.
  { unfold DiffElementsHistogram, histogramDiff. cbv zeta.
    change (len (@nil Element)) with 0. rewrite E. cbn [Z.eqb andb bind].
    assert (Hsh : shiftBoundaries [mkOp OpInsert 0 0 0 (len s)] [] s
                  = Ok [mkOp OpInsert 0 0 0 (len s)]).
    { unfold shiftBoundaries.
      change (len [mkOp OpInsert 0 0 0 (len s)] =? 0) with false. cbv iota.
      cbn [shiftEach Type_]. unfold shiftOp. cbn [Type_].
      rewrite shiftInsert_whole. cbn [bind mergeAdjacentOps mergeFrom].
      apply optimizeBoundaries_total. }
    destruct (anchorElimination (applyOptions opts));
      destruct (postprocessing (applyOptions opts));
      rewrite ?(eliminateWeakAnchors_single _ [] s), ?Hsh; reflexivity. }
  split.
  { unfold DiffElements, DiffElementsWith. cbv zeta.
    change (len (@nil Element)) with 0. rewrite E. reflexivity. }
  unfold DiffElementsHistogram, histogramDiff. cbv zeta.
  change (len (@nil Element)) with 0. rewrite E. cbn [Z.eqb andb bind].
  assert (Hsh : shiftBoundaries [mkOp OpDelete 0 (len s) 0 0] s []
                = Ok [mkOp OpDelete 0 (len s) 0 0]).
  { unfold shiftBoundaries.
    change (len [mkOp OpDelete 0 (len s) 0 0] =? 0) with false. cbv iota.
    cbn [shiftEach Type_]. unfold shiftOp. cbn [Type_].
    rewrite shiftDelete_whole. cbn [bind mergeAdjacentOps mergeFrom].
    apply optimizeBoundaries_total. }
  destruct (anchorElimination (applyOptions opts));
    destruct (postprocessing (applyOptions opts));
    rewrite ?(eliminateWeakAnchors_single _ s []), ?Hsh; reflexivity.
Qed.

(* ===================================================================== *)
(** ** The weak-anchor helpers                                           *)
(* ===================================================================== *)


Lemma trimStartLoop_spec (a : list Element) (cnt : nat) :
  forall j hi ts,
    0 <= j -> cnt = Z.to_nat (hi - j) ->
    exists ts', trimStartLoop a cnt j hi ts = Ok ts'
                /\ ts <= ts' <= ts + Z.of_nat cnt.
Proof.
  induction cnt as [|c IH]; intros j hi ts Hj Hc.
  - exists ts. split; [reflexivity | lia].
  - cbn [trimStartLoop].
    destruct (j <? hi) eqn:E1; [|exists ts; split; [reflexivity | lia]].
    destruct (j <? len a) eqn:E2; [|exists ts; split; [reflexivity | lia]].
    apply Z.ltb_lt in E1. apply Z.ltb_lt in E2.
    destruct (idx_in_range a j ltac:(lia)) as [e ->]. cbn [bind].
    destruct (isStopword e); [|exists ts; split; [reflexivity | lia]].
    destruct (IH (j + 1) hi (ts + 1) ltac:(lia) ltac:(lia)) as (ts' & H & Hb).
    exists ts'. split; [exact H | lia].
Qed.

Lemma trimEndLoop_spec (a : list Element) (cnt : nat) :
  forall j lo te,
    0 <= lo -> cnt = Z.to_nat (j + 1 - lo) ->
    exists te', trimEndLoop a cnt j lo te = Ok te'
                /\ te <= te' <= te + Z.of_nat cnt.
Proof.
  induction cnt as [|c IH]; intros j lo te Hlo Hc.
  - exists te. split; [reflexivity | lia].
  - cbn [trimEndLoop].
    destruct (lo <=? j) eqn:E1; [|exists te; split; [reflexivity | lia]].
    destruct (j <? len a) eqn:E2; [|exists te; split; [reflexivity | lia]].
    apply Z.leb_le in E1. apply Z.ltb_lt in E2.
    destruct (idx_in_range a j ltac:(lia)) as [e ->]. cbn [bind].
    destruct (isStopword e); [|exists te; split; [reflexivity | lia]].
    destruct (IH (j - 1) lo (te + 1) ltac:(lia) ltac:(lia)) as (te' & H & Hb).
    exists te'. split; [exact H | lia].
Qed.

Ltac tile1 :=
  apply tilesFrom_cons; unfold shapeOk; cbn [Type_ AStart AEnd BStart BEnd];
  split; [lia|]; split; [lia|]; split; [lia|].

Lemma equalValid_sub (a b : list Element) (op : DiffOp) (ts te : Z) :
  Type_ op = OpEqual -> 0 <= ts -> 0 <= te ->
  equalValid a b op = true ->
  equalValid a b (mkOp OpEqual (AStart op + ts) (AEnd op - te)
                       (BStart op + ts) (BEnd op - te)) = true.
Proof.
  intros Ty Hts Hte Hv.
  apply (equalValid_Equal a b op Ty) in Hv. destruct Hv as [Hw Hp].
  apply equalValid_Equal; [reflexivity|].
  cbn [AStart AEnd BStart BEnd]. split; [lia|].
  intros k Hk. destruct (Hp (ts + k) ltac:(lia)) as (x & y & H1 & H2 & H3).
  exists x, y.
  replace (AStart op + ts + k) with (AStart op + (ts + k)) by lia.
  replace (BStart op + ts + k) with (BStart op + (ts + k)) by lia. auto.
Qed.

Lemma trimOne_spec (a b : list Element) (prev next : option DiffOp) (op : DiffOp) :
  0 <= AStart op -> shapeOk op ->
  exists out, trimOne a prev op next = Ok out
              /\ tilesFrom (AEnd op) (BEnd op) (AStart op) (BStart op) out = true
              /\ (equalValid a b op = true -> forallb (equalValid a b) out = true).
Proof.
  intros H0 (S1 & S2 & S3).
  assert (Hsame : tilesFrom (AEnd op) (BEnd op) (AStart op) (BStart op) [op] = true
                  /\ (equalValid a b op = true -> forallb (equalValid a b) [op] = true)).
  { split.
    - apply tilesFrom_cons. unfold shapeOk.
      split; [reflexivity|]. split; [reflexivity|].
      split; [split; [exact S1 | split; [exact S2 | exact S3]]|].
      apply tilesFrom_nil. lia.
    - intro Hv. cbn [forallb]. rewrite Hv. reflexivity. }
  unfold trimOne.
  destruct (OpType_eqb (Type_ op) OpEqual) eqn:Ty; cbn [negb];
    [|exists [op]; split; [reflexivity | exact Hsame]].
  assert (Te : Type_ op = OpEqual) by (destruct (Type_ op); try discriminate; auto).
  rewrite Te in S3. cbv zeta.
  destruct (isChangeOp prev); cbn [negb orb];
    [|exists [op]; split; [reflexivity | exact Hsame]].
  destruct (isChangeOp next); cbn [negb orb];
    [|exists [op]; split; [reflexivity | exact Hsame]].
  destruct (trimStartLoop_spec a (Z.to_nat (AEnd op - AStart op)) (AStart op) (AEnd op) 0
              H0 eq_refl) as (ts & -> & Bts).
  cbn [bind].
  destruct (trimEndLoop_spec a (Z.to_nat (AEnd op - (AStart op + ts)))
              (AEnd op - 1) (AStart op + ts) 0 ltac:(lia) ltac:(f_equal; lia))
    as (te & -> & Bte).
  cbn [bind].
  destruct (AEnd op - AStart op <=? ts + te) eqn:E.
  - eexists. split; [reflexivity|]. split; [|reflexivity].
    tile1. tile1. apply tilesFrom_nil. lia.
  - apply Z.leb_gt in E. eexists. split; [reflexivity|]. split.
    + destruct (0 <? ts) eqn:E1; destruct (AStart op + ts <? AEnd op - te) eqn:E2;
        destruct (0 <? te) eqn:E3;
        repeat match goal with
               | H : (_ <? _) = true |- _ => apply Z.ltb_lt in H
               | H : (_ <? _) = false |- _ => apply Z.ltb_ge in H
               end;
        cbn [app]; try lia; repeat tile1; apply tilesFrom_nil; lia.
    + intro Hv.
      pose proof (equalValid_sub a b op ts te Te ltac:(lia) ltac:(lia) Hv) as Hsub.
      destruct (0 <? ts); destruct (AStart op + ts <? AEnd op - te);
        destruct (0 <? te); cbn [app forallb]; rewrite ?Hsub; reflexivity.
Qed.

Lemma trimLoop_spec (a b : list Element) (ops : list DiffOp) :
  forall prev n m i j,
    0 <= i -> tilesFrom n m i j ops = true ->
    exists out, trimLoop a prev ops = Ok out /\ tilesFrom n m i j out = true
                /\ (forallb (equalValid a b) ops = true ->
                    forallb (equalValid a b) out = true).
Proof.
  induction ops as [|op ops IH]; intros prev n m i j Hi Ht.
  - exists []. split; [reflexivity|]. split; [exact Ht | auto].
  - apply tilesFrom_cons in Ht. destruct Ht as (Hs & Hb & Hshape & Ht).
    subst i j.
    destruct (trimOne_spec a b prev (hd_error ops) op Hi Hshape) as (o1 & H1 & T1 & V1).
    destruct Hshape as (S1 & S2 & S3).
    destruct (IH (Some op) n m (AEnd op) (BEnd op) ltac:(lia) Ht) as (o2 & H2 & T2 & V2).
    cbn [trimLoop]. rewrite H1. cbn [bind]. rewrite H2. cbn [bind].
    exists (o1 ++ o2). split; [reflexivity|]. split.
    + eapply tilesFrom_app; eassumption.
    + cbn [forallb]. intro Hv. apply andb_true_iff in Hv. destruct Hv as [Hv Hvs].
      rewrite forallb_app, (V1 Hv), (V2 Hvs). reflexivity.
Qed.

(** X24.  [trimStopwordBoundaries] never fails on ops that tile the sequences.
    It keeps the tiling, since what it takes off an Equal op it gives back
    as a Delete and an Insert of the same extent, and it keeps the Equal
    ops valid. *)
Theorem trimStopwordBoundaries_keeps_tiling
        (ops : list DiffOp) (a b : list Element) (n m : Z) :
  tilesFrom n m 0 0 ops = true ->
  exists out, trimStopwordBoundaries ops a b = Ok out
              /\ tilesFrom n m 0 0 out = true
              /\ (forallb (equalValid a b) ops = true ->
                  forallb (equalValid a b) out = true).
Proof.
  intro Ht. unfold trimStopwordBoundaries.
  destruct (len ops <? 2); [exists ops; auto|].
  apply trimLoop_spec; [lia | exact Ht].
Qed.


Lemma isWeakLoop_spec (a : list Element) (freq : gmap Z Z) (threshold : Z) (cnt : nat) :
  forall i hi,
    0 <= i -> cnt = Z.to_nat (hi - i) ->
    exists r, isWeakLoop a freq threshold cnt i hi = Ok r
              /\ (r = true <->
                  forall q e, i <= q < hi -> idx a q = Ok e ->
                              threshold <= freqOf freq (Hash e)).
Proof.
  induction cnt as [|c IH]; intros i hi Hi Hc.
  - exists true. split; [reflexivity|]. split; [intros _ q e Hq; lia | reflexivity].
  - cbn [isWeakLoop].
    destruct (i <? hi) eqn:E; [|apply Z.ltb_ge in E; lia]. apply Z.ltb_lt in E.
    destruct (IH (i + 1) hi ltac:(lia) ltac:(lia)) as (r & Hr & Hiff).
    destruct (len a <=? i) eqn:El.
    + apply Z.leb_le in El. exists r. split; [exact Hr|].
      rewrite Hiff. split; intros H q e Hq He.
      * destruct (Z.eq_dec q i) as [->|Hne]; [|apply (H q e); [lia | exact He]].
        apply idx_Ok in He. lia.
      * apply (H q e); [lia | exact He].
    + apply Z.leb_gt in El.
      destruct (idx_in_range a i ltac:(lia)) as [e0 He0]. rewrite He0. cbn [bind].
      destruct (freqOf freq (Hash e0) <? threshold) eqn:Ef.
      * apply Z.ltb_lt in Ef. exists false. split; [reflexivity|].
        split; [discriminate|]. intro H. specialize (H i e0 ltac:(lia) He0). lia.
      * apply Z.ltb_ge in Ef. exists r. split; [exact Hr|].
        rewrite Hiff. split; intros H q e Hq He.
        -- destruct (Z.eq_dec q i) as [->|Hne]; [|apply (H q e); [lia | exact He]].
           rewrite He0 in He. inversion He; subst. exact Ef.
        -- apply (H q e); [lia | exact He].
Qed.

(** X25.  [isWeakAnchor] never fails on an op that starts at a non-negative
    index of A, and it answers true exactly when every element of the
    region that lies within A has a frequency of at least the threshold. *)
Theorem isWeakAnchor_spec (op : DiffOp) (a b : list Element) (freq : gmap Z Z)
        (opts : anchorOptions) :
  0 <= AStart op ->
  exists r, isWeakAnchor op a b freq opts = Ok r
            /\ (r = true <->
                forall q e, AStart op <= q < AEnd op -> idx a q = Ok e ->
                            frequencyThreshold opts <= freqOf freq (Hash e)).
Proof.
  intro H. unfold isWeakAnchor. apply isWeakLoop_spec; [exact H | reflexivity].
Qed.

Lemma isWeakAnchor_spec_witness :
  exists r, isWeakAnchor (mkOp OpEqual 0 1 0 1) (toElements ["the"]%string)
                         (toElements ["the"]%string)
                         (countHashes (toElements ["the"]%string)) defaultAnchorOptions
            = Ok r
            /\ (r = true <->
                forall q e, AStart (mkOp OpEqual 0 1 0 1) <= q < AEnd (mkOp OpEqual 0 1 0 1) ->
                            idx (toElements ["the"]%string) q = Ok e ->
                            frequencyThreshold defaultAnchorOptions
                            <= freqOf (countHashes (toElements ["the"]%string)) (Hash e)).
Proof.
  apply (isWeakAnchor_spec (mkOp OpEqual 0 1 0 1) (toElements ["the"]%string)
                           (toElements ["the"]%string)
                           (countHashes (toElements ["the"]%string)) defaultAnchorOptions).
  simpl. lia.
Defined.

(** A pair of equal elements at positions [p] of A and [q] of B. *)
Definition matchAt (a b : list Element) (p q : Z) : Prop :=
  exists x y, idx a p = Ok x /\ idx b q = Ok y /\ Equal x y = true.

Lemma matchesBeforeLoop_spec (a b : list Element) (aPos bPos window : Z) (cnt : nat) :
  forall i matches,
    0 <= matches -> cnt = Z.to_nat (window + 1 - i) ->
    exists r, matchesBeforeLoop a b aPos bPos cnt i window matches = Ok r
              /\ matches <= r
              /\ (matches < r <->
                  exists k, i <= k <= window /\ matchAt a b (aPos - k) (bPos - k)).
Proof.
  induction cnt as [|c IH]; intros i matches Hm Hc.
  - exists matches. split; [reflexivity|]. split; [lia|].
    split; [lia | intros (k & Hk & _); lia].
  - cbn [matchesBeforeLoop].
    destruct (i <=? window) eqn:E; [|apply Z.leb_gt in E; lia]. apply Z.leb_le in E.
    cbv zeta.
    assert (Hstep : exists m',
               (if (0 <=? aPos - i) && (0 <=? bPos - i) && (aPos - i <? len a)
                   && (bPos - i <? len b)
                then let* x := idx a (aPos - i) in
                     let* y := idx b (bPos - i) in
                     Ok (if Equal x y then matches + 1 else matches)
                else Ok matches) = Ok m'
               /\ matches <= m'
               /\ (matches < m' <-> matchAt a b (aPos - i) (bPos - i))).
    { destruct ((0 <=? aPos - i) && (0 <=? bPos - i) && (aPos - i <? len a)
                && (bPos - i <? len b)) eqn:G.
      - rewrite !andb_true_iff in G. destruct G as [[[G1 G2] G3] G4].
        apply Z.leb_le in G1. apply Z.leb_le in G2.
        apply Z.ltb_lt in G3. apply Z.ltb_lt in G4.
        destruct (idx_in_range a (aPos - i) ltac:(lia)) as [x Hx].
        destruct (idx_in_range b (bPos - i) ltac:(lia)) as [y Hy].
        rewrite Hx, Hy. cbn [bind].
        destruct (Equal x y) eqn:Exy.
        + exists (matches + 1). split; [reflexivity|]. split; [lia|].
          split; [intros _; exists x, y; auto | lia].
        + exists matches. split; [reflexivity|]. split; [lia|].
          split; [lia|]. intros (x' & y' & Hx' & Hy' & He).
          rewrite Hx in Hx'. rewrite Hy in Hy'.
          inversion Hx'; inversion Hy'; subst. congruence.
      - exists matches. split; [reflexivity|]. split; [lia|].
        split; [lia|]. intros (x' & y' & Hx' & Hy' & He).
        apply idx_Ok in Hx'. apply idx_Ok in Hy'.
        rewrite !andb_false_iff in G.
        destruct G as [[[G|G]|G]|G];
          [apply Z.leb_gt in G | apply Z.leb_gt in G
           | apply Z.ltb_ge in G | apply Z.ltb_ge in G]; lia. }
    destruct Hstep as (m' & -> & Hle & Hiff). cbn [bind].
    destruct (IH (i + 1) m' ltac:(lia) ltac:(lia)) as (r & Hr & Hle' & Hiff').
    exists r. split; [exact Hr|]. split; [lia|].
    split.
    + intro Hlt. destruct (Z_lt_le_dec matches m') as [H1|H1].
      * exists i. split; [lia | apply Hiff; exact H1].
      * destruct (proj1 Hiff' ltac:(lia)) as (k & Hk & Hmk).
        exists k. split; [lia | exact Hmk].
    + intros (k & Hk & Hmk). destruct (Z.eq_dec k i) as [->|Hne].
      * apply Hiff in Hmk. lia.
      * assert (m' < r); [|lia]. apply Hiff'. exists k. split; [lia | exact Hmk].
Qed.

Lemma matchesAfterLoop_spec (a b : list Element) (aEnd bEnd window : Z) (cnt : nat) :
  forall i matches,
    0 <= aEnd -> 0 <= bEnd -> 0 <= i ->
    0 <= matches -> cnt = Z.to_nat (window - i) ->
    exists r, matchesAfterLoop a b aEnd bEnd cnt i window matches = Ok r
              /\ matches <= r
              /\ (matches < r <->
                  exists k, i <= k < window /\ matchAt a b (aEnd + k) (bEnd + k)).
Proof.
  induction cnt as [|c IH]; intros i matches Ha Hb Hi Hm Hc.
  - exists matches. split; [reflexivity|]. split; [lia|].
    split; [lia | intros (k & Hk & _); lia].
  - cbn [matchesAfterLoop].
    destruct (i <? window) eqn:E; [|apply Z.ltb_ge in E; lia]. apply Z.ltb_lt in E.
    cbv zeta.
    assert (Hstep : exists m',
               (if (aEnd + i <? len a) && (bEnd + i <? len b)
                then let* x := idx a (aEnd + i) in
                     let* y := idx b (bEnd + i) in
                     Ok (if Equal x y then matches + 1 else matches)
                else Ok matches) = Ok m'
               /\ matches <= m'
               /\ (matches < m' <-> matchAt a b (aEnd + i) (bEnd + i))).
    { destruct ((aEnd + i <? len a) && (bEnd + i <? len b)) eqn:G.
      - rewrite !andb_true_iff in G. destruct G as [G3 G4].
        apply Z.ltb_lt in G3. apply Z.ltb_lt in G4.
        destruct (idx_in_range a (aEnd + i) ltac:(lia)) as [x Hx].
        destruct (idx_in_range b (bEnd + i) ltac:(lia)) as [y Hy].
        rewrite Hx, Hy. cbn [bind].
        destruct (Equal x y) eqn:Exy.
        + exists (matches + 1). split; [reflexivity|]. split; [lia|].
          split; [intros _; exists x, y; auto | lia].
        + exists matches. split; [reflexivity|]. split; [lia|].
          split; [lia|]. intros (x' & y' & Hx' & Hy' & He).
          rewrite Hx in Hx'. rewrite Hy in Hy'.
          inversion Hx'; inversion Hy'; subst. congruence.
      - exists matches. split; [reflexivity|]. split; [lia|].
        split; [lia|]. intros (x' & y' & Hx' & Hy' & He).
        apply idx_Ok in Hx'. apply idx_Ok in Hy'.
        rewrite !andb_false_iff in G.
        destruct G as [G|G]; apply Z.ltb_ge in G; lia. }
    destruct Hstep as (m' & -> & Hle & Hiff). cbn [bind].
    destruct (IH (i + 1) m' Ha Hb ltac:(lia) ltac:(lia) ltac:(lia))
      as (r & Hr & Hle' & Hiff').
    exists r. split; [exact Hr|]. split; [lia|].
    split.
    + intro Hlt. destruct (Z_lt_le_dec matches m') as [H1|H1].
      * exists i. split; [lia | apply Hiff; exact H1].
      * destruct (proj1 Hiff' ltac:(lia)) as (k & Hk & Hmk).
        exists k. split; [lia | exact Hmk].
    + intros (k & Hk & Hmk). destruct (Z.eq_dec k i) as [->|Hne].
      * apply Hiff in Hmk. lia.
      * assert (m' < r); [|lia]. apply Hiff'. exists k. split; [lia | exact Hmk].
Qed.

(** X26.  [hasMatchingContext] never fails on an op whose end points are not
    negative.  It answers true exactly when some pair of equal elements lies
    within the window before the op, at the same distance from its start in
    A and in B, and some pair within the window after it. *)
Theorem hasMatchingContext_spec (op : DiffOp) (ops : list DiffOp) (i : Z)
        (a b : list Element) (window : Z) :
  0 <= AEnd op -> 0 <= BEnd op ->
  exists r,
    hasMatchingContext op ops i a b window = Ok r
    /\ (r = true <->
        (exists k, 1 <= k <= window /\ matchAt a b (AStart op - k) (BStart op - k))
        /\ (exists k, 0 <= k < window /\ matchAt a b (AEnd op + k) (BEnd op + k))).
Proof.
  intros Ha Hb. unfold hasMatchingContext.
  destruct (matchesBeforeLoop_spec a b (AStart op) (BStart op) window (Z.to_nat window)
              1 0 ltac:(lia) ltac:(f_equal; lia)) as (mb & -> & Hb0 & Hbi).
  cbn [bind].
  destruct (matchesAfterLoop_spec a b (AEnd op) (BEnd op) window (Z.to_nat window)
              0 0 Ha Hb ltac:(lia) ltac:(lia) ltac:(f_equal; lia))
    as (ma & -> & Ha0 & Hai).
  cbn [bind]. eexists. split; [reflexivity|].
  rewrite andb_true_iff, !Z.ltb_lt, Hbi, Hai. tauto.
Qed.

Lemma hasMatchingContext_spec_witness :
  exists r,
    hasMatchingContext (mkOp OpEqual 1 2 1 2) [] 0
                       (toElements ["a"; "b"; "c"]%string)
                       (toElements ["a"; "x"; "c"]%string) 2 = Ok r
    /\ (r = true <->
        (exists k, 1 <= k <= 2
                   /\ matchAt (toElements ["a"; "b"; "c"]%string)
                              (toElements ["a"; "x"; "c"]%string)
                              (AStart (mkOp OpEqual 1 2 1 2) - k)
                              (BStart (mkOp OpEqual 1 2 1 2) - k))
        /\ (exists k, 0 <= k < 2
                      /\ matchAt (toElements ["a"; "b"; "c"]%string)
                                 (toElements ["a"; "x"; "c"]%string)
                                 (AEnd (mkOp OpEqual 1 2 1 2) + k)
                                 (BEnd (mkOp OpEqual 1 2 1 2) + k))).
Proof.
  apply (hasMatchingContext_spec (mkOp OpEqual 1 2 1 2) [] 0
           (toElements ["a"; "b"; "c"]%string) (toElements ["a"; "x"; "c"]%string) 2);
    simpl; lia.
Defined.

(* ===================================================================== *)
(** ** Instances                                                         *)
(* ===================================================================== *)

Lemma drivers_on_empty_inputs_witness :
  DiffElements 0 [] [] [] = Ok []
  /\ DiffElementsHistogram 0 [] [] [] = Ok []
  /\ DiffElements 0 [] (toElements ["a"]%string) []
     = Ok [mkOp OpInsert 0 0 0 (len (toElements ["a"]%string))]
  /\ DiffElementsHistogram 0 [] (toElements ["a"]%string) []
     = Ok [mkOp OpInsert 0 0 0 (len (toElements ["a"]%string))]
  /\ DiffElements 0 (toElements ["a"]%string) [] []
     = Ok [mkOp OpDelete 0 (len (toElements ["a"]%string)) 0 0]
  /\ DiffElementsHistogram 0 (toElements ["a"]%string) [] []
     = Ok [mkOp OpDelete 0 (len (toElements ["a"]%string)) 0 0].
Proof.
  exact (drivers_on_empty_inputs 0 (toElements ["a"]%string) [] eq_refl).
Defined.

(** The filtered sequences and index maps of [gapA] and [gapB]. *)
Definition gapFiltered : list Element := toElements ["a"; "c"; "e"]%string.
Definition gapMapping : indexMapping := mkMapping [0; 2; 4] [0; 2; 4] 5 5.

Lemma gapMapping_mappingOf :
  mappingOf (toElements gapA) (toElements gapB) gapFiltered gapFiltered gapMapping.
Proof.
  unfold mappingOf. cbn [gapMapping aToOrig bToOrig origN origM].
  split; [reflexivity|]. split; [reflexivity|].
  split; [simpl; unfold len; simpl; lia|].
  split; [simpl; unfold len; simpl; lia|].
  split; repeat constructor.
Defined.

Lemma mapOps_sound_witness :
  exists out,
    mapOps gapMapping [mkOp OpEqual 0 3 0 3] = Ok out
    /\ tilesFrom (len (toElements gapA)) (len (toElements gapB)) 0 0 out = true
    /\ forallb (equalValid (toElements gapA) (toElements gapB)) out = true.
Proof.
  exact (mapOps_sound (toElements gapA) (toElements gapB) gapFiltered gapFiltered
           gapMapping [mkOp OpEqual 0 3 0 3] gapMapping_mappingOf eq_refl eq_refl).
Defined.

Lemma shiftOp_slides_witness :
  exists op',
    shiftOp (mkOp OpInsert 1 1 1 3) (toElements shiftA) (toElements shiftB) = Ok op'
    /\ inRange (toElements shiftA) (toElements shiftB) op'
    /\ slid (toElements shiftA) (toElements shiftB) (mkOp OpInsert 1 1 1 3) op'.
Proof.
  apply (shiftOp_slides (toElements shiftA) (toElements shiftB) (mkOp OpInsert 1 1 1 3)).
  unfold inRange, len. simpl. lia.
Defined.

Lemma shiftBoundaries_in_range_witness :
  exists mid,
    Forall2 (slid (toElements shiftA) (toElements shiftB))
            [mkOp OpEqual 0 1 0 1; mkOp OpInsert 1 1 1 3; mkOp OpEqual 1 2 3 4] mid
    /\ shiftBoundaries
         [mkOp OpEqual 0 1 0 1; mkOp OpInsert 1 1 1 3; mkOp OpEqual 1 2 3 4]
         (toElements shiftA) (toElements shiftB)
       = Ok (mergeAdjacentOps mid).
Proof.
  apply (shiftBoundaries_in_range
           [mkOp OpEqual 0 1 0 1; mkOp OpInsert 1 1 1 3; mkOp OpEqual 1 2 3 4]
           (toElements shiftA) (toElements shiftB)).
  repeat constructor; unfold inRange, len; simpl; lia.
Defined.

Lemma trimStopwordBoundaries_keeps_tiling_witness :
  exists out,
    trimStopwordBoundaries
      [mkOp OpDelete 0 1 0 0; mkOp OpEqual 1 3 0 2; mkOp OpInsert 3 3 2 3]
      (toElements ["x"; "the"; "cat"]%string) (toElements ["the"; "cat"; "y"]%string)
    = Ok out
    /\ tilesFrom 3 3 0 0 out = true
    /\ (forallb (equalValid (toElements ["x"; "the"; "cat"]%string)
                            (toElements ["the"; "cat"; "y"]%string))
                [mkOp OpDelete 0 1 0 0; mkOp OpEqual 1 3 0 2; mkOp OpInsert 3 3 2 3]
        = true ->
        forallb (equalValid (toElements ["x"; "the"; "cat"]%string)
                            (toElements ["the"; "cat"; "y"]%string)) out = true).
Proof.
  exact (trimStopwordBoundaries_keeps_tiling
           [mkOp OpDelete 0 1 0 0; mkOp OpEqual 1 3 0 2; mkOp OpInsert 3 3 2 3]
           (toElements ["x"; "the"; "cat"]%string) (toElements ["the"; "cat"; "y"]%string)
           3 3 eq_refl).
Defined.

Definition foxRaw : list DiffOp :=
  [mkOp OpEqual 0 1 0 1; mkOp OpDelete 1 2 1 1; mkOp OpInsert 2 2 1 2;
   mkOp OpEqual 2 3 2 3].

Lemma DiffElementsHistogram_tiles_and_returns_witness :
  tilesFrom (len (toElements foxA)) (len (toElements foxB)) 0 0 foxRaw = true
  /\ (exists ops, DiffElementsHistogram 3 (toElements foxA) (toElements foxB) [] = Ok ops)
  /\ (postprocessing (applyOptions []) = false ->
      exists ops, DiffElementsHistogram 3 (toElements foxA) (toElements foxB) [] = Ok ops
                  /\ tilesFrom (len (toElements foxA)) (len (toElements foxB)) 0 0 ops
                     = true).
Proof.
  apply (DiffElementsHistogram_tiles_and_returns 3 (toElements foxA) (toElements foxB)
           [] foxRaw).
  vm_compute. reflexivity.
Defined.

Definition frameCtx : diffContext :=
  newDiffContext (toElements shiftA) (toElements shiftB) defaultOptions.

Lemma compareSeq_keeps_frame_witness :
  exists ctx',
    compareSeq 5 frameCtx 0 2 0 4 false = Ok ctx' /\ frameKept frameCtx ctx'.
Proof.
  destruct (compareSeq 5 frameCtx 0 2 0 4 false) as [ctx'| |] eqn:E;
    [|vm_compute in E; discriminate|vm_compute in E; discriminate].
  exists ctx'. split; [reflexivity|].
  exact (compareSeq_keeps_frame 5 frameCtx ctx' 0 2 0 4 false E).
Defined.

Definition markedCtx : diffContext :=
  setYchanges frameCtx [false; true; true; false].

Lemma buildOps_describes_marks_witness :
  tilesFrom (len (xvec markedCtx)) (len (yvec markedCtx)) 0 0
            [mkOp OpEqual 0 1 0 1; mkOp OpInsert 1 1 1 3; mkOp OpEqual 1 2 3 4] = true
  /\ alternating [mkOp OpEqual 0 1 0 1; mkOp OpInsert 1 1 1 3; mkOp OpEqual 1 2 3 4]
  /\ Forall (followsMarks (xchanges markedCtx) (ychanges markedCtx))
            [mkOp OpEqual 0 1 0 1; mkOp OpInsert 1 1 1 3; mkOp OpEqual 1 2 3 4].
Proof.
  apply (buildOps_describes_marks markedCtx
           [mkOp OpEqual 0 1 0 1; mkOp OpInsert 1 1 1 3; mkOp OpEqual 1 2 3 4]).
  vm_compute. reflexivity.
Defined.

Lemma unshifted_diff_tiles_witness :
  tilesFrom (len (toElements shiftA)) (len (toElements shiftB)) 0 0
            [mkOp OpEqual 0 1 0 1; mkOp OpInsert 1 1 1 3; mkOp OpEqual 1 2 3 4] = true.
Proof.
  apply (unshifted_diff_tiles 10 (toElements shiftA) (toElements shiftB)
           [WithPostprocessing false]
           [mkOp OpEqual 0 1 0 1; mkOp OpInsert 1 1 1 3; mkOp OpEqual 1 2 3 4]).
  - reflexivity.
  - vm_compute. reflexivity.
Defined.
